(** * NeoPixel run-length decoder: a shallow embedding and its properties

    The repository holds two sketches of the same WS2812B driver:

    - the sketch in which mode 00 is [MODE_GAP] (a run of black pixels, no
      parameter bytes; [LEDInit], [LEDStep], [LEDShow]);
    - [neopixel.ino], in which mode 00 is [MODE_PULSE] (nine parameter bytes,
      decoded by [LEDInit] only) and which adds [LEDPulse].

    Their [LEDStep] and [LEDShow] differ in one [case] of the [switch]; the
    embedding takes the sketch as a parameter and follows each function text
    line by line.  The record has the fields of neopixel.ino; the structure of
    the other sketch lacks the direction and the start and end colours, which
    its functions never touch.

    Conventions. C integers are [Z] with the conversions written out: [u8] is
    the conversion to [byte]/[unsigned char], [s8] the conversion to
    [signed char].  Flash is a total function from addresses to contents (a
    read never fails on the device, it returns whatever is stored there); the
    pointers [pRLEStart] and [pRLE] are addresses, taken as unbounded
    integers.  Every fetch of a program byte is recorded in a log, so that
    statements about the addresses the decoder touches can be made about the
    very definitions that compute the colours. *)

From Stdlib Require Import ZArith List Lia Bool.
Import ListNotations.
Open Scope Z_scope.

(** ** Macros of the sketches *)

Definition MODE_MASK : Z := 0xc0.
Definition LENGTH_MASK : Z := 0x3f.
Definition MODE_GAP : Z := 0.
Definition MODE_PULSE : Z := 0.
Definition MODE_SIMPLE : Z := 0x40.
Definition MODE_GRADIENT : Z := 0x80.
Definition MODE_END : Z := 0xc0.

(** Which sketch a function text is taken from. *)
Inductive sketch : Type :=
| GapSketch     (* mode 00 = MODE_GAP *)
| PulseSketch.  (* neopixel.ino, mode 00 = MODE_PULSE *)

(** ** C integer conversions *)

(** Conversion to an 8-bit unsigned type. *)
Definition u8 (x : Z) : Z := x mod 256.

(** Conversion to [signed char] (two's complement, as avr-gcc does). *)
Definition s8 (x : Z) : Z :=
  let y := x mod 256 in if y <? 128 then y else y - 256.

(** The [int] value of a C comparison or logical operator. *)
Definition c_bool (t : bool) : Z := if t then 1 else 0.

(** ** The LEDSTRING structure *)

Record LEDSTRING : Type := mkLEDSTRING {
  iLen : Z;        (* number of LEDs in the string *)
  lastOP : Z;      (* last operation *)
  pRLEStart : Z;   (* address of the start of the run-length data *)
  pRLE : Z;        (* address of the current spot in the data *)
  iCount : Z;      (* remaining count in the current operation *)
  iDir : Z;        (* direction for pulse (0 = positive, 1 = negative) *)
  r : Z; g : Z; b : Z;        (* current colour *)
  dr : Z; dg : Z; db : Z;     (* colour deltas (signed char) *)
  sr : Z; sg : Z; sb : Z;     (* starting colour values (pulse) *)
  er : Z; eg : Z; eb : Z      (* ending colour values (pulse) *)
}.

(** The result of [memset(pString, 0, sizeof(LEDSTRING))]. *)
Definition zeroed : LEDSTRING :=
  mkLEDSTRING 0 0 0 0 0 0 0 0 0 0 0 0 0 0 0 0 0 0.

(** Field assignments. *)
Definition set_iLen (st : LEDSTRING) (v : Z) : LEDSTRING :=
  mkLEDSTRING v (lastOP st) (pRLEStart st) (pRLE st) (iCount st) (iDir st)
    (r st) (g st) (b st) (dr st) (dg st) (db st)
    (sr st) (sg st) (sb st) (er st) (eg st) (eb st).

Definition set_lastOP (st : LEDSTRING) (v : Z) : LEDSTRING :=
  mkLEDSTRING (iLen st) v (pRLEStart st) (pRLE st) (iCount st) (iDir st)
    (r st) (g st) (b st) (dr st) (dg st) (db st)
    (sr st) (sg st) (sb st) (er st) (eg st) (eb st).

Definition set_pRLEStart (st : LEDSTRING) (v : Z) : LEDSTRING :=
  mkLEDSTRING (iLen st) (lastOP st) v (pRLE st) (iCount st) (iDir st)
    (r st) (g st) (b st) (dr st) (dg st) (db st)
    (sr st) (sg st) (sb st) (er st) (eg st) (eb st).

Definition set_pRLE (st : LEDSTRING) (v : Z) : LEDSTRING :=
  mkLEDSTRING (iLen st) (lastOP st) (pRLEStart st) v (iCount st) (iDir st)
    (r st) (g st) (b st) (dr st) (dg st) (db st)
    (sr st) (sg st) (sb st) (er st) (eg st) (eb st).

Definition set_iCount (st : LEDSTRING) (v : Z) : LEDSTRING :=
  mkLEDSTRING (iLen st) (lastOP st) (pRLEStart st) (pRLE st) v (iDir st)
    (r st) (g st) (b st) (dr st) (dg st) (db st)
    (sr st) (sg st) (sb st) (er st) (eg st) (eb st).

Definition set_iDir (st : LEDSTRING) (v : Z) : LEDSTRING :=
  mkLEDSTRING (iLen st) (lastOP st) (pRLEStart st) (pRLE st) (iCount st) v
    (r st) (g st) (b st) (dr st) (dg st) (db st)
    (sr st) (sg st) (sb st) (er st) (eg st) (eb st).

Definition set_rgb (st : LEDSTRING) (vr vg vb : Z) : LEDSTRING :=
  mkLEDSTRING (iLen st) (lastOP st) (pRLEStart st) (pRLE st) (iCount st)
    (iDir st) vr vg vb (dr st) (dg st) (db st)
    (sr st) (sg st) (sb st) (er st) (eg st) (eb st).

Definition set_deltas (st : LEDSTRING) (vr vg vb : Z) : LEDSTRING :=
  mkLEDSTRING (iLen st) (lastOP st) (pRLEStart st) (pRLE st) (iCount st)
    (iDir st) (r st) (g st) (b st) vr vg vb
    (sr st) (sg st) (sb st) (er st) (eg st) (eb st).

Definition set_start (st : LEDSTRING) (vr vg vb : Z) : LEDSTRING :=
  mkLEDSTRING (iLen st) (lastOP st) (pRLEStart st) (pRLE st) (iCount st)
    (iDir st) (r st) (g st) (b st) (dr st) (dg st) (db st)
    vr vg vb (er st) (eg st) (eb st).

Definition set_end (st : LEDSTRING) (vr vg vb : Z) : LEDSTRING :=
  mkLEDSTRING (iLen st) (lastOP st) (pRLEStart st) (pRLE st) (iCount st)
    (iDir st) (r st) (g st) (b st) (dr st) (dg st) (db st)
    (sr st) (sg st) (sb st) vr vg vb.

(** The colour handed to [LEDSendColor]. *)
Definition color : Type := (Z * Z * Z)%type.

Definition CurrentColor (st : LEDSTRING) : color := (r st, g st, b st).

(** ** Reads of flash, with the program fetches logged *)

(** A computation returns its value and the program addresses it fetched, in
    order. *)
Definition Rd (A : Type) : Type := (A * list Z)%type.

Definition ret {A : Type} (a : A) : Rd A := (a, []).

Definition bind {A B : Type} (m : Rd A) (k : A -> Rd B) : Rd B :=
  let r1 := k (fst m) in (fst r1, snd m ++ snd r1).

Definition val {A : Type} (m : Rd A) : A := fst m.
Definition fetched {A : Type} (m : Rd A) : list Z := snd m.

Declare Scope rd_scope.
Delimit Scope rd_scope with rd.
Notation "x <- m ;; k" := (bind m (fun x => k))
  (at level 61, m at next level, right associativity) : rd_scope.
Notation "' p <- m ;; k" := (bind m (fun x => let p := x in k))
  (at level 61, p pattern, m at next level, right associativity) : rd_scope.
Open Scope rd_scope.

Section Flash.

(** Contents of flash at the addresses the program pointers range over, and
    contents of the [pPalette] array by offset. *)
Variable rle : Z -> Z.
Variable pPalette : Z -> Z.

(** [pgm_read_byte(s)] on the run-length data. *)
Definition pgm_read_byte (a : Z) : Rd Z := (u8 (rle a), [a]).

(** [pgm_read_byte(pPalette + i)]. *)
Definition pal_read_byte (i : Z) : Z := u8 (pPalette i).

Variable sk : sketch.

(** *** LEDInit *)

Definition LEDInit (pRLE_arg iNumLEDs : Z) : Rd LEDSTRING :=
  let st := zeroed in
  let st := set_pRLEStart st pRLE_arg in
  let s := pRLE_arg in
  let st := set_iLen st iNumLEDs in
  bop <- pgm_read_byte s ;;
  let s := s + 1 in
  let st := set_iCount st (Z.land bop LENGTH_MASK) in
  let bop := Z.land bop MODE_MASK in
  let st := set_lastOP st bop in
  ' (st, s) <-
    (if bop =? MODE_SIMPLE then
       i <- pgm_read_byte s ;;
       let s := s + 1 in
       let i := i * 3 in
       let st := set_rgb st (pal_read_byte i) (pal_read_byte (i + 1))
                            (pal_read_byte (i + 2)) in
       ret (st, s)
     else if bop =? MODE_GRADIENT then
       i <- pgm_read_byte s ;;
       let s := s + 1 in
       let i := i * 3 in
       let st := set_rgb st (pal_read_byte i) (pal_read_byte (i + 1))
                            (pal_read_byte (i + 2)) in
       d1 <- pgm_read_byte s ;;
       d2 <- pgm_read_byte (s + 1) ;;
       d3 <- pgm_read_byte (s + 2) ;;
       let s := s + 3 in
       let st := set_deltas st (s8 d1) (s8 d2) (s8 d3) in
       ret (st, s)
     else if bop =? 0 then
       match sk with
       | GapSketch => (* case MODE_GAP: nothing to do *)
           ret (st, s)
       | PulseSketch => (* case MODE_PULSE *)
           v1 <- pgm_read_byte s ;;
           v2 <- pgm_read_byte (s + 1) ;;
           v3 <- pgm_read_byte (s + 2) ;;
           let st := set_rgb (set_start st v1 v2 v3) v1 v2 v3 in
           d1 <- pgm_read_byte (s + 3) ;;
           d2 <- pgm_read_byte (s + 4) ;;
           d3 <- pgm_read_byte (s + 5) ;;
           let st := set_deltas st (s8 d1) (s8 d2) (s8 d3) in
           e1 <- pgm_read_byte (s + 6) ;;
           e2 <- pgm_read_byte (s + 7) ;;
           e3 <- pgm_read_byte (s + 8) ;;
           let st := set_end st e1 e2 e3 in
           let st := set_iDir st 0 in
           ret (st, s + 9)
       end
     else ret (st, s)) ;;
  ret (set_pRLE st s).

(** *** LEDStep *)

(** A [for] loop that runs its body [n] times on the loop variables. *)
Fixpoint for_loop {S : Type} (n : nat) (body : S -> Rd S) (x : S) : Rd S :=
  match n with
  | O => ret x
  | S n' => x' <- body x ;; for_loop n' body x'
  end.

(** One iteration of the loop of [LEDStep], on [*pString] and the local
    pointer [s]. *)
Definition LEDStep_body (x : LEDSTRING * Z) : Rd (LEDSTRING * Z) :=
  let '(st, s) := x in
  if 0 <? iCount st then
    (* remaining count of last operation, continue it *)
    let st :=
      if lastOP st =? MODE_GRADIENT then
        set_rgb st (u8 (r st + dr st)) (u8 (g st + dg st)) (u8 (b st + db st))
      else st in
    let st := set_iCount st (u8 (iCount st - 1)) in
    ret (st, s)
  else
    (* need to step into the next operation *)
    bop <- pgm_read_byte s ;;
    let s := s + 1 in
    ' (bop, s) <-
      (if bop =? MODE_END then
         let s := pRLEStart st in
         bop <- pgm_read_byte s ;;
         ret (bop, s + 1)
       else ret (bop, s)) ;;
    let st := set_iCount st (Z.land bop LENGTH_MASK) in
    let bop := Z.land bop MODE_MASK in
    let st := set_lastOP st bop in
    if bop =? MODE_SIMPLE then
      i <- pgm_read_byte s ;;
      let s := s + 1 in
      let i := i * 3 in
      let st := set_rgb st (pal_read_byte i) (pal_read_byte (i + 1))
                           (pal_read_byte (i + 2)) in
      ret (st, s)
    else if bop =? MODE_GRADIENT then
      i <- pgm_read_byte s ;;
      let s := s + 1 in
      let i := i * 3 in
      let st := set_rgb st (pal_read_byte i) (pal_read_byte (i + 1))
                           (pal_read_byte (i + 2)) in
      d1 <- pgm_read_byte s ;;
      d2 <- pgm_read_byte (s + 1) ;;
      d3 <- pgm_read_byte (s + 2) ;;
      let s := s + 3 in
      let st := set_deltas st (s8 d1) (s8 d2) (s8 d3) in
      ret (st, s)
    else if bop =? 0 then
      match sk with
      | GapSketch => (* case MODE_GAP: set RGB to 0 *)
          ret (set_rgb st 0 0 0, s)
      | PulseSketch => (* the case is commented out; no case for mode 00 *)
          ret (st, s)
      end
    else ret (st, s).

Definition LEDStep (pString : LEDSTRING) (iStepCount : Z) : Rd LEDSTRING :=
  let s := pRLE pString in
  ' (st, s) <- for_loop (Z.to_nat iStepCount) LEDStep_body (pString, s) ;;
  ret (set_pRLE st s).

(** *** LEDShow *)

(** What [LEDShow] works on: the caller's structure [*pString], the local
    copy [string], the local pointer [s], and the colours passed to
    [LEDSendColor] so far. *)
Record ShowFrame : Type := mkShowFrame {
  caller : LEDSTRING;
  string : LEDSTRING;
  s_ptr : Z;
  sent : list color
}.

(** One iteration of the loop of [LEDShow]. *)
Definition LEDShow_body (f : ShowFrame) : Rd ShowFrame :=
  let pS := caller f in
  let str := string f in
  let s := s_ptr f in
  (* LEDSendColor(string.r, string.g, string.b) *)
  let out := sent f ++ [(r str, g str, b str)] in
  if 0 <? iCount str then
    let str :=
      if lastOP str =? MODE_GRADIENT then
        set_rgb str (u8 (r str + dr str)) (u8 (g str + dg str))
                    (u8 (b str + db str))
      else str in
    let str := set_iCount str (u8 (iCount str - 1)) in
    ret (mkShowFrame pS str s out)
  else
    bop <- pgm_read_byte s ;;
    let s := s + 1 in
    ' (bop, s) <-
      (if bop =? MODE_END then
         let s := pRLEStart str in
         bop <- pgm_read_byte s ;;
         ret (bop, s + 1)
       else ret (bop, s)) ;;
    let str := set_iCount str (Z.land bop LENGTH_MASK) in
    let bop := Z.land bop MODE_MASK in
    let str := set_lastOP str bop in
    if bop =? MODE_SIMPLE then
      iOff <- pgm_read_byte s ;;
      let s := s + 1 in
      let iOff := iOff * 3 in
      let str := set_rgb str (pal_read_byte iOff) (pal_read_byte (iOff + 1))
                             (pal_read_byte (iOff + 2)) in
      ret (mkShowFrame pS str s out)
    else if bop =? MODE_GRADIENT then
      iOff <- pgm_read_byte s ;;
      let s := s + 1 in
      let iOff := iOff * 3 in
      let str := set_rgb str (pal_read_byte iOff) (pal_read_byte (iOff + 1))
                             (pal_read_byte (iOff + 2)) in
      d1 <- pgm_read_byte s ;;
      d2 <- pgm_read_byte (s + 1) ;;
      d3 <- pgm_read_byte (s + 2) ;;
      let s := s + 3 in
      let str := set_deltas str (s8 d1) (s8 d2) (s8 d3) in
      ret (mkShowFrame pS str s out)
    else if bop =? 0 then
      match sk with
      | GapSketch => ret (mkShowFrame pS (set_rgb str 0 0 0) s out)
      | PulseSketch => ret (mkShowFrame pS str s out)
      end
    else ret (mkShowFrame pS str s out).

(** [LEDShow] returns the contents of [*pString] when it returns, and the
    colours it sent. *)
Definition LEDShow (pString : LEDSTRING) : Rd (LEDSTRING * list color) :=
  let f := mkShowFrame pString pString (pRLE pString) [] in
  f <- for_loop (Z.to_nat (iLen pString)) LEDShow_body f ;;
  ret (caller f, sent f).

End Flash.

(** ** LEDPulse (neopixel.ino) *)

Definition LEDPulse (pString : LEDSTRING) : LEDSTRING :=
  let st := pString in
  (* int r, g, b *)
  let '(ri, gi, bi) :=
    if iDir st =? 0 then (r st + dr st, g st + dg st, b st + db st)
    else (r st - dr st, g st - dg st, b st - db st) in
  let bChangeDir :=
    if (sr st <? er st) && ((ri >? er st) || (ri <? sr st)) then 1
    else if (sr st >? er st) && ((ri <? er st) || (ri >? sr st)) then 1
    else if (sg st <? eg st) && ((gi >? eg st) || (gi <? sg st)) then 1
    else if (sg st >? eg st) && ((gi <? eg st) || (gi >? sg st)) then 1
    else if (sb st <? eb st)
            && (bi >? c_bool (negb (eb st =? 0) || (bi <? sb st))) then 1
    else if (sb st >? eb st)
            && (bi <? c_bool (negb (eb st =? 0) || (bi >? sb st))) then 1
    else 0 in
  let '(ri, gi, bi, st) :=
    if negb (bChangeDir =? 0) then
      if iDir st =? 0 then (er st, eg st, eb st, set_iDir st 1)
      else (sr st, sg st, sb st, set_iDir st 0)
    else (ri, gi, bi, st) in
  set_rgb st (u8 ri) (u8 gi) (u8 bi).

(** ** Flash images and the palettes of the sketches *)

(** Flash holding the bytes [l] from address [base] on and [fill] elsewhere. *)
Definition image (base : Z) (l : list Z) (fill : Z) : Z -> Z :=
  fun a => if a <? base then fill else nth (Z.to_nat (a - base)) l fill.

(** [pPalette] of neopixel.ino. *)
Definition pPalette_pulse : list Z :=
  [0;0;0; 0x1;0;0; 0;0x1;0; 0;0;0x1; 0x1;0x1;0; 0x1;0;0x1; 0;0x1;0x1;
   0x1;0x1;0x1;
   0;0;0; 0x8;0;0; 0;0x8;0; 0;0;0x8; 0x8;0x8;0; 0x8;0;0x8; 0;0x8;0x8;
   0x8;0x8;0x8;
   0;0;0; 0x10;0;0; 0;0x10;0; 0;0;0x10; 0x10;0x10;0; 0x10;0;0x10;
   0;0x10;0x10; 0x10;0x10;0x10].

(** [pPalette] of the sketch with [MODE_GAP]. *)
Definition pPalette_gap : list Z :=
  [0;0;0; 0x20;0;0; 0;0x20;0; 0;0;0x20; 0x20;0x20;0; 0x20;0;0x20;
   0;0x20;0x20; 0x20;0x20;0x20].

(** ** Derived operations used in the statements *)

(** One call [LEDStep(pString, 1)]: the state afterwards. *)
Definition Advance (rle pal : Z -> Z) (sk : sketch) (st : LEDSTRING)
  : LEDSTRING :=
  val (LEDStep rle pal sk st 1).

(** The address of the opcode a decoding step takes when the local pointer is
    [s]: the byte at [s], unless that byte is [MODE_END]. *)
Definition opcode_addr (rle : Z -> Z) (st : LEDSTRING) (s : Z) : Z :=
  if u8 (rle s) =? MODE_END then pRLEStart st else s.

(** The loop variables [(pString, s)] of [LEDStep] seen as the structure the
    function would leave if the loop stopped here. *)
Definition pack (x : LEDSTRING * Z) : LEDSTRING := set_pRLE (fst x) (snd x).

(** The colours a call of [LEDShow] sends. *)
Definition emitted (rle pal : Z -> Z) (sk : sketch) (st : LEDSTRING)
  : list color :=
  snd (val (LEDShow rle pal sk st)).

(** ** Frame emission as the specification words it *)

(** For each of [pixelCount] pixels: read the current colour, hand it to the
    serializer, advance. *)
Fixpoint RenderFrame (advance : LEDSTRING -> LEDSTRING) (pixelCount : nat)
  (st : LEDSTRING) : list color :=
  match pixelCount with
  | O => []
  | S n => CurrentColor st :: RenderFrame advance n (advance st)
  end.

(** A channel [c] after [n] additions of the delta [d], each converted back
    to [unsigned char]. *)
Definition ramp (c d : Z) (n : nat) : Z := Nat.iter n (fun x => u8 (x + d)) c.

(** The structure [n] steps into the run it is in. *)
Definition within_run (st : LEDSTRING) (n : nat) : LEDSTRING :=
  set_iCount
    (if lastOP st =? MODE_GRADIENT
     then set_rgb st (ramp (r st) (dr st) n) (ramp (g st) (dg st) n)
                     (ramp (b st) (db st) n)
     else st)
    (iCount st - Z.of_nat n).

(** The state after [LEDInit(start, &mystring, nleds)] followed by [n] steps
    of [LEDStep]. *)
Definition reached (rle pal : Z -> Z) (sk : sketch) (start nleds n : Z)
  : LEDSTRING :=
  val (LEDStep rle pal sk (val (LEDInit rle pal sk start nleds)) n).

(** ** Programs as sequences of opcodes *)

(** The opcodes of the two sketches with their byte fields: the six length
    bits, then the parameter bytes.  Mode 00 is [Gap] in one sketch and
    [Pulse] in the other. *)
Inductive opcode : Type :=
| Gap (len : Z)
| Simple (len idx : Z)
| Gradient (len idx d1 d2 d3 : Z)
| Pulse (len s1 s2 s3 d1 d2 d3 e1 e2 e3 : Z).

(** The bytes of an opcode, the control byte written [MODE | len] as in the
    sketches. *)
Definition encode (o : opcode) : list Z :=
  match o with
  | Gap len => [Z.lor MODE_GAP len]
  | Simple len idx => [Z.lor MODE_SIMPLE len; idx]
  | Gradient len idx d1 d2 d3 => [Z.lor MODE_GRADIENT len; idx; d1; d2; d3]
  | Pulse len s1 s2 s3 d1 d2 d3 e1 e2 e3 =>
      [Z.lor MODE_PULSE len; s1; s2; s3; d1; d2; d3; e1; e2; e3]
  end.

Definition is_byte (x : Z) : bool := (0 <=? x) && (x <? 256).
Definition is_len (x : Z) : bool := (0 <=? x) && (x <=? 63).

(** A GAP, SIMPLE or GRADIENT opcode of the given sketch with its fields in
    range; neopixel.ino has no GAP. *)
Definition plain_run (sk : sketch) (o : opcode) : bool :=
  match o with
  | Gap len =>
      match sk with GapSketch => is_len len | PulseSketch => false end
  | Simple len idx => is_len len && is_byte idx
  | Gradient len idx d1 d2 d3 =>
      is_len len && is_byte idx && is_byte d1 && is_byte d2 && is_byte d3
  | Pulse _ _ _ _ _ _ _ _ _ _ => false
  end.

Definition op_len (o : opcode) : Z :=
  match o with
  | Gap len => len
  | Simple len _ => len
  | Gradient len _ _ _ _ => len
  | Pulse len _ _ _ _ _ _ _ _ _ => len
  end.

(** The number of pixels of a run: the length field plus one. *)
Definition run_length (o : opcode) : nat := S (Z.to_nat (op_len o)).

(** The sum of all run lengths. *)
Definition period (ops : list opcode) : nat :=
  fold_right (fun o n => (run_length o + n)%nat) 0%nat ops.

Definition code_bytes (ops : list opcode) : list Z := concat (map encode ops).

(** A complete program: the opcodes, then the END byte. *)
Definition assemble (ops : list opcode) : list Z := code_bytes ops ++ [MODE_END].

(** Flash holds the bytes [prog] from address [start] on. *)
Definition stored_at (rle : Z -> Z) (start : Z) (prog : list Z) : Prop :=
  forall i : nat,
    (i < length prog)%nat -> rle (start + Z.of_nat i) = nth i prog 0.

(** The address range of a buffer of [len] bytes at [start]. *)
Definition in_buffer (start : Z) (len : nat) (a : Z) : Prop :=
  start <= a < start + Z.of_nat len.

(** The structure in [LEDInit] just before the first opcode is read. *)
Definition pre_init (start nleds : Z) : LEDSTRING :=
  set_iLen (set_pRLEStart (set_pRLE zeroed start) start) nleds.

(** Two structures that agree in every field, except possibly in the stored
    deltas when the mode is not [MODE_GRADIENT] (no other mode reads them). *)
Definition same_but_idle_deltas (x y : LEDSTRING) : Prop :=
  iLen x = iLen y /\ lastOP x = lastOP y /\ pRLEStart x = pRLEStart y
  /\ pRLE x = pRLE y /\ iCount x = iCount y /\ iDir x = iDir y
  /\ CurrentColor x = CurrentColor y
  /\ (sr x, sg x, sb x) = (sr y, sg y, sb y)
  /\ (er x, eg x, eb x) = (er y, eg y, eb y)
  /\ (lastOP x = MODE_GRADIENT -> (dr x, dg x, db x) = (dr y, dg y, db y)).

(** What decoding the opcode [o] leaves in the structure, with the cursor set
    to [next]: GAP sets the channels to 0, SIMPLE looks the colour up,
    GRADIENT also loads the deltas, PULSE loads the start colour (also as the
    current colour), the deltas and the end colour and sets the direction to
    forward. *)
Definition load (pal : Z -> Z) (o : opcode) (st : LEDSTRING) (next : Z)
  : LEDSTRING :=
  match o with
  | Gap len =>
      set_pRLE (set_rgb (set_lastOP (set_iCount st len) MODE_GAP) 0 0 0) next
  | Simple len idx =>
      set_pRLE
        (set_rgb (set_lastOP (set_iCount st len) MODE_SIMPLE)
           (pal_read_byte pal (idx * 3)) (pal_read_byte pal (idx * 3 + 1))
           (pal_read_byte pal (idx * 3 + 2)))
        next
  | Gradient len idx d1 d2 d3 =>
      set_pRLE
        (set_deltas
           (set_rgb (set_lastOP (set_iCount st len) MODE_GRADIENT)
              (pal_read_byte pal (idx * 3)) (pal_read_byte pal (idx * 3 + 1))
              (pal_read_byte pal (idx * 3 + 2)))
           (s8 d1) (s8 d2) (s8 d3))
        next
  | Pulse len s1 s2 s3 d1 d2 d3 e1 e2 e3 =>
      set_pRLE
        (set_iDir
           (set_end
              (set_deltas
                 (set_rgb
                    (set_start (set_lastOP (set_iCount st len) MODE_PULSE)
                       s1 s2 s3)
                    s1 s2 s3)
                 (s8 d1) (s8 d2) (s8 d3))
              e1 e2 e3)
           0)
        next
  end.

(** The parameter addresses a decoding step fetches for an opcode of mode
    [m] at address [a]. *)
Definition param_reads (m a : Z) : list Z :=
  if m =? MODE_SIMPLE then [a + 1]
  else if m =? MODE_GRADIENT then [a + 1; a + 2; a + 3; a + 4]
  else [].

(** The fields no step of [LEDStep] writes. *)
Definition frame (st : LEDSTRING) : Z * Z * Z * (Z * Z * Z) * (Z * Z * Z) :=
  (iLen st, pRLEStart st, iDir st, (sr st, sg st, sb st),
   (er st, eg st, eb st)).

(** The structure belongs to a run of the program [ops] stored at [start]:
    its cursor is on an opcode boundary (or on the END byte) and its count is
    a six-bit value. *)
Definition at_boundary (start : Z) (ops : list opcode) (st : LEDSTRING)
  : Prop :=
  pRLEStart st = start
  /\ 0 <= iCount st <= 63
  /\ exists pre post : list opcode,
       ops = pre ++ post
       /\ pRLE st = start + Z.of_nat (length (code_bytes pre)).

(** The program addresses one step from [st] fetches. *)
Definition step_reads (rle pal : Z -> Z) (sk : sketch) (st : LEDSTRING)
  : list Z :=
  fetched (LEDStep_body rle pal sk (st, pRLE st)).

(** ** Programs of the sketches, and flash holding them at address 0 *)

(** [pDemo] of the sketch with [MODE_GAP] (without TEST_SIMPLE). *)
Definition pDemo : list Z :=
  [0x83; 0x00; 0x8; 0; 0;       0x83; 0x01; 0xf8; 0x8; 0;
   0x83; 0x02; 0; 0xf8; 0x8;    0x83; 0x03; 0x8; 0x8; 0xf8;
   0x83; 0x04; 0; 0xf8; 0x8;    0x83; 0x05; 0xf8; 0x8; 0;
   0x83; 0x06; 0x8; 0; 0;       0x83; 0x07; 0xf8; 0xf8; 0xf8;
   0xc0].

(** [pPulse10] of neopixel.ino. *)
Definition pPulse10 : list Z :=
  [0x3b; 0x0; 0x40; 0x40; 0x1; 0xff; 0; 0x40; 0; 0x40; 0xc0].

(** Flash with a palette, respectively a program, at offset 0 and erased
    cells ([0xff]) elsewhere. *)
Definition flash_gap_palette : Z -> Z := image 0 pPalette_gap 0xff.
Definition flash_pulse_palette : Z -> Z := image 0 pPalette_pulse 0xff.
Definition flash_of (prog : list Z) : Z -> Z := image 0 prog 0xff.

(** [pDemo] of the sketch with [MODE_GAP], as opcodes. *)
Definition pDemo_ops : list opcode :=
  [Gradient 3 0 8 0 0;       Gradient 3 1 0xf8 8 0;
   Gradient 3 2 0 0xf8 8;    Gradient 3 3 8 8 0xf8;
   Gradient 3 4 0 0xf8 8;    Gradient 3 5 0xf8 8 0;
   Gradient 3 6 8 0 0;       Gradient 3 7 0xf8 0xf8 0xf8].

(** A pulse whose blue channel rises from 0 to 16 by 1 while red and green
    stay at 0. *)
Definition pBlueUp : list Z := [0x3b; 0; 0; 0; 0; 0; 1; 0; 0; 0x10; 0xc0].

(** The bound test of the red and green channels: a channel with start bound
    [s] and end bound [e] has passed a bound at the candidate value [c]. *)
Definition passes_bound (s e c : Z) : bool :=
  ((s <? e) && ((c >? e) || (c <? s)))
  || ((s >? e) && ((c <? e) || (c >? s))).

(** [pPulse10] as an opcode. *)
Definition pPulse10_op : opcode := Pulse 0x3b 0 0x40 0x40 1 0xff 0 0x40 0 0x40.

(** Small programs used as examples. *)
Definition pSolidGradient : list Z := [0x40; 0; 0x83; 1; 0xf8; 8; 0; 0xc0].
Definition pSolidGap : list Z := [0x40; 1; 0x03; 0xc0].
Definition pSolidEnd : list Z := [0x40; 0; 0xc0].
Definition pSolidOdd : list Z := [0x41; 0; 0xc5; 0xc0].
Definition pSolidTwo : list Z := [0x41; 0; 0xc0].
Definition pEndFirst : list Z := [0xc0; 0x41; 5; 0xc0].
Definition stale_ops : list opcode := [Simple 0 0; Gradient 0 1 8 0 0].

(** The structure [LEDInit] leaves for a program at address 0 and 60 LEDs. *)
Definition init_state (sk : sketch) (pal : Z -> Z) (prog : list Z)
  : LEDSTRING :=
  val (LEDInit (flash_of prog) pal sk 0 60).

(** The structure after [LEDInit] and [k] calls of [LEDPulse]. *)
Definition pulse_state (prog : list Z) (k : nat) : LEDSTRING :=
  Nat.iter k LEDPulse (init_state PulseSketch flash_pulse_palette prog).

(** [pPulse10] after [LEDInit], one call of [LEDPulse] and 59 steps. *)
Definition pPulse10_run_out : LEDSTRING :=
  val (LEDStep (flash_of pPulse10) flash_pulse_palette PulseSketch
         (pulse_state pPulse10 1) 59).

(** Structures with count 0: [pSolidEnd] after [LEDInit] and [pEndFirst]
    two steps later, both with the cursor on the closing [0xc0];
    [pSolidOdd] one step after [LEDInit], with the cursor on [0xc5]. *)
Definition pSolidEnd_on_END : LEDSTRING :=
  init_state GapSketch flash_gap_palette pSolidEnd.
Definition pEndFirst_on_END : LEDSTRING :=
  reached (flash_of pEndFirst) flash_gap_palette GapSketch 0 60 2.
Definition pSolidOdd_on_0xc5 : LEDSTRING :=
  reached (flash_of pSolidOdd) flash_pulse_palette PulseSketch 0 60 1.

(** ** The serializer: sendByte and LEDSendColor *)

(** The loop of the SPI version of [sendByte] on the byte [b]: the values
    passed to [SPI.transfer], in order. *)
Fixpoint sendByte_loop (n : nat) (b : Z) : list Z :=
  match n with
  | O => []
  | S n' =>
      (if negb (Z.land b 0x80 =? 0) then 0xfc else 0xe0)
      :: sendByte_loop n' (u8 (Z.shiftl b 1))
  end.

Definition sendByte (b : Z) : list Z := sendByte_loop 8 (u8 b).

(** [LEDSendColor(r, g, b)] with the SPI [sendByte]. *)
Definition LEDSendColor (vr vg vb : Z) : list Z :=
  sendByte vg ++ sendByte vr ++ sendByte vb.

(** The SPI bytes of a whole frame: [LEDSendColor] on every colour
    [LEDShow] sends. *)
Definition frame_wire (rle pal : Z -> Z) (sk : sketch) (st : LEDSTRING)
  : list Z :=
  flat_map (fun c : color => let '(vr, vg, vb) := c in LEDSendColor vr vg vb)
    (emitted rle pal sk st).

(** What a WS2812B makes of the SPI patterns: [0xfc] is a 1, most
    significant bit first. *)
Definition spi_decode (l : list Z) : Z :=
  fold_left (fun acc x => 2 * acc + (if x =? 0xfc then 1 else 0)) l 0.

(** The colour a module latches from 24 SPI bytes (green, red, blue). *)
Definition wire_color (l : list Z) : color :=
  (spi_decode (firstn 8 (skipn 8 l)), spi_decode (firstn 8 l),
   spi_decode (firstn 8 (skipn 16 l))).

(** The colours [n] modules in a chain latch from a stream of SPI bytes. *)
Fixpoint wire_colors (n : nat) (l : list Z) : list color :=
  match n with
  | O => []
  | S n' => wire_color (firstn 24 l) :: wire_colors n' (skipn 24 l)
  end.

(** The bits of a byte, most significant first. *)
Definition bits_msb_first (x : Z) : list bool :=
  map (Z.testbit x) [7; 6; 5; 4; 3; 2; 1; 0].

(** *** The bit-banged version (ATtiny85) *)

(** Pin and timing macros of the two sketches. *)
Definition LED_BIT (sk : sketch) : Z :=
  match sk with GapSketch => 1 | PulseSketch => 0 end.
Definition LONG_DELAY : Z := 10.
Definition SHORT_DELAY (sk : sketch) : Z :=
  match sk with GapSketch => 4 | PulseSketch => 3 end.

(** What the bit-banged [sendByte] does to the machine, in order: a write of
    the port register, [__builtin_avr_delay_cycles], [cli()], [sei()]. *)
Inductive avr_event : Type :=
| WritePORTB (v : Z)
| delay_cycles (n : Z)
| cli
| sei.

(** Arduino's [bitSet(value, bit)] and [bitClear(value, bit)] on an 8-bit
    register: [value |= (1UL << bit)] and [value &= ~(1UL << bit)]. *)
Definition bitSet (value bit : Z) : Z := u8 (Z.lor value (Z.shiftl 1 bit)).
Definition bitClear (value bit : Z) : Z :=
  u8 (Z.land value (Z.lnot (Z.shiftl 1 bit))).

(** The loop of the bit-banged [sendByte], from the port value [port]: the
    events and the port value left. *)
Fixpoint sendByte_attiny85_loop (sk : sketch) (n : nat) (b port : Z)
  : list avr_event * Z :=
  match n with
  | O => ([], port)
  | S n' =>
      let hi := bitSet port (LED_BIT sk) in
      let lo := bitClear hi (LED_BIT sk) in
      let evs :=
        if negb (Z.land b 0x80 =? 0) then
          [WritePORTB hi; delay_cycles LONG_DELAY;
           WritePORTB lo; delay_cycles (SHORT_DELAY sk)]
        else
          [cli; WritePORTB hi; delay_cycles (SHORT_DELAY sk);
           WritePORTB lo; sei; delay_cycles LONG_DELAY] in
      let rest := sendByte_attiny85_loop sk n' (u8 (Z.shiftl b 1)) lo in
      (evs ++ fst rest, snd rest)
  end.

Definition sendByte_attiny85 (sk : sketch) (b port : Z)
  : list avr_event * Z :=
  sendByte_attiny85_loop sk 8 (u8 b) port.

(** The delay that follows each rising write of the pin: how long the pin
    stays high. *)
Fixpoint high_times (evs : list avr_event) : list Z :=
  match evs with
  | WritePORTB _ :: rest =>
      match rest with
      | delay_cycles d :: rest' =>
          match rest' with
          | WritePORTB _ :: rest'' => d :: high_times rest''
          | _ => high_times rest'
          end
      | _ => high_times rest
      end
  | _ :: rest => high_times rest
  | [] => []
  end.


(** The port values written. *)
Definition port_writes (evs : list avr_event) : list Z :=
  flat_map (fun e => match e with WritePORTB v => [v] | _ => [] end) evs.

(** ** LEDStream and LEDStreamList *)

(** The pixels one stream byte stands for: the high nibble counts black
    pixels, the low nibble pixels of the colour. *)
Definition stream_pixels (c : color) (temp : Z) : list color :=
  repeat (0, 0, 0) (Z.to_nat (Z.shiftr temp 4))
  ++ repeat c (Z.to_nat (Z.land temp 0xf)).

(** [LEDStream(pStream, r, g, b)]: the colours passed to [LEDSendColor] and
    the addresses read.  The [while] loop ends at a byte whose low nibble is
    0; [fuel] bounds the number of bytes read, and [None] says the loop has
    not ended within it. *)
Fixpoint LEDStream (fuel : nat) (rle : Z -> Z) (s vr vg vb : Z)
  : option (list color * list Z) :=
  match fuel with
  | O => None
  | S fuel' =>
      let temp := u8 (rle s) in
      let bOff := Z.shiftr temp 4 in
      let bOn := Z.land temp 0xf in
      let out :=
        repeat (0, 0, 0) (Z.to_nat bOff)
        ++ repeat (u8 vr, u8 vg, u8 vb) (Z.to_nat bOn) in
      if bOn =? 0 then Some (out, [s])
      else
        match LEDStream fuel' rle (s + 1) vr vg vb with
        | Some (o, l) => Some (out ++ o, s :: l)
        | None => None
        end
  end.

(** [LEDStreamList(pList, r, g, b)] on the pointer array [pList]: the colours
    sent.  [None] also when the array holds no null pointer (the code would
    read past it). *)
Fixpoint LEDStreamList (fuel : nat) (rle : Z -> Z) (pList : list Z)
  (vr vg vb : Z) : option (list color) :=
  match pList with
  | [] => None
  | s :: rest =>
      if s =? 0 then Some []
      else
        match LEDStream fuel rle s vr vg vb with
        | None => None
        | Some (o, _) =>
            match LEDStreamList fuel rle rest vr vg vb with
            | None => None
            | Some o' => Some (o ++ o')
            end
        end
  end.

(** ** GetButtons and the program selection of loop() *)

(** Arduino's pin levels. *)
Definition HIGH : Z := 1.
Definition LOW : Z := 0.

(** [GetButtons()]: from the static [(oldButton0, oldButton1)] and the two
    values [digitalRead] returns, the result and the new statics. *)
Definition GetButtons (old reads : Z * Z) : Z * (Z * Z) :=
  let '(oldButton0, oldButton1) := old in
  let button0 := u8 (fst reads) in
  let button1 := u8 (snd reads) in
  let buttons := 0 in
  let buttons :=
    if (button0 =? LOW) && (oldButton0 =? HIGH) then Z.lor buttons 1
    else buttons in
  let buttons :=
    if (button1 =? LOW) && (oldButton1 =? HIGH) then Z.lor buttons 2
    else buttons in
  (buttons, (button0, button1)).

(** Successive calls of [GetButtons] on a sequence of pin readings. *)
Fixpoint poll (old : Z * Z) (reads : list (Z * Z)) : list Z :=
  match reads with
  | [] => []
  | x :: rest =>
      fst (GetButtons old x) :: poll (snd (GetButtons old x)) rest
  end.

(** Where a sequence of levels goes from [HIGH] to [LOW], starting after the
    level [prev]. *)
Fixpoint falling_edges (prev : Z) (levels : list Z) : list bool :=
  match levels with
  | [] => []
  | x :: rest => ((x =? LOW) && (prev =? HIGH)) :: falling_edges x rest
  end.

(** The two [if] blocks of [loop()] that act on the buttons: from the statics
    [(iProgram, iType)] and the result [b] of [GetButtons], the new statics
    and [bChange]. *)
Definition loop_buttons (sel : Z * Z) (bb : Z) : (Z * Z) * Z :=
  let '(iProgram, iType) := sel in
  let bChange := 0 in
  let '(iProgram, bChange) :=
    if negb (Z.land bb 1 =? 0) then
      let iProgram := iProgram + 1 in
      let iProgram := if iProgram >=? 3 then 0 else iProgram in
      (iProgram, 1)
    else (iProgram, bChange) in
  let '(iType, bChange) :=
    if negb (Z.land bb 2 =? 0) then
      let iType := iType + 1 in
      let iType := if iType >=? 14 then 0 else iType in
      (iType, 1)
    else (iType, bChange) in
  ((iProgram, iType), bChange).

(** The index [loop()] takes its program from. *)
Definition program_index (sel : Z * Z) : Z := fst sel * 14 + snd sel.

Fixpoint beq_bits (l1 l2 : list bool) : bool :=
  match l1, l2 with
  | [], [] => true
  | x :: r1, y :: r2 => Bool.eqb x y && beq_bits r1 r2
  | _, _ => false
  end.

Fixpoint no_repeat (l : list bool) : bool :=
  match l with
  | x :: rest =>
      match rest with
      | y :: _ => negb (x && y) && no_repeat rest
      | [] => true
      end
  | [] => true
  end.

Definition channels_ok (st : LEDSTRING) : Prop :=
  Forall (fun c => 0 <= c < 256) [r st; g st; b st]
  /\ Forall (fun d => -128 <= d <= 127) [dr st; dg st; db st].

(** ** loop() of the sketch with MODE_GAP *)

(** The body of the [for] loop: [LEDShow], then [LEDStep(.., 1)]; the frames
    sent so far are kept with the structure. *)
Definition show_and_step (rle pal : Z -> Z) (sk : sketch)
  (x : LEDSTRING * list (list color)) : Rd (LEDSTRING * list (list color)) :=
  let '(st, frames) := x in
  r1 <- LEDShow rle pal sk st ;;
  st <- LEDStep rle pal sk (fst r1) 1 ;;
  ret (st, frames ++ [snd r1]).

(** [loop()] of the sketch with [MODE_GAP], for a program at [start]:
    [LEDInit(.., 60)], then [iters] times [LEDShow] and [LEDStep]. *)
Definition loop_show_step (rle pal : Z -> Z) (start : Z) (iters : nat)
  : Rd (LEDSTRING * list (list color)) :=
  st <- LEDInit rle pal GapSketch start 60 ;;
  for_loop iters (show_and_step rle pal GapSketch) (st, []).

(** ** loop() of neopixel.ino *)

(** The program tables of neopixel.ino. *)
Definition pPulse1 : list Z :=
  [Z.lor MODE_PULSE 0x3b; 0x0; 0; 0x10; 0x1; 0; 0xff; 0x10; 0; 0; MODE_END].
Definition pPulse2 : list Z :=
  [Z.lor MODE_PULSE 0x3b; 0x0; 0; 0x40; 0x1; 0; 0xff; 0x40; 0; 0; MODE_END].
Definition pPulse3 : list Z :=
  [Z.lor MODE_PULSE 0x3b; 0x0; 0; 0x10; 0; 0x1; 0xff; 0; 0x10; 0; MODE_END].
Definition pPulse4 : list Z :=
  [Z.lor MODE_PULSE 0x3b; 0x0; 0; 0x40; 0; 0x1; 0xff; 0; 0x40; 0; MODE_END].
Definition pPulse5 : list Z :=
  [Z.lor MODE_PULSE 0x3b; 0x0; 0x10; 0; 0x1; 0xff; 0; 0x10; 0; 0; MODE_END].
Definition pPulse6 : list Z :=
  [Z.lor MODE_PULSE 0x3b; 0x0; 0x40; 0; 0x1; 0xff; 0; 0x40; 0; 0; MODE_END].
Definition pPulse7 : list Z :=
  [Z.lor MODE_PULSE 0x3b; 0x0; 0x10; 0x10; 0x1; 0xff; 0xff; 0x10; 0; 0;
   MODE_END].
Definition pPulse8 : list Z :=
  [Z.lor MODE_PULSE 0x3b; 0x0; 0x40; 0x40; 0x1; 0xff; 0xff; 0x40; 0; 0;
   MODE_END].
Definition pPulse9 : list Z :=
  [Z.lor MODE_PULSE 0x3b; 0x0; 0x10; 0x40; 0x1; 0xff; 0; 0x10; 0; 0x10;
   MODE_END].
Definition pPulse11 : list Z :=
  [Z.lor MODE_PULSE 0x3b; 0x10; 0; 0x10; 0xff; 0x1; 0xff; 0; 0x10; 0;
   MODE_END].
Definition pPulse12 : list Z :=
  [Z.lor MODE_PULSE 0x3b; 0x40; 0; 0x40; 0xff; 0x1; 0xff; 0; 0x40; 0;
   MODE_END].
Definition pPulse13 : list Z :=
  [Z.lor MODE_PULSE 0x3b; 0x10; 0x10; 0x10; 0xff; 0xff; 0xff; 0; 0; 0;
   MODE_END].
Definition pPulse14 : list Z :=
  [Z.lor MODE_PULSE 0x3b; 0x40; 0x40; 0x40; 0xff; 0xff; 0xff; 0; 0; 0;
   MODE_END].

Definition pCircus1 : list Z :=
  [Z.lor MODE_SIMPLE 0x2; 0x0; Z.lor MODE_SIMPLE 0x2; 0x1;
   Z.lor MODE_SIMPLE 0x2; 0x2; Z.lor MODE_SIMPLE 0x2; 0x3;
   Z.lor MODE_SIMPLE 0x2; 0x4; Z.lor MODE_SIMPLE 0x2; 0x5;
   Z.lor MODE_SIMPLE 0x2; 0x6; Z.lor MODE_SIMPLE 0x2; 0x7; MODE_END].
Definition pCircus2 : list Z :=
  [Z.lor MODE_SIMPLE 0x2; 0x8; Z.lor MODE_SIMPLE 0x2; 0x9;
   Z.lor MODE_SIMPLE 0x2; 0xa; Z.lor MODE_SIMPLE 0x2; 0xb;
   Z.lor MODE_SIMPLE 0x2; 0xc; Z.lor MODE_SIMPLE 0x2; 0xd;
   Z.lor MODE_SIMPLE 0x2; 0xe; Z.lor MODE_SIMPLE 0x2; 0xf; MODE_END].
Definition pCircus3 : list Z :=
  [Z.lor MODE_SIMPLE 0x2; 0x10; Z.lor MODE_SIMPLE 0x2; 0x11;
   Z.lor MODE_SIMPLE 0x2; 0x12; Z.lor MODE_SIMPLE 0x2; 0x13;
   Z.lor MODE_SIMPLE 0x2; 0x14; Z.lor MODE_SIMPLE 0x2; 0x15;
   Z.lor MODE_SIMPLE 0x2; 0x16; Z.lor MODE_SIMPLE 0x2; 0x17; MODE_END].

Definition pSimple1 : list Z := [Z.lor MODE_SIMPLE 0x3b; 1; MODE_END].
Definition pSimple2 : list Z := [Z.lor MODE_SIMPLE 0x3b; 9; MODE_END].
Definition pSimple3 : list Z := [Z.lor MODE_SIMPLE 0x3b; 2; MODE_END].
Definition pSimple4 : list Z := [Z.lor MODE_SIMPLE 0x3b; 10; MODE_END].
Definition pSimple5 : list Z := [Z.lor MODE_SIMPLE 0x3b; 3; MODE_END].
Definition pSimple6 : list Z := [Z.lor MODE_SIMPLE 0x3b; 11; MODE_END].
Definition pSimple7 : list Z := [Z.lor MODE_SIMPLE 0x3b; 4; MODE_END].
Definition pSimple8 : list Z := [Z.lor MODE_SIMPLE 0x3b; 12; MODE_END].
Definition pSimple9 : list Z := [Z.lor MODE_SIMPLE 0x3b; 5; MODE_END].
Definition pSimple10 : list Z := [Z.lor MODE_SIMPLE 0x3b; 13; MODE_END].
Definition pSimple11 : list Z := [Z.lor MODE_SIMPLE 0x3b; 6; MODE_END].
Definition pSimple12 : list Z := [Z.lor MODE_SIMPLE 0x3b; 14; MODE_END].
Definition pSimple13 : list Z := [Z.lor MODE_SIMPLE 0x3b; 7; MODE_END].
Definition pSimple14 : list Z := [Z.lor MODE_SIMPLE 0x3b; 15; MODE_END].

(** The array [programs] of [loop()]. *)
Definition programs : list (list Z) :=
  [pPulse1; pPulse2; pPulse3; pPulse4; pPulse5; pPulse6; pPulse7; pPulse8;
   pPulse9; pPulse10; pPulse11; pPulse12; pPulse13; pPulse14;
   pCircus1; pCircus2; pCircus3; pCircus1; pCircus2; pCircus3; pCircus1;
   pCircus2; pCircus3; pCircus1; pCircus2; pCircus3; pCircus1; pCircus2;
   pSimple1; pSimple2; pSimple3; pSimple4; pSimple5; pSimple6; pSimple7;
   pSimple8; pSimple9; pSimple10; pSimple11; pSimple12; pSimple13;
   pSimple14].

(** The statics and the global of [loop()]: [(iProgram, iType)], the statics
    of [GetButtons], and [mystring]. *)
Definition demo : Type := ((Z * Z) * (Z * Z) * LEDSTRING)%type.

(** One pass of the body of the [while] loop, on one pair of pin readings:
    the new state, the frame sent, and [bChange]. *)
Definition loop_pass (rle pal : Z -> Z) (x : demo) (reads : Z * Z)
  : Rd (demo * list color * Z) :=
  let '(sel, old, st) := x in
  let gb := GetButtons old reads in
  let lb := loop_buttons sel (fst gb) in
  r1 <- LEDShow rle pal PulseSketch st ;;
  st <- (if fst (fst lb) =? 0 then ret (LEDPulse (fst r1))
         else LEDStep rle pal PulseSketch (fst r1) 1) ;;
  ret (fst lb, snd gb, st, snd r1, snd lb).

(** The [while (!bChange)] loop over the pin readings that arrive; the last
    component says whether the loop has ended within them. *)
Fixpoint loop_while (rle pal : Z -> Z) (x : demo) (reads : list (Z * Z))
  : Rd (demo * list (list color) * bool) :=
  match reads with
  | [] => ret (x, [], false)
  | rd :: rest =>
      r1 <- loop_pass rle pal x rd ;;
      if snd r1 =? 0 then
        r2 <- loop_while rle pal (fst (fst r1)) rest ;;
        ret (fst (fst r2), snd (fst r1) :: snd (fst r2), snd r2)
      else ret (fst (fst r1), [snd (fst r1)], true)
  end.

(** One call of [loop()]: [programs_at i] is the address of [programs[i]]. *)
Definition loop (rle pal : Z -> Z) (programs_at : Z -> Z)
  (sel old : Z * Z) (reads : list (Z * Z))
  : Rd (demo * list (list color) * bool) :=
  st <- LEDInit rle pal PulseSketch (programs_at (program_index sel)) 60 ;;
  loop_while rle pal (sel, old, st) reads.

(** The opcodes of a program table of one PULSE opcode, and of a table of
    SIMPLE opcodes. *)
Definition pulse_of (prog : list Z) : list opcode :=
  match prog with
  | [c; s1; s2; s3; d1; d2; d3; e1; e2; e3; _] =>
      [Pulse (Z.land c 0x3f) s1 s2 s3 d1 d2 d3 e1 e2 e3]
  | _ => []
  end.

Fixpoint simples_of (prog : list Z) : list opcode :=
  match prog with
  | c :: idx :: rest => Simple (Z.land c 0x3f) idx :: simples_of rest
  | _ => []
  end.

Definition programs_ops : list (list opcode) :=
  map pulse_of (firstn 14 programs) ++ map simples_of (skipn 14 programs).

(** A program of one PULSE opcode whose run covers a frame of [nleds]
    pixels but for the last one. *)
Definition pulse_covers (nleds : Z) (ops : list opcode) : bool :=
  match ops with
  | [Pulse len s1 s2 s3 d1 d2 d3 e1 e2 e3] =>
      is_len len && forallb is_byte [s1; s2; s3; d1; d2; d3; e1; e2; e3]
      && (nleds <=? len + 1)
  | _ => false
  end.

(** The structure a pulse program at [start] is driven with: the cursor on
    the END byte, the count inside the run. *)
Definition pulse_driven (start nleds : Z) (st : LEDSTRING) : Prop :=
  pRLEStart st = start /\ pRLE st = start + 10
  /\ iLen st = nleds /\ 0 <= iCount st < 256 /\ nleds <= iCount st + 1.

Definition is_nil {A : Type} (l : list A) : bool :=
  match l with [] => true | _ => false end.

(** What [loop()] needs of the program it selects: in row 0, which it drives
    with [LEDPulse], one PULSE opcode covering the frame; in the other rows,
    which it drives with [LEDStep], GAP-free SIMPLE and GRADIENT opcodes. *)
Definition fits_row (iProgram : Z) (ops : list opcode) : bool :=
  if iProgram =? 0 then pulse_covers 60 ops
  else negb (is_nil ops) && forallb (plain_run PulseSketch) ops.

Definition loop_example_reads : list (Z * Z) :=
  [(1, 1); (1, 1); (1, 0); (1, 0); (0, 1)].

(** A stream of two bytes and its terminator: one black and two coloured
    pixels, three coloured pixels, then two black pixels. *)
Definition stream_example : list Z := [0x12; 0x03; 0x20].

(** Flash with [stream_example] at address 4. *)
Definition flash_stream_example : Z -> Z := image 4 stream_example 0xff.

(** [pPulse10] after [LEDInit] for a strip of 50 LEDs. *)
Definition pPulse10_short_strip : LEDSTRING :=
  val (LEDInit (flash_of pPulse10) flash_pulse_palette PulseSketch 0 50).

(** * Properties *)

(** ** Basic facts *)

Lemma val_bind {A B : Type} (m : Rd A) (k : A -> Rd B) :
  val (bind m k) = val (k (val m)).
Proof. reflexivity. Qed.

Lemma fetched_bind {A B : Type} (m : Rd A) (k : A -> Rd B) :
  fetched (bind m k) = fetched m ++ fetched (k (val m)).
Proof. reflexivity. Qed.

Lemma u8_range (x : Z) : 0 <= u8 x < 256.
Proof. unfold u8. apply Z.mod_pos_bound. lia. Qed.

Lemma u8_small (x : Z) : 0 <= x < 256 -> u8 x = x.
Proof. intros H. unfold u8. apply Z.mod_small. exact H. Qed.

Lemma s8_congr (x : Z) : u8 (s8 x) = u8 x.
Proof.
  unfold s8, u8.
  destruct (x mod 256 <? 128).
  - apply Z.mod_mod. lia.
  - replace (x mod 256 - 256) with (x mod 256 + (-1) * 256) by lia.
    rewrite Z.mod_add by lia. apply Z.mod_mod. lia.
Qed.

Lemma s8_range (x : Z) : -128 <= s8 x <= 127.
Proof.
  unfold s8. pose proof (Z.mod_pos_bound x 256 ltac:(lia)).
  destruct (x mod 256 <? 128) eqn:E.
  - apply Z.ltb_lt in E. lia.
  - apply Z.ltb_ge in E. lia.
Qed.

(** Exhaustive check over the 256 byte values. *)
Lemma byte_cases (P : Z -> bool) :
  forallb P (map Z.of_nat (seq 0 256)) = true ->
  forall x, 0 <= x < 256 -> P x = true.
Proof.
  intros H x Hx.
  rewrite forallb_forall in H. apply H.
  apply in_map_iff. exists (Z.to_nat x). split.
  - apply Z2Nat.id. lia.
  - apply in_seq. lia.
Qed.

Lemma mode_bits_cases (x : Z) :
  0 <= x < 256 ->
  Z.land x MODE_MASK = 0 \/ Z.land x MODE_MASK = MODE_SIMPLE \/
  Z.land x MODE_MASK = MODE_GRADIENT \/ Z.land x MODE_MASK = MODE_END.
Proof.
  intros Hx.
  pose proof (byte_cases
    (fun x => let m := Z.land x MODE_MASK in
              (m =? 0) || (m =? MODE_SIMPLE) || (m =? MODE_GRADIENT)
              || (m =? MODE_END)) eq_refl x Hx) as H.
  cbv beta zeta in H.
  repeat (apply orb_prop in H; destruct H as [H|H]);
    apply Z.eqb_eq in H; auto.
Qed.

Lemma length_bits_range (x : Z) : 0 <= Z.land x LENGTH_MASK <= 63.
Proof.
  unfold LENGTH_MASK. change 0x3f with (Z.ones 6).
  rewrite Z.land_ones by lia. change (2 ^ 6) with 64.
  change (Z.ones 6) with 63.
  pose proof (Z.mod_pos_bound x 64 ltac:(lia)). lia.
Qed.

(** A control byte assembled as [MODE | len]. *)
Lemma control_byte (m len : Z) :
  m = 0 \/ m = MODE_SIMPLE \/ m = MODE_GRADIENT ->
  is_len len = true ->
  u8 (Z.lor m len) = Z.lor m len
  /\ Z.land (Z.lor m len) MODE_MASK = m
  /\ Z.land (Z.lor m len) LENGTH_MASK = len
  /\ Z.lor m len <> MODE_END.
Proof.
  intros Hm Hl.
  assert (Hb : 0 <= len < 256).
  { unfold is_len in Hl. apply andb_prop in Hl. destruct Hl as [H1 H2].
    apply Z.leb_le in H1, H2. lia. }
  pose proof (byte_cases
    (fun l =>
       negb (is_len l)
       || forallb (fun m =>
                     (u8 (Z.lor m l) =? Z.lor m l)
                     && (Z.land (Z.lor m l) MODE_MASK =? m)
                     && (Z.land (Z.lor m l) LENGTH_MASK =? l)
                     && negb (Z.lor m l =? MODE_END))
            [0; MODE_SIMPLE; MODE_GRADIENT])
    eq_refl len Hb) as H.
  cbv beta in H. rewrite Hl in H. cbn [negb orb] in H.
  rewrite forallb_forall in H.
  assert (Hin : In m [0; MODE_SIMPLE; MODE_GRADIENT]).
  { cbn [In]. destruct Hm as [->|[->| ->]]; auto. }
  specialize (H m Hin).
  apply andb_prop in H. destruct H as [H H4].
  apply andb_prop in H. destruct H as [H H3].
  apply andb_prop in H. destruct H as [H1 H2].
  apply Z.eqb_eq in H1, H2, H3.
  apply negb_true_iff in H4. apply Z.eqb_neq in H4.
  auto.
Qed.

Lemma is_byte_u8 (x : Z) : is_byte x = true -> u8 x = x.
Proof.
  unfold is_byte. intros H. apply andb_prop in H. destruct H as [H1 H2].
  apply Z.leb_le in H1. apply Z.ltb_lt in H2. apply u8_small. lia.
Qed.

(** ** Flash holding a program *)

Lemma image_stored_at (base : Z) (l : list Z) (fill : Z) :
  stored_at (image base l fill) base l.
Proof.
  intros i Hi. unfold image.
  destruct (base + Z.of_nat i <? base) eqn:E.
  - apply Z.ltb_lt in E. lia.
  - replace (base + Z.of_nat i - base) with (Z.of_nat i) by lia.
    rewrite Nat2Z.id. apply nth_indep. exact Hi.
Qed.

Lemma stored_at_app_l (rle : Z -> Z) (a : Z) (l1 l2 : list Z) :
  stored_at rle a (l1 ++ l2) -> stored_at rle a l1.
Proof.
  intros H i Hi. rewrite H by (rewrite length_app; lia).
  apply app_nth1. exact Hi.
Qed.

Lemma stored_at_app_r (rle : Z -> Z) (a : Z) (l1 l2 : list Z) :
  stored_at rle a (l1 ++ l2) ->
  stored_at rle (a + Z.of_nat (length l1)) l2.
Proof.
  intros H i Hi.
  replace (a + Z.of_nat (length l1) + Z.of_nat i)
    with (a + Z.of_nat (length l1 + i)) by lia.
  rewrite H by (rewrite length_app; lia).
  apply app_nth2_plus.
Qed.

Lemma stored_at_0 (rle : Z -> Z) (a x : Z) (l : list Z) :
  stored_at rle a (x :: l) -> rle a = x.
Proof.
  intros H. specialize (H 0%nat). cbn [length nth Z.of_nat] in H.
  rewrite Z.add_0_r in H. apply H. lia.
Qed.

Lemma stored_at_tail (rle : Z -> Z) (a x : Z) (l : list Z) :
  stored_at rle a (x :: l) -> stored_at rle (a + 1) l.
Proof.
  intros H. apply (stored_at_app_r rle a [x] l H).
Qed.

(** ** Proof steps shared by the case analyses *)

Ltac step_fields :=
  cbn [fst snd iLen lastOP pRLEStart pRLE iCount iDir r g b dr dg db
       sr sg sb er eg eb set_pRLE set_iCount set_lastOP set_rgb set_deltas
       set_iLen set_pRLEStart set_iDir set_start set_end
       caller string s_ptr sent].

Ltac split_ifs :=
  repeat (step_fields;
          match goal with
          | |- context [if ?c then _ else _] => destruct c eqn:?
          | |- context [match ?k with GapSketch => _ | PulseSketch => _ end] =>
              destruct k
          end).

(** ** The loop body of LEDStep and the single step *)

Section StepFacts.

Variables (rle pal : Z -> Z) (sk : sketch).

Lemma set_pRLE_same (st : LEDSTRING) : set_pRLE st (pRLE st) = st.
Proof. destruct st; reflexivity. Qed.

(** The loop body never looks at the field [pRLE], nor writes it. *)
Lemma LEDStep_body_pRLE (st : LEDSTRING) (s p : Z) :
  LEDStep_body rle pal sk (set_pRLE st p, s) =
  (set_pRLE (fst (val (LEDStep_body rle pal sk (st, s)))) p,
   snd (val (LEDStep_body rle pal sk (st, s))),
   fetched (LEDStep_body rle pal sk (st, s))).
Proof.
  unfold LEDStep_body, bind, ret, pgm_read_byte, val, fetched.
  split_ifs; reflexivity.
Qed.

Lemma for_loop_val {S : Type} (n : nat) (body : S -> Rd S) (x : S) :
  val (for_loop n body x) = Nat.iter n (fun y => val (body y)) x.
Proof.
  revert x. induction n as [|n IH]; intros x.
  - reflexivity.
  - cbn [for_loop]. rewrite val_bind, IH. symmetry. apply Nat.iter_succ_r.
Qed.

Lemma Advance_pack (st : LEDSTRING) (s : Z) :
  Advance rle pal sk (set_pRLE st s) =
  pack (val (LEDStep_body rle pal sk (st, s))).
Proof.
  unfold Advance, LEDStep. rewrite val_bind, for_loop_val.
  change (Z.to_nat 1) with 1%nat. rewrite Nat.iter_succ.
  change (Nat.iter 0 ?f ?x) with x.
  change (pRLE (set_pRLE st s)) with s.
  rewrite LEDStep_body_pRLE. unfold val at 1. cbn [fst].
  destruct (val (LEDStep_body rle pal sk (st, s))) as [st1 s1].
  reflexivity.
Qed.

Lemma iter_pack (n : nat) (st : LEDSTRING) (s : Z) :
  pack (Nat.iter n (fun y => val (LEDStep_body rle pal sk y)) (st, s)) =
  Nat.iter n (Advance rle pal sk) (set_pRLE st s).
Proof.
  induction n as [|n IH].
  - reflexivity.
  - rewrite !Nat.iter_succ, <- IH.
    destruct (Nat.iter n _ (st, s)) as [st1 s1].
    unfold pack at 2. cbn [fst snd]. rewrite Advance_pack. reflexivity.
Qed.

Lemma iter_pack_start (n : nat) (st : LEDSTRING) :
  Nat.iter n (Advance rle pal sk) st =
  pack (Nat.iter n (fun y => val (LEDStep_body rle pal sk y)) (st, pRLE st)).
Proof. rewrite iter_pack, set_pRLE_same. reflexivity. Qed.

(** [LEDStep(pString, n)] is [n] single steps. *)
Lemma LEDStep_iter (st : LEDSTRING) (n : Z) :
  val (LEDStep rle pal sk st n) =
  Nat.iter (Z.to_nat n) (Advance rle pal sk) st.
Proof.
  unfold LEDStep. rewrite val_bind, for_loop_val.
  rewrite iter_pack_start.
  destruct (Nat.iter _ _ (st, pRLE st)) as [st1 s1]. reflexivity.
Qed.

(** The loop body of [LEDShow] is the loop body of [LEDStep] run on the local
    copy, after the colour of the copy has been sent. *)
Lemma LEDShow_body_LEDStep_body (f : ShowFrame) :
  LEDShow_body rle pal sk f =
  (mkShowFrame (caller f)
     (fst (val (LEDStep_body rle pal sk (string f, s_ptr f))))
     (snd (val (LEDStep_body rle pal sk (string f, s_ptr f))))
     (sent f ++ [CurrentColor (string f)]),
   fetched (LEDStep_body rle pal sk (string f, s_ptr f))).
Proof.
  unfold LEDShow_body, LEDStep_body, bind, ret, pgm_read_byte, val, fetched,
    CurrentColor.
  split_ifs; reflexivity.
Qed.

Lemma LEDShow_loop (n : nat) (st : LEDSTRING) :
  Nat.iter n (fun f => val (LEDShow_body rle pal sk f))
    (mkShowFrame st st (pRLE st) []) =
  let x := Nat.iter n (fun y => val (LEDStep_body rle pal sk y))
             (st, pRLE st) in
  mkShowFrame st (fst x) (snd x)
    (map (fun i => CurrentColor (Nat.iter i (Advance rle pal sk) st))
         (seq 0 n)).
Proof.
  induction n as [|n IH].
  - reflexivity.
  - rewrite !Nat.iter_succ, IH. cbv zeta.
    rewrite LEDShow_body_LEDStep_body. unfold val at 1.
    cbn [fst caller string s_ptr sent].
    rewrite seq_S, map_app. cbn [map Nat.add].
    rewrite (iter_pack_start n st).
    destruct (Nat.iter n _ (st, pRLE st)) as [st1 s1].
    reflexivity.
Qed.

End StepFacts.

Lemma RenderFrame_map (advance : LEDSTRING -> LEDSTRING) (n : nat)
  (st : LEDSTRING) :
  RenderFrame advance n st =
  map (fun i => CurrentColor (Nat.iter i advance st)) (seq 0 n).
Proof.
  revert st. induction n as [|n IH]; intros st.
  - reflexivity.
  - cbn [RenderFrame seq map]. f_equal.
    rewrite IH, <- seq_shift, map_map.
    apply map_ext. intros i. rewrite Nat.iter_succ_r. reflexivity.
Qed.

(** C5. Rendering a frame sends exactly [iLen] colours (none when [iLen] is
    not positive), whatever the flash holds; the i-th colour sent is the
    current colour of the state reached by i single steps [LEDStep(.., 1)]
    from the state passed in, so the logic inlined in [LEDShow] is one
    [LEDStep] step per pixel, read-then-advance, as [RenderFrame] words it. *)
Theorem LEDShow_is_one_step_per_pixel :
  forall (rle pal : Z -> Z) (sk : sketch) (st : LEDSTRING),
    emitted rle pal sk st =
      RenderFrame (Advance rle pal sk) (Z.to_nat (iLen st)) st
    /\ emitted rle pal sk st =
         map (fun i => CurrentColor (Nat.iter i (Advance rle pal sk) st))
             (seq 0 (Z.to_nat (iLen st)))
    /\ length (emitted rle pal sk st) = Z.to_nat (iLen st).
Proof.
  intros rle pal sk st.
  assert (E : emitted rle pal sk st =
              map (fun i => CurrentColor (Nat.iter i (Advance rle pal sk) st))
                  (seq 0 (Z.to_nat (iLen st)))).
  { unfold emitted, LEDShow. rewrite val_bind, for_loop_val.
    rewrite LEDShow_loop. reflexivity. }
  split; [|split].
  - rewrite RenderFrame_map. exact E.
  - exact E.
  - rewrite E, length_map, length_seq. reflexivity.
Qed.

(** C10. [LEDShow] works on a local copy: the structure the caller passed is
    unchanged in every field when it returns, and a second call on it sends
    the same frame (and fetches the same program bytes). *)
Theorem LEDShow_leaves_caller_state :
  forall (rle pal : Z -> Z) (sk : sketch) (st : LEDSTRING),
    fst (val (LEDShow rle pal sk st)) = st
    /\ emitted rle pal sk (fst (val (LEDShow rle pal sk st))) =
       emitted rle pal sk st
    /\ LEDShow rle pal sk (fst (val (LEDShow rle pal sk st))) =
       LEDShow rle pal sk st.
Proof.
  intros rle pal sk st.
  assert (E : fst (val (LEDShow rle pal sk st)) = st).
  { unfold LEDShow. rewrite val_bind, for_loop_val.
    rewrite LEDShow_loop. reflexivity. }
  rewrite E. auto.
Qed.

(** ** What a single step does, case by case *)

Section AdvanceCases.

Variables (rle pal : Z -> Z) (sk : sketch).

Ltac open_step st :=
  rewrite <- (set_pRLE_same st) at 1; rewrite Advance_pack;
  unfold LEDStep_body, opcode_addr, bind, ret, pgm_read_byte, val, fetched,
    pack in *.

Ltac absurd_test :=
  match goal with
  | H : (?x =? ?y) = false, E : ?x = ?y |- _ =>
      rewrite E in H; discriminate H
  | H : (?x =? ?y) = true, E : ?x = ?z |- _ =>
      rewrite E in H; discriminate H
  | H : (0 <? ?x) = true, E : ?x = 0 |- _ =>
      rewrite E in H; discriminate H
  | H : (0 <? ?x) = false, E : 0 < ?x |- _ =>
      apply Z.ltb_ge in H; lia
  end.

(** Continuation of the last operation. *)
Lemma Advance_continue (st : LEDSTRING) :
  0 < iCount st ->
  Advance rle pal sk st =
  set_iCount
    (if lastOP st =? MODE_GRADIENT
     then set_rgb st (u8 (r st + dr st)) (u8 (g st + dg st))
                     (u8 (b st + db st))
     else st)
    (u8 (iCount st - 1)).
Proof.
  intros H. open_step st.
  destruct (0 <? iCount st) eqn:E; [|absurd_test].
  destruct (lastOP st =? MODE_GRADIENT); destruct st; reflexivity.
Qed.

(** Decoding a [MODE_SIMPLE] opcode. *)
Lemma Advance_simple (st : LEDSTRING) :
  iCount st = 0 ->
  let a := opcode_addr rle st (pRLE st) in
  Z.land (u8 (rle a)) MODE_MASK = MODE_SIMPLE ->
  Advance rle pal sk st =
  set_pRLE
    (set_rgb
       (set_lastOP (set_iCount st (Z.land (u8 (rle a)) LENGTH_MASK))
                   MODE_SIMPLE)
       (pal_read_byte pal (u8 (rle (a + 1)) * 3))
       (pal_read_byte pal (u8 (rle (a + 1)) * 3 + 1))
       (pal_read_byte pal (u8 (rle (a + 1)) * 3 + 2)))
    (a + 2).
Proof.
  intros H0 a Hm. subst a. open_step st.
  rewrite H0. change (0 <? 0) with false. cbv iota. step_fields.
  destruct (u8 (rle (pRLE st)) =? MODE_END) eqn:E; step_fields;
    rewrite Hm; change (MODE_SIMPLE =? MODE_SIMPLE) with true; cbv iota;
    step_fields; rewrite <- Z.add_assoc; reflexivity.
Qed.

(** Decoding a [MODE_GRADIENT] opcode. *)
Lemma Advance_gradient (st : LEDSTRING) :
  iCount st = 0 ->
  let a := opcode_addr rle st (pRLE st) in
  Z.land (u8 (rle a)) MODE_MASK = MODE_GRADIENT ->
  Advance rle pal sk st =
  set_pRLE
    (set_deltas
       (set_rgb
          (set_lastOP (set_iCount st (Z.land (u8 (rle a)) LENGTH_MASK))
                      MODE_GRADIENT)
          (pal_read_byte pal (u8 (rle (a + 1)) * 3))
          (pal_read_byte pal (u8 (rle (a + 1)) * 3 + 1))
          (pal_read_byte pal (u8 (rle (a + 1)) * 3 + 2)))
       (s8 (u8 (rle (a + 2)))) (s8 (u8 (rle (a + 3))))
       (s8 (u8 (rle (a + 4)))))
    (a + 5).
Proof.
  intros H0 a Hm. subst a. open_step st.
  rewrite H0. change (0 <? 0) with false. cbv iota. step_fields.
  destruct (u8 (rle (pRLE st)) =? MODE_END) eqn:E; step_fields;
    rewrite Hm; change (MODE_GRADIENT =? MODE_SIMPLE) with false;
    change (MODE_GRADIENT =? MODE_GRADIENT) with true; cbv iota;
    step_fields; rewrite <- !Z.add_assoc; reflexivity.
Qed.

(** Decoding an opcode of mode 00: [MODE_GAP] sets the colour to black; in
    neopixel.ino, where mode 00 is [MODE_PULSE], the [switch] has no case for
    it and only the count and the mode are set. *)
Lemma Advance_mode0 (st : LEDSTRING) :
  iCount st = 0 ->
  let a := opcode_addr rle st (pRLE st) in
  Z.land (u8 (rle a)) MODE_MASK = 0 ->
  Advance rle pal sk st =
  let st1 := set_lastOP (set_iCount st (Z.land (u8 (rle a)) LENGTH_MASK)) 0 in
  set_pRLE
    (match sk with
     | GapSketch => set_rgb st1 0 0 0
     | PulseSketch => st1
     end)
    (a + 1).
Proof.
  intros H0 a Hm. subst a. open_step st.
  rewrite H0. change (0 <? 0) with false. cbv iota. step_fields.
  destruct (u8 (rle (pRLE st)) =? MODE_END) eqn:E; step_fields;
    rewrite Hm; change (0 =? MODE_SIMPLE) with false;
    change (0 =? MODE_GRADIENT) with false; change (0 =? 0) with true;
    cbv iota; destruct sk; reflexivity.
Qed.

(** A byte with mode bits 11 that is decoded as an opcode (it is not the byte
    [MODE_END], or it is the first byte of the data): no case of the [switch]
    applies. *)
Lemma Advance_mode3 (st : LEDSTRING) :
  iCount st = 0 ->
  let a := opcode_addr rle st (pRLE st) in
  Z.land (u8 (rle a)) MODE_MASK = MODE_END ->
  Advance rle pal sk st =
  set_pRLE
    (set_lastOP (set_iCount st (Z.land (u8 (rle a)) LENGTH_MASK)) MODE_END)
    (a + 1).
Proof.
  intros H0 a Hm. subst a. open_step st.
  rewrite H0. change (0 <? 0) with false. cbv iota. step_fields.
  destruct (u8 (rle (pRLE st)) =? MODE_END) eqn:E; step_fields;
    rewrite Hm; change (MODE_END =? MODE_SIMPLE) with false;
    change (MODE_END =? MODE_GRADIENT) with false;
    change (MODE_END =? 0) with false; cbv iota; reflexivity.
Qed.

(** The count and the mode a decoding step loads. *)
Lemma Advance_decode_count (st : LEDSTRING) :
  iCount st = 0 ->
  let a := opcode_addr rle st (pRLE st) in
  iCount (Advance rle pal sk st) = Z.land (u8 (rle a)) LENGTH_MASK
  /\ lastOP (Advance rle pal sk st) = Z.land (u8 (rle a)) MODE_MASK.
Proof.
  intros H0 a.
  destruct (mode_bits_cases (u8 (rle a)) (u8_range _)) as [H|[H|[H|H]]].
  - unfold a in *. rewrite (Advance_mode0 st H0 H), H.
    destruct sk; split; reflexivity.
  - unfold a in *. rewrite (Advance_simple st H0 H), H. split; reflexivity.
  - unfold a in *. rewrite (Advance_gradient st H0 H), H. split; reflexivity.
  - unfold a in *. rewrite (Advance_mode3 st H0 H), H. split; reflexivity.
Qed.

End AdvanceCases.

(** ** Inside a run *)

Lemma ramp_closed (c d : Z) (n : nat) :
  0 <= c < 256 -> ramp c d n = u8 (c + Z.of_nat n * d).
Proof.
  intros Hc. unfold ramp. induction n as [|n IH].
  - cbn [Nat.iter]. rewrite Z.add_0_r. symmetry. apply u8_small. exact Hc.
  - rewrite Nat.iter_succ, IH. unfold u8.
    rewrite Zplus_mod_idemp_l. f_equal. lia.
Qed.

Section Runs.

Variables (rle pal : Z -> Z) (sk : sketch).

(** While the count lasts, each step is a continuation: only the count and,
    in a gradient, the colour change. *)
Lemma iter_within_run (n : nat) (st : LEDSTRING) :
  Z.of_nat n <= iCount st < 256 ->
  Nat.iter n (Advance rle pal sk) st = within_run st n.
Proof.
  induction n as [|n IH]; intros H.
  - unfold within_run, ramp. cbn [Nat.iter Z.of_nat].
    rewrite Z.sub_0_r. destruct st. cbn.
    destruct (_ =? MODE_GRADIENT); reflexivity.
  - rewrite Nat.iter_succ, IH by lia.
    assert (Hc : iCount (within_run st n) = iCount st - Z.of_nat n)
      by reflexivity.
    rewrite Advance_continue by (rewrite Hc; lia).
    rewrite Hc, (u8_small (iCount st - Z.of_nat n - 1)) by lia.
    clear IH Hc. rewrite Nat2Z.inj_succ in *.
    unfold within_run, ramp. rewrite !Nat.iter_succ.
    destruct st as [n0 op p0 p1 c0 d0 r0 g0 b0 dr0 dg0 db0
                    sr0 sg0 sb0 er0 eg0 eb0].
    cbn [lastOP iCount r g b dr dg db] in *.
    destruct (op =? MODE_GRADIENT) eqn:E;
      cbn [lastOP iCount r g b dr dg db set_rgb set_iCount iLen pRLEStart
           pRLE iDir sr sg sb er eg eb];
      rewrite ?E; unfold set_rgb, set_iCount;
      cbn [lastOP iCount r g b dr dg db iLen pRLEStart
           pRLE iDir sr sg sb er eg eb];
      f_equal; lia.
Qed.

Lemma within_run_color_gradient (st : LEDSTRING) (n : nat) :
  lastOP st = MODE_GRADIENT ->
  CurrentColor (within_run st n) =
  (ramp (r st) (dr st) n, ramp (g st) (dg st) n, ramp (b st) (db st) n).
Proof.
  intros H. unfold within_run. rewrite H.
  change (MODE_GRADIENT =? MODE_GRADIENT) with true. reflexivity.
Qed.

Lemma within_run_color_flat (st : LEDSTRING) (n : nat) :
  lastOP st <> MODE_GRADIENT ->
  CurrentColor (within_run st n) = CurrentColor st.
Proof.
  intros H. unfold within_run.
  destruct (lastOP st =? MODE_GRADIENT) eqn:E.
  - apply Z.eqb_eq in E. contradiction.
  - reflexivity.
Qed.

(** [1 + k] steps are the decoding step followed by [k] more. *)
Lemma LEDStep_succ (st : LEDSTRING) (k : Z) :
  0 <= k ->
  val (LEDStep rle pal sk st (1 + k)) =
  Nat.iter (Z.to_nat k) (Advance rle pal sk) (Advance rle pal sk st).
Proof.
  intros Hk. rewrite LEDStep_iter.
  replace (Z.to_nat (1 + k)) with (S (Z.to_nat k)) by lia.
  apply Nat.iter_succ_r.
Qed.

End Runs.

(** ** Gradient and gap runs *)

(** C1. When a step decodes a GRADIENT opcode at address [a] (the cursor, or
    the start of the data when the cursor is on the END byte) with length
    field [L], palette index [i] and delta bytes [d], the colour shown [k]
    pixels into the run, for every [k <= L] (the run has [L + 1] pixels), is
    [Palette[i] + k * d] in each channel, reduced modulo 256: the channels
    wrap, they are not clamped. *)
Theorem gradient_run_colors :
  forall (rle pal : Z -> Z) (sk : sketch) (st : LEDSTRING) (a k : Z),
    iCount st = 0 ->
    a = opcode_addr rle st (pRLE st) ->
    Z.land (u8 (rle a)) MODE_MASK = MODE_GRADIENT ->
    0 <= k <= Z.land (u8 (rle a)) LENGTH_MASK ->
    CurrentColor (val (LEDStep rle pal sk st (1 + k))) =
      ((pal_read_byte pal (u8 (rle (a + 1)) * 3)
        + k * s8 (u8 (rle (a + 2)))) mod 256,
       (pal_read_byte pal (u8 (rle (a + 1)) * 3 + 1)
        + k * s8 (u8 (rle (a + 3)))) mod 256,
       (pal_read_byte pal (u8 (rle (a + 1)) * 3 + 2)
        + k * s8 (u8 (rle (a + 4)))) mod 256).
Proof.
  intros rle pal sk st a k H0 Ea Hm Hk. subst a.
  rewrite LEDStep_succ by lia.
  rewrite (Advance_gradient rle pal sk st H0 Hm).
  pose proof (length_bits_range
                (u8 (rle (opcode_addr rle st (pRLE st))))) as HL.
  rewrite iter_within_run
    by (cbn [iCount set_pRLE set_deltas set_rgb set_lastOP set_iCount]; lia).
  rewrite within_run_color_gradient by reflexivity.
  cbn [r g b dr dg db set_pRLE set_deltas set_rgb set_lastOP set_iCount].
  rewrite !ramp_closed by apply u8_range.
  rewrite Z2Nat.id by lia. reflexivity.
Qed.

(** C7. When a step of the sketch with [MODE_GAP] decodes a GAP opcode (at
    address [a]), the three channels are set to 0, and every pixel of the run
    is black. *)
Theorem gap_run_is_black :
  forall (rle pal : Z -> Z) (st : LEDSTRING) (a k : Z),
    iCount st = 0 ->
    a = opcode_addr rle st (pRLE st) ->
    Z.land (u8 (rle a)) MODE_MASK = MODE_GAP ->
    0 <= k <= Z.land (u8 (rle a)) LENGTH_MASK ->
    CurrentColor (Advance rle pal GapSketch st) = (0, 0, 0)
    /\ CurrentColor (val (LEDStep rle pal GapSketch st (1 + k))) = (0, 0, 0).
Proof.
  intros rle pal st a k H0 Ea Hm Hk. subst a.
  pose proof (length_bits_range
                (u8 (rle (opcode_addr rle st (pRLE st))))) as HL.
  split.
  - rewrite (Advance_mode0 rle pal GapSketch st H0 Hm). reflexivity.
  - rewrite LEDStep_succ by lia.
    rewrite (Advance_mode0 rle pal GapSketch st H0 Hm). cbv zeta.
    rewrite iter_within_run
      by (cbn [iCount set_pRLE set_rgb set_lastOP set_iCount]; lia).
    rewrite within_run_color_flat; [reflexivity|].
    cbn [lastOP set_pRLE set_rgb set_lastOP set_iCount]. discriminate.
Qed.

(** The data [SIMPLE|0, 0, GRADIENT|3, 1, 0xf8, 8, 0, END]: [LEDInit] leaves
    count 0 and the cursor on the gradient at address 2, the first step
    decodes it, and two pixels on the colour is [(0x20 - 16, 16, 0)]. *)
Lemma gradient_run_colors_witness :
  CurrentColor
    (val (LEDStep (flash_of pSolidGradient) flash_gap_palette GapSketch
            (init_state GapSketch flash_gap_palette pSolidGradient) 3))
  = (16, 16, 0).
Proof.
  apply (gradient_run_colors (flash_of pSolidGradient) flash_gap_palette
           GapSketch (init_state GapSketch flash_gap_palette pSolidGradient)
           2 2).
  - reflexivity.
  - reflexivity.
  - reflexivity.
  - vm_compute. split; intros Hc; discriminate Hc.
Defined.

(** The data [SIMPLE|0, 1, GAP|3, END] in the sketch with [MODE_GAP]: after
    [LEDInit] the colour is that of palette entry 1 and the next step decodes
    the gap at address 2. *)
Lemma gap_run_is_black_witness :
  CurrentColor (init_state GapSketch flash_gap_palette pSolidGap)
  = (0x20, 0, 0)
  /\ CurrentColor
       (Advance (flash_of pSolidGap) flash_gap_palette GapSketch
          (init_state GapSketch flash_gap_palette pSolidGap))
     = (0, 0, 0)
  /\ CurrentColor
       (val (LEDStep (flash_of pSolidGap) flash_gap_palette GapSketch
               (init_state GapSketch flash_gap_palette pSolidGap) (1 + 3)))
     = (0, 0, 0).
Proof.
  split; [reflexivity|].
  apply (gap_run_is_black (flash_of pSolidGap) flash_gap_palette
           (init_state GapSketch flash_gap_palette pSolidGap) 2 3).
  - reflexivity.
  - reflexivity.
  - reflexivity.
  - vm_compute. split; intros Hc; discriminate Hc.
Defined.

(** ** The END byte *)

Lemma opcode_addr_at_END (rle : Z -> Z) (st : LEDSTRING) :
  u8 (rle (pRLE st)) = MODE_END ->
  opcode_addr rle st (pRLE st) = pRLEStart st.
Proof. intros HE. unfold opcode_addr. rewrite HE. reflexivity. Qed.

(** ** The remaining count *)

Lemma LEDInit_count (rle pal : Z -> Z) (sk : sketch) (start nleds : Z) :
  iCount (val (LEDInit rle pal sk start nleds))
  = Z.land (u8 (rle start)) LENGTH_MASK.
Proof.
  unfold LEDInit, bind, ret, pgm_read_byte, val.
  split_ifs; reflexivity.
Qed.

Lemma Advance_count (rle pal : Z -> Z) (sk : sketch) (st : LEDSTRING) :
  0 <= iCount st <= 63 ->
  iCount (Advance rle pal sk st) =
  if 0 <? iCount st then iCount st - 1
  else Z.land (u8 (rle (opcode_addr rle st (pRLE st)))) LENGTH_MASK.
Proof.
  intros H. destruct (0 <? iCount st) eqn:E.
  - apply Z.ltb_lt in E. rewrite Advance_continue by exact E.
    cbn [iCount set_iCount]. apply u8_small. lia.
  - apply Z.ltb_ge in E.
    apply (Advance_decode_count rle pal sk st). lia.
Qed.

Lemma reached_count_range (rle pal : Z -> Z) (sk : sketch)
  (start nleds n : Z) :
  0 <= iCount (reached rle pal sk start nleds n) <= 63.
Proof.
  unfold reached. rewrite LEDStep_iter.
  induction (Z.to_nat n) as [|m IH].
  - change (0 <= iCount (val (LEDInit rle pal sk start nleds)) <= 63).
    rewrite LEDInit_count. apply length_bits_range.
  - rewrite Nat.iter_succ, Advance_count by exact IH.
    destruct (0 <? iCount _) eqn:E.
    + apply Z.ltb_lt in E. lia.
    + apply length_bits_range.
Qed.

(** C9, as the code has it. In every state reached by [LEDInit] and steps of
    [LEDStep] the remaining count lies in [0, 63], hence in [0, 64]; a step
    taken with a positive count decrements it by exactly one, and a step taken
    with count zero does not decrement it but loads the six length bits of the
    opcode it decodes. *)
Theorem count_range_and_update :
  forall (rle pal : Z -> Z) (sk : sketch) (start nleds n : Z),
    0 <= iCount (reached rle pal sk start nleds n) <= 64
    /\ iCount (reached rle pal sk start nleds n) <= 63
    /\ iCount (Advance rle pal sk (reached rle pal sk start nleds n)) =
       (if 0 <? iCount (reached rle pal sk start nleds n)
        then iCount (reached rle pal sk start nleds n) - 1
        else Z.land
               (u8 (rle (opcode_addr rle (reached rle pal sk start nleds n)
                           (pRLE (reached rle pal sk start nleds n)))))
               LENGTH_MASK).
Proof.
  intros rle pal sk start nleds n.
  pose proof (reached_count_range rle pal sk start nleds n) as H.
  split; [lia|]. split; [lia|].
  apply Advance_count. exact H.
Qed.

(** C9 as stated fails: with the data [SIMPLE|1, 0, END] the state one step
    after [LEDInit] has count 0; the next step emits a pixel too, and the
    count goes from 0 to 1, it is not decremented. *)
Lemma count_not_decremented_when_decoding :
  iCount (reached (flash_of pSolidTwo) flash_gap_palette GapSketch 0 60 1) = 0
  /\ iCount (Advance (flash_of pSolidTwo) flash_gap_palette GapSketch
               (reached (flash_of pSolidTwo) flash_gap_palette GapSketch
                  0 60 1))
     = 1
  /\ iCount (Advance (flash_of pSolidTwo) flash_gap_palette GapSketch
               (reached (flash_of pSolidTwo) flash_gap_palette GapSketch
                  0 60 1))
     <> iCount (reached (flash_of pSolidTwo) flash_gap_palette GapSketch
                  0 60 1) - 1.
Proof.
  vm_compute. repeat split; try reflexivity. intros Hc. discriminate Hc.
Qed.

(** ** Decoding an opcode of a program *)

Section Decoding.

Variables (rle pal : Z -> Z) (sk : sketch).

Ltac stored_bytes H :=
  repeat match type of H with
         | stored_at _ ?a (?x :: ?l) =>
             let B := fresh "B" in
             pose proof (stored_at_0 _ _ _ _ H) as B;
             apply stored_at_tail in H
         end;
  repeat rewrite <- Z.add_assoc in *;
  cbn [Z.add Pos.add Pos.succ] in *.

Ltac split_fields H :=
  repeat match type of H with
         | (_ && _) = true =>
             let H' := fresh "F" in
             apply andb_prop in H; destruct H as [H H']
         end.

(** A step with count zero whose opcode address holds a GAP, SIMPLE or
    GRADIENT opcode of the sketch loads that opcode and moves the cursor past
    its bytes. *)
Lemma decode_plain_run (o : opcode) (st : LEDSTRING) :
  iCount st = 0 ->
  stored_at rle (opcode_addr rle st (pRLE st)) (encode o) ->
  plain_run sk o = true ->
  Advance rle pal sk st =
  load pal o st
    (opcode_addr rle st (pRLE st) + Z.of_nat (length (encode o))).
Proof.
  intros H0 Hs Hp.
  set (a := opcode_addr rle st (pRLE st)) in *.
  destruct o as [len|len idx|len idx d1 d2 d3|len s1 s2 s3 d1 d2 d3 e1 e2 e3];
    cbn [plain_run encode] in Hp, Hs; [| | |discriminate Hp].
  - destruct sk; [|discriminate Hp].
    stored_bytes Hs.
    destruct (control_byte 0 len (or_introl eq_refl) Hp)
      as (C1 & C2 & C3 & _).
    unfold MODE_GAP in *.
    assert (Hm : Z.land (u8 (rle a)) MODE_MASK = 0) by (rewrite B, C1; exact C2).
    rewrite (Advance_mode0 rle pal GapSketch st H0 Hm). fold a.
    rewrite B, C1, C3. reflexivity.
  - split_fields Hp. stored_bytes Hs.
    destruct (control_byte MODE_SIMPLE len (or_intror (or_introl eq_refl)) Hp)
      as (C1 & C2 & C3 & _).
    assert (Hm : Z.land (u8 (rle a)) MODE_MASK = MODE_SIMPLE)
      by (rewrite B, C1; exact C2).
    rewrite (Advance_simple rle pal sk st H0 Hm). fold a.
    rewrite B, C1, C3, B0, (is_byte_u8 idx) by assumption. reflexivity.
  - split_fields Hp. stored_bytes Hs.
    destruct (control_byte MODE_GRADIENT len
                (or_intror (or_intror eq_refl)) Hp)
      as (C1 & C2 & C3 & _).
    assert (Hm : Z.land (u8 (rle a)) MODE_MASK = MODE_GRADIENT)
      by (rewrite B, C1; exact C2).
    rewrite (Advance_gradient rle pal sk st H0 Hm). fold a.
    rewrite B, C1, C3, B0, B1, B2, B3.
    rewrite !is_byte_u8 by assumption. reflexivity.
Qed.

Lemma step_reads_continue (st : LEDSTRING) :
  0 < iCount st -> step_reads rle pal sk st = [].
Proof.
  intros H. unfold step_reads, LEDStep_body, fetched.
  destruct (0 <? iCount st) eqn:E.
  - reflexivity.
  - apply Z.ltb_ge in E. lia.
Qed.

Lemma step_reads_decode (st : LEDSTRING) :
  iCount st = 0 ->
  step_reads rle pal sk st =
  (if u8 (rle (pRLE st)) =? MODE_END then [pRLE st; pRLEStart st]
   else [pRLE st])
  ++ param_reads
       (Z.land (u8 (rle (opcode_addr rle st (pRLE st)))) MODE_MASK)
       (opcode_addr rle st (pRLE st)).
Proof.
  intros H0.
  unfold step_reads, LEDStep_body, opcode_addr, param_reads, bind, ret,
    pgm_read_byte, val, fetched.
  rewrite H0. change (0 <? 0) with false. cbv iota.
  split_ifs; cbn [app]; repeat rewrite <- Z.add_assoc; reflexivity.
Qed.

(** What a plain opcode stored at [a] looks like to the decoder. *)
Lemma plain_run_at (o : opcode) (a : Z) :
  plain_run sk o = true ->
  stored_at rle a (encode o) ->
  u8 (rle a) <> MODE_END
  /\ 0 <= op_len o <= 63
  /\ Forall (fun x => a <= x < a + Z.of_nat (length (encode o)))
       (a :: param_reads (Z.land (u8 (rle a)) MODE_MASK) a)
  /\ (sk = PulseSketch -> Z.land (u8 (rle a)) MODE_MASK <> 0).
Proof.
  intros Hp Hs.
  assert (Hlen : forall l, is_len l = true -> 0 <= l <= 63).
  { intros l H. unfold is_len in H. apply andb_prop in H.
    destruct H as [H1 H2]. apply Z.leb_le in H1, H2. lia. }
  destruct o as [len|len idx|len idx d1 d2 d3|len s1 s2 s3 d1 d2 d3 e1 e2 e3];
    cbn [plain_run encode op_len length] in *; [| | |discriminate Hp].
  - destruct sk; [|discriminate Hp].
    pose proof (stored_at_0 _ _ _ _ Hs) as B.
    destruct (control_byte 0 len (or_introl eq_refl) Hp)
      as (C1 & C2 & C3 & C4).
    unfold MODE_GAP in *. rewrite B, C1, C2.
    split; [exact C4|]. split; [auto|]. split; [|discriminate].
    unfold param_reads. cbn. repeat constructor; lia.
  - split_fields Hp.
    pose proof (stored_at_0 _ _ _ _ Hs) as B.
    destruct (control_byte MODE_SIMPLE len (or_intror (or_introl eq_refl)) Hp)
      as (C1 & C2 & C3 & C4).
    rewrite B, C1, C2.
    split; [exact C4|]. split; [auto|]. split; [|discriminate].
    unfold param_reads. cbn. repeat constructor; lia.
  - split_fields Hp.
    pose proof (stored_at_0 _ _ _ _ Hs) as B.
    destruct (control_byte MODE_GRADIENT len
                (or_intror (or_intror eq_refl)) Hp)
      as (C1 & C2 & C3 & C4).
    rewrite B, C1, C2.
    split; [exact C4|]. split; [auto|]. split; [|discriminate].
    unfold param_reads. cbn. repeat constructor; lia.
Qed.

Lemma opcode_addr_here (st : LEDSTRING) :
  u8 (rle (pRLE st)) <> MODE_END -> opcode_addr rle st (pRLE st) = pRLE st.
Proof.
  intros H. unfold opcode_addr.
  destruct (u8 (rle (pRLE st)) =? MODE_END) eqn:E.
  - apply Z.eqb_eq in E. contradiction.
  - reflexivity.
Qed.

Lemma load_fields (o : opcode) (st : LEDSTRING) (next : Z) :
  plain_run sk o = true ->
  iCount (load pal o st next) = op_len o
  /\ pRLE (load pal o st next) = next
  /\ frame (load pal o st next) = frame st.
Proof.
  intros Hp.
  destruct o; cbn [plain_run] in Hp; try discriminate Hp;
    repeat split; reflexivity.
Qed.

(** No step writes the frame fields. *)
Lemma Advance_frame (st : LEDSTRING) :
  frame (Advance rle pal sk st) = frame st.
Proof.
  rewrite <- (set_pRLE_same st) at 1. rewrite Advance_pack.
  unfold LEDStep_body, bind, ret, pgm_read_byte, val, fetched, pack.
  split_ifs; reflexivity.
Qed.

Lemma iter_Advance_frame (n : nat) (st : LEDSTRING) :
  frame (Nat.iter n (Advance rle pal sk) st) = frame st.
Proof.
  induction n as [|n IH].
  - reflexivity.
  - rewrite Nat.iter_succ, Advance_frame. exact IH.
Qed.

(** [LEDInit] is [memset], the two assignments, and the first decoding step
    (unless the first opcode is a PULSE, which only [LEDInit] decodes). *)
Lemma LEDInit_first_step (start nleds : Z) :
  (sk = PulseSketch -> Z.land (u8 (rle start)) MODE_MASK <> 0) ->
  val (LEDInit rle pal sk start nleds)
  = Advance rle pal sk (pre_init start nleds)
  /\ (u8 (rle start) <> MODE_END ->
      fetched (LEDInit rle pal sk start nleds)
      = step_reads rle pal sk (pre_init start nleds)).
Proof.
  intros Hsk.
  unfold Advance, LEDStep, LEDInit, step_reads, LEDStep_body, pre_init.
  change (Z.to_nat 1) with 1%nat.
  unfold for_loop, LEDStep_body, bind, ret, pgm_read_byte, val, fetched.
  unfold zeroed. step_fields. change (0 <? 0) with false. cbv iota.
  split.
  - split_ifs; try reflexivity; try specialize (Hsk eq_refl);
      repeat match goal with
             | H : (_ =? _) = true |- _ => apply Z.eqb_eq in H
             | H : (_ =? _) = false |- _ => apply Z.eqb_neq in H
             end;
      try congruence.
  - intros HE.
    split_ifs; try reflexivity; try specialize (Hsk eq_refl);
      repeat match goal with
             | H : (_ =? _) = true |- _ => apply Z.eqb_eq in H
             | H : (_ =? _) = false |- _ => apply Z.eqb_neq in H
             end;
      try congruence.
Qed.

(** [LEDInit] of neopixel.ino decodes a PULSE opcode in full: start colour
    (also the current colour), deltas, end colour, direction forward, cursor
    past the nine parameter bytes. *)
Lemma LEDInit_loads_pulse (start nleds len s1 s2 s3 d1 d2 d3 e1 e2 e3 : Z) :
  is_len len = true ->
  forallb is_byte [s1; s2; s3; d1; d2; d3; e1; e2; e3] = true ->
  stored_at rle start (encode (Pulse len s1 s2 s3 d1 d2 d3 e1 e2 e3)) ->
  val (LEDInit rle pal PulseSketch start nleds)
  = load pal (Pulse len s1 s2 s3 d1 d2 d3 e1 e2 e3) (pre_init start nleds)
      (start + 10).
Proof.
  intros Hl Hb Hs. cbn [encode] in Hs. cbn [forallb] in Hb.
  repeat match goal with
         | H : (_ && _) = true |- _ =>
             apply andb_prop in H; destruct H
         end.
  stored_bytes Hs.
  destruct (control_byte 0 len (or_introl eq_refl) Hl) as (C1 & C2 & C3 & _).
  unfold MODE_PULSE in *.
  unfold LEDInit, load, pre_init, bind, ret, pgm_read_byte, val, fetched.
  cbn [fst snd].
  rewrite B, C1, C2, C3.
  change (0 =? MODE_SIMPLE) with false. change (0 =? MODE_GRADIENT) with false.
  change (0 =? 0) with true. cbv iota. cbn [fst snd].
  repeat rewrite <- Z.add_assoc. cbn [Z.add Pos.add Pos.succ].
  rewrite B0, B1, B2, B3, B4, B5, B6, B7, B8.
  rewrite !is_byte_u8 by assumption.
  reflexivity.
Qed.

End Decoding.

(** ** The END byte, and other bytes with mode bits 11 *)

Lemma mode_bits_11_length (x : Z) :
  0 <= x < 256 ->
  Z.land x MODE_MASK = MODE_END -> x <> MODE_END ->
  1 <= Z.land x LENGTH_MASK <= 63.
Proof.
  intros Hx Hm Hne.
  pose proof (byte_cases
    (fun x => negb (Z.land x MODE_MASK =? MODE_END) || (x =? MODE_END)
              || (1 <=? Z.land x LENGTH_MASK)) eq_refl x Hx) as H.
  cbv beta in H.
  apply orb_prop in H. destruct H as [H|H].
  - apply orb_prop in H. destruct H as [H|H].
    + rewrite Hm in H. discriminate H.
    + apply Z.eqb_eq in H. contradiction.
  - apply Z.leb_le in H. pose proof (length_bits_range x). lia.
Qed.

(** C3, as the code has it. A step that must decode (count 0) compares the
    whole byte at the cursor with [MODE_END] ([0xc0]).
    When the byte is [0xc0], the step does what it would do with the cursor
    at the start of the data: the byte taken is the first one and the count
    and the mode loaded are its own.  A GAP, SIMPLE or GRADIENT opcode stored
    at the start is loaded in this very step, with the cursor left after it,
    so the END byte takes no pixel.  The byte at the start is not compared
    with [MODE_END] again: when it is [0xc0] itself, it is decoded as an
    opcode, and the step sets the count to 0, the mode to [0xc0] and the
    cursor to the second byte, nothing else (one pixel in the colour there
    was).
    A byte with mode bits 11 other than [0xc0] is decoded where it stands:
    the count is its length field, which is 1 to 63, the mode is [0xc0], the
    cursor moves one byte on, and nothing else changes. *)
Theorem end_byte_restarts :
  forall (rle pal : Z -> Z) (sk : sketch) (st : LEDSTRING),
    iCount st = 0 ->
    (u8 (rle (pRLE st)) = MODE_END ->
     Advance rle pal sk st = Advance rle pal sk (set_pRLE st (pRLEStart st))
     /\ opcode_addr rle st (pRLE st) = pRLEStart st
     /\ iCount (Advance rle pal sk st)
        = Z.land (u8 (rle (pRLEStart st))) LENGTH_MASK
     /\ lastOP (Advance rle pal sk st)
        = Z.land (u8 (rle (pRLEStart st))) MODE_MASK
     /\ (forall o : opcode,
           plain_run sk o = true ->
           stored_at rle (pRLEStart st) (encode o) ->
           Advance rle pal sk st
           = load pal o st (pRLEStart st + Z.of_nat (length (encode o))))
     /\ (u8 (rle (pRLEStart st)) = MODE_END ->
         Advance rle pal sk st
         = set_pRLE (set_lastOP (set_iCount st 0) MODE_END)
             (pRLEStart st + 1)))
    /\ (Z.land (u8 (rle (pRLE st))) MODE_MASK = MODE_END ->
        u8 (rle (pRLE st)) <> MODE_END ->
        Advance rle pal sk st
        = set_pRLE
            (set_lastOP
               (set_iCount st (Z.land (u8 (rle (pRLE st))) LENGTH_MASK))
               MODE_END)
            (pRLE st + 1)
        /\ 1 <= Z.land (u8 (rle (pRLE st))) LENGTH_MASK <= 63).
Proof.
  intros rle pal sk st H0. split.
  - intros HE.
    pose proof (opcode_addr_at_END rle st HE) as Ha.
    split; [|split; [exact Ha|]].
    + rewrite <- (set_pRLE_same st) at 1. rewrite !Advance_pack.
      unfold LEDStep_body, bind, ret, pgm_read_byte, val, fetched.
      rewrite H0. change (0 <? 0) with false. cbv iota. cbn [fst snd].
      rewrite HE. change (MODE_END =? MODE_END) with true. cbv iota.
      cbn [fst snd].
      destruct (u8 (rle (pRLEStart st)) =? MODE_END); reflexivity.
    + pose proof (Advance_decode_count rle pal sk st H0) as H.
      cbv zeta in H. rewrite Ha in H.
      destruct H as [H1 H2]. split; [exact H1|]. split; [exact H2|]. split.
      * intros o Hp Hs. rewrite <- Ha.
        apply decode_plain_run; [exact H0| |exact Hp].
        rewrite Ha. exact Hs.
      * intros HS.
        pose proof (Advance_mode3 rle pal sk st H0) as M.
        cbv zeta in M. rewrite Ha, HS in M.
        apply M. reflexivity.
  - intros Hm Hne.
    pose proof (opcode_addr_here rle st Hne) as Ha.
    pose proof (Advance_mode3 rle pal sk st H0) as M.
    cbv zeta in M. rewrite Ha in M.
    split; [apply M; exact Hm|].
    apply mode_bits_11_length; [apply u8_range|exact Hm|exact Hne].
Qed.

(** The three cases: [SIMPLE|0, 0, END] with the cursor on the END byte,
    [END, SIMPLE|1, 5, END] with the cursor on the closing END byte, and
    [SIMPLE|1, 0, 0xc5, END] with the cursor on [0xc5]. *)
Lemma end_byte_restarts_witness :
  (Advance (flash_of pSolidEnd) flash_gap_palette GapSketch pSolidEnd_on_END
   = Advance (flash_of pSolidEnd) flash_gap_palette GapSketch
       (set_pRLE pSolidEnd_on_END (pRLEStart pSolidEnd_on_END))
   /\ opcode_addr (flash_of pSolidEnd) pSolidEnd_on_END
        (pRLE pSolidEnd_on_END)
      = pRLEStart pSolidEnd_on_END
   /\ iCount (Advance (flash_of pSolidEnd) flash_gap_palette GapSketch
                pSolidEnd_on_END)
      = Z.land (u8 (flash_of pSolidEnd (pRLEStart pSolidEnd_on_END)))
          LENGTH_MASK
   /\ lastOP (Advance (flash_of pSolidEnd) flash_gap_palette GapSketch
                pSolidEnd_on_END)
      = Z.land (u8 (flash_of pSolidEnd (pRLEStart pSolidEnd_on_END)))
          MODE_MASK
   /\ Advance (flash_of pSolidEnd) flash_gap_palette GapSketch
        pSolidEnd_on_END
      = load flash_gap_palette (Simple 0 0) pSolidEnd_on_END
          (pRLEStart pSolidEnd_on_END
           + Z.of_nat (length (encode (Simple 0 0)))))
  /\ Advance (flash_of pEndFirst) flash_gap_palette GapSketch
       pEndFirst_on_END
     = set_pRLE (set_lastOP (set_iCount pEndFirst_on_END 0) MODE_END)
         (pRLEStart pEndFirst_on_END + 1)
  /\ (Advance (flash_of pSolidOdd) flash_pulse_palette PulseSketch
        pSolidOdd_on_0xc5
      = set_pRLE
          (set_lastOP
             (set_iCount pSolidOdd_on_0xc5
                (Z.land
                   (u8 (flash_of pSolidOdd (pRLE pSolidOdd_on_0xc5)))
                   LENGTH_MASK))
             MODE_END)
          (pRLE pSolidOdd_on_0xc5 + 1)
      /\ 1 <= Z.land (u8 (flash_of pSolidOdd (pRLE pSolidOdd_on_0xc5)))
                LENGTH_MASK <= 63).
Proof.
  split; [|split].
  - destruct (end_byte_restarts (flash_of pSolidEnd) flash_gap_palette
                GapSketch pSolidEnd_on_END eq_refl) as [A _].
    destruct (A eq_refl) as (A1 & A2 & A3 & A4 & A5 & _).
    split; [exact A1|]. split; [exact A2|]. split; [exact A3|].
    split; [exact A4|].
    apply A5; [reflexivity|].
    apply (stored_at_app_l _ _ _ [MODE_END]). apply image_stored_at.
  - destruct (end_byte_restarts (flash_of pEndFirst) flash_gap_palette
                GapSketch pEndFirst_on_END eq_refl) as [A _].
    destruct (A eq_refl) as (_ & _ & _ & _ & _ & A6).
    apply A6. reflexivity.
  - destruct (end_byte_restarts (flash_of pSolidOdd) flash_pulse_palette
                PulseSketch pSolidOdd_on_0xc5 eq_refl) as [_ B].
    apply B; [reflexivity|]. vm_compute. discriminate.
Defined.

(** C3 as stated fails: in [SIMPLE|1, 0, 0xc5, END] the byte [0xc5] has mode
    bits 11; one step after [LEDInit] the cursor is on it with count 0, and
    the next step does not go back to the start of the data: it loads the
    count 5 and leaves the cursor one byte further. *)
Lemma mode_bits_11_do_not_restart :
  iCount (reached (flash_of pSolidOdd) flash_pulse_palette PulseSketch 0 60 1)
  = 0
  /\ Z.land
       (u8 (flash_of pSolidOdd
              (pRLE (reached (flash_of pSolidOdd) flash_pulse_palette
                       PulseSketch 0 60 1))))
       MODE_MASK
     = MODE_END
  /\ Advance (flash_of pSolidOdd) flash_pulse_palette PulseSketch
       (reached (flash_of pSolidOdd) flash_pulse_palette PulseSketch 0 60 1)
     <> Advance (flash_of pSolidOdd) flash_pulse_palette PulseSketch
          (set_pRLE
             (reached (flash_of pSolidOdd) flash_pulse_palette PulseSketch
                0 60 1)
             0)
  /\ pRLE (Advance (flash_of pSolidOdd) flash_pulse_palette PulseSketch
             (reached (flash_of pSolidOdd) flash_pulse_palette PulseSketch
                0 60 1))
     = 3
  /\ iCount (Advance (flash_of pSolidOdd) flash_pulse_palette PulseSketch
               (reached (flash_of pSolidOdd) flash_pulse_palette PulseSketch
                  0 60 1))
     = 5.
Proof.
  vm_compute. repeat split; try reflexivity. intros Hc. discriminate Hc.
Qed.

(** ** The addresses a run of steps fetches *)

Section Fetches.

Variables (rle pal : Z -> Z) (sk : sketch).

Lemma step_reads_pack (x : LEDSTRING * Z) :
  fetched (LEDStep_body rle pal sk x) = step_reads rle pal sk (pack x).
Proof.
  destruct x as [st s]. unfold step_reads, pack. cbn [fst snd].
  change (pRLE (set_pRLE st s)) with s.
  rewrite LEDStep_body_pRLE. reflexivity.
Qed.

Lemma for_loop_fetched (P : Z -> Prop) (n : nat) (x : LEDSTRING * Z) :
  (forall i : nat, (i < n)%nat ->
     Forall P (step_reads rle pal sk
                 (Nat.iter i (Advance rle pal sk) (pack x)))) ->
  Forall P (fetched (for_loop n (LEDStep_body rle pal sk) x)).
Proof.
  revert x. induction n as [|n IH]; intros x H.
  - constructor.
  - cbn [for_loop]. rewrite fetched_bind. apply Forall_app. split.
    + rewrite step_reads_pack. apply (H 0%nat). lia.
    + apply IH. intros i Hi.
      specialize (H (S i) ltac:(lia)).
      rewrite Nat.iter_succ_r in H.
      destruct x as [st s].
      change (pack (st, s)) with (set_pRLE st s) in H.
      rewrite Advance_pack in H. exact H.
Qed.

(** Every address [LEDStep(st, n)] fetches is fetched by one of its single
    steps. *)
Lemma LEDStep_fetched (P : Z -> Prop) (st : LEDSTRING) (n : Z) :
  (forall i : nat,
     Forall P (step_reads rle pal sk (Nat.iter i (Advance rle pal sk) st))) ->
  Forall P (fetched (LEDStep rle pal sk st n)).
Proof.
  intros H. unfold LEDStep. rewrite fetched_bind. apply Forall_app. split.
  - apply for_loop_fetched. intros i _.
    unfold pack. cbn [fst snd]. rewrite set_pRLE_same. apply H.
  - destruct (val _) as [st1 s1]. constructor.
Qed.

End Fetches.

(** ** Well-formed programs: the cursor stays on opcode boundaries *)

Lemma nonempty_cons {A : Type} (l : list A) :
  l <> [] -> exists x rest, l = x :: rest.
Proof.
  destruct l as [|x rest]; intros H.
  - contradiction.
  - exists x, rest. reflexivity.
Qed.

Section Programs.

Variables (rle pal : Z -> Z) (sk : sketch).
Variables (start : Z) (ops : list opcode).

Hypothesis ops_nonempty : ops <> [].
Hypothesis ops_plain : forallb (plain_run sk) ops = true.
Hypothesis ops_stored : stored_at rle start (assemble ops).

Lemma code_bytes_app (l1 l2 : list opcode) :
  code_bytes (l1 ++ l2) = code_bytes l1 ++ code_bytes l2.
Proof. unfold code_bytes. rewrite map_app, concat_app. reflexivity. Qed.

Lemma code_bytes_cons (o : opcode) (l : list opcode) :
  code_bytes (o :: l) = encode o ++ code_bytes l.
Proof. reflexivity. Qed.

(** The opcode after the prefix [pre] is stored at its offset. *)
Lemma opcode_stored (pre post : list opcode) (o : opcode) :
  ops = pre ++ o :: post ->
  stored_at rle (start + Z.of_nat (length (code_bytes pre))) (encode o)
  /\ plain_run sk o = true
  /\ (length (code_bytes pre) + length (encode o) < length (assemble ops))%nat.
Proof.
  intros E. split; [|split].
  - pose proof ops_stored as H. unfold assemble in H.
    rewrite E, code_bytes_app, code_bytes_cons in H.
    rewrite <- !app_assoc in H.
    apply stored_at_app_r in H. apply stored_at_app_l in H. exact H.
  - pose proof ops_plain as H. rewrite forallb_forall in H.
    apply H. rewrite E. apply in_or_app. right. left. reflexivity.
  - unfold assemble. rewrite E, code_bytes_app, code_bytes_cons.
    rewrite !length_app. cbn [length]. lia.
Qed.

(** The byte after the last opcode is END. *)
Lemma end_stored :
  u8 (rle (start + Z.of_nat (length (code_bytes ops)))) = MODE_END.
Proof.
  pose proof ops_stored as H. unfold assemble in H.
  apply stored_at_app_r in H. apply stored_at_0 in H. rewrite H. reflexivity.
Qed.

(** One step from a boundary state fetches inside the buffer and leaves a
    boundary state. *)
Lemma at_boundary_step (st : LEDSTRING) :
  at_boundary start ops st ->
  at_boundary start ops (Advance rle pal sk st)
  /\ Forall (in_buffer start (length (assemble ops)))
       (step_reads rle pal sk st).
Proof.
  intros (Hs & Hc & pre & post & E & Hp).
  assert (Hf : pRLEStart (Advance rle pal sk st) = start).
  { pose proof (Advance_frame rle pal sk st) as F. unfold frame in F.
    injection F as _ F _ _ _ _ _ _. congruence. }
  destruct (Z.eq_dec (iCount st) 0) as [H0|Hpos].
  - (* a decoding step *)
    destruct post as [|o post].
    + (* the cursor is on the END byte: restart *)
      rewrite app_nil_r in E. subst pre.
      pose proof end_stored as HE. rewrite <- Hp in HE.
      assert (Ha : opcode_addr rle st (pRLE st) = start).
      { unfold opcode_addr. rewrite HE, Hs. reflexivity. }
      destruct (nonempty_cons ops ops_nonempty) as (o0 & rest & Eo).
      destruct (opcode_stored [] rest o0 Eo) as (So & Po & Lo).
      cbn [code_bytes map concat length Z.of_nat] in So, Lo.
      rewrite Z.add_0_r in So.
      destruct (plain_run_at rle sk o0 start Po So) as (_ & Hl & Hr & _).
      rewrite <- Ha in So.
      rewrite (decode_plain_run rle pal sk o0 st H0 So Po), Ha.
      destruct (load_fields pal sk o0 st
                  (start + Z.of_nat (length (encode o0))) Po)
        as (L1 & L2 & L3).
      split.
      * split; [|split].
        -- unfold frame in L3. injection L3 as _ F _ _ _ _ _ _. congruence.
        -- rewrite L1. exact Hl.
        -- exists [o0], rest. split; [exact Eo|].
           rewrite L2. cbn [code_bytes map concat]. rewrite app_nil_r.
           reflexivity.
      * rewrite (step_reads_decode rle pal sk st H0), HE, Ha.
        change (MODE_END =? MODE_END) with true. cbv iota.
        cbn [app]. constructor.
        -- unfold in_buffer. rewrite Hp.
           unfold assemble. rewrite length_app. cbn [length]. lia.
        -- rewrite Hs. eapply Forall_impl; [|exact Hr].
           intros x Hx. unfold in_buffer. cbv beta in Hx. lia.
    + (* the cursor is on an opcode *)
      destruct (opcode_stored pre post o E) as (So & Po & Lo).
      rewrite <- Hp in So.
      destruct (plain_run_at rle sk o (pRLE st) Po So)
        as (HE & Hl & Hr & _).
      pose proof (opcode_addr_here rle st HE) as Ha.
      rewrite <- Ha in So.
      rewrite (decode_plain_run rle pal sk o st H0 So Po), Ha.
      destruct (load_fields pal sk o st
                  (pRLE st + Z.of_nat (length (encode o))) Po)
        as (L1 & L2 & L3).
      split.
      * split; [|split].
        -- unfold frame in L3. injection L3 as _ F _ _ _ _ _ _. congruence.
        -- rewrite L1. exact Hl.
        -- exists (pre ++ [o]), post. split.
           ++ rewrite <- app_assoc. exact E.
           ++ rewrite L2, Hp, code_bytes_app, length_app.
              cbn [code_bytes map concat]. rewrite app_nil_r. lia.
      * rewrite (step_reads_decode rle pal sk st H0), Ha.
        destruct (u8 (rle (pRLE st)) =? MODE_END) eqn:E1.
        -- apply Z.eqb_eq in E1. contradiction.
        -- cbn [app]. eapply Forall_impl; [|exact Hr].
           intros x Hx. unfold in_buffer. cbv beta in Hx. lia.
  - (* continuation *)
    assert (Hgt : 0 < iCount st) by lia.
    split.
    + split; [exact Hf|]. split.
      * rewrite Advance_continue by exact Hgt.
        cbn [iCount set_iCount]. rewrite u8_small by lia. lia.
      * exists pre, post. split; [exact E|].
        rewrite Advance_continue by exact Hgt.
        destruct (lastOP st =? MODE_GRADIENT); exact Hp.
    + rewrite step_reads_continue by exact Hgt. constructor.
Qed.

Lemma at_boundary_iter (n : nat) (st : LEDSTRING) :
  at_boundary start ops st ->
  at_boundary start ops (Nat.iter n (Advance rle pal sk) st).
Proof.
  intros H. induction n as [|n IH].
  - exact H.
  - rewrite Nat.iter_succ. apply at_boundary_step. exact IH.
Qed.

Lemma pre_init_at_boundary (nleds : Z) :
  at_boundary start ops (pre_init start nleds).
Proof.
  split; [reflexivity|]. split; [cbn; lia|].
  exists [], ops. split; [reflexivity|].
  cbn. rewrite Z.add_0_r. reflexivity.
Qed.

(** The first opcode is not a PULSE and not the END byte, so [LEDInit] is the
    first decoding step. *)
Lemma LEDInit_of_program (nleds : Z) :
  val (LEDInit rle pal sk start nleds)
  = Advance rle pal sk (pre_init start nleds)
  /\ fetched (LEDInit rle pal sk start nleds)
     = step_reads rle pal sk (pre_init start nleds).
Proof.
  destruct (nonempty_cons ops ops_nonempty) as (o0 & rest & Eo).
  destruct (opcode_stored [] rest o0 Eo) as (So & Po & _).
  cbn [code_bytes map concat length Z.of_nat] in So.
  rewrite Z.add_0_r in So.
  destruct (plain_run_at rle sk o0 start Po So) as (HE & _ & _ & Hsk).
  destruct (LEDInit_first_step rle pal sk start nleds Hsk) as [H1 H2].
  split; [exact H1|]. apply H2. exact HE.
Qed.

End Programs.

(** C8, as the code has it. For a program made of at least one GAP, SIMPLE
    or GRADIENT opcode of the sketch, each complete with its parameter bytes,
    followed by the END byte, [LEDInit] and any number of steps of [LEDStep]
    fetch program bytes only at addresses inside the program buffer. *)
Theorem reads_stay_in_program :
  forall (rle pal : Z -> Z) (sk : sketch) (start nleds : Z)
         (ops : list opcode) (n : Z),
    ops <> [] ->
    forallb (plain_run sk) ops = true ->
    stored_at rle start (assemble ops) ->
    Forall (in_buffer start (length (assemble ops)))
      (fetched (st0 <- LEDInit rle pal sk start nleds ;;
                LEDStep rle pal sk st0 n)).
Proof.
  intros rle pal sk start nleds ops n Hne Hpl Hst.
  destruct (LEDInit_of_program rle pal sk start ops Hne Hpl Hst nleds)
    as [Hv Hf].
  pose proof (pre_init_at_boundary start ops nleds) as Hb.
  rewrite fetched_bind. apply Forall_app. split.
  - rewrite Hf.
    apply (at_boundary_step rle pal sk start ops Hne Hpl Hst). exact Hb.
  - apply LEDStep_fetched. intros i. rewrite Hv, <- Nat.iter_succ_r.
    apply (at_boundary_step rle pal sk start ops Hne Hpl Hst).
    apply (at_boundary_iter rle pal sk start ops Hne Hpl Hst). exact Hb.
Qed.

Lemma reads_stay_in_program_witness :
  assemble pDemo_ops = pDemo
  /\ Forall (in_buffer 0 (length (assemble pDemo_ops)))
       (fetched (st0 <- LEDInit (flash_of (assemble pDemo_ops))
                          flash_gap_palette GapSketch 0 60 ;;
                 LEDStep (flash_of (assemble pDemo_ops)) flash_gap_palette
                   GapSketch st0 1000)).
Proof.
  split; [reflexivity|].
  apply (reads_stay_in_program (flash_of (assemble pDemo_ops))
           flash_gap_palette GapSketch 0 60 pDemo_ops 1000).
  - discriminate.
  - reflexivity.
  - apply image_stored_at.
Defined.

(** C8 as stated fails for the program that is the END byte alone: [LEDInit]
    takes the END byte as the first opcode, and the first step fetches the
    byte after it. *)
Lemma end_alone_is_overrun :
  assemble [] = [MODE_END]
  /\ fetched (st0 <- LEDInit (flash_of (assemble [])) flash_gap_palette
                       GapSketch 0 60 ;;
              LEDStep (flash_of (assemble [])) flash_gap_palette GapSketch
                st0 1)
     = [0; 1]
  /\ ~ Forall (in_buffer 0 (length (assemble [])))
         (fetched (st0 <- LEDInit (flash_of (assemble [])) flash_gap_palette
                            GapSketch 0 60 ;;
                   LEDStep (flash_of (assemble [])) flash_gap_palette
                     GapSketch st0 1)).
Proof.
  split; [reflexivity|]. split; [reflexivity|].
  intros H. change (Forall (in_buffer 0 1) [0; 1]) in H.
  inversion H as [|x l _ H1]; subst. inversion H1 as [|y l' Hy _]; subst.
  unfold in_buffer in Hy. lia.
Qed.

(** ** Periodicity *)

Section Agreement.

Variables (rle pal : Z -> Z) (sk : sketch).

Lemma same_refl (x : LEDSTRING) : same_but_idle_deltas x x.
Proof. unfold same_but_idle_deltas. repeat split; reflexivity. Qed.

(** Two structures that agree up to idle deltas differ by an assignment of
    the deltas. *)
Lemma same_as_set_deltas (x y : LEDSTRING) :
  same_but_idle_deltas x y ->
  y = set_deltas x (dr y) (dg y) (db y)
  /\ (lastOP x = MODE_GRADIENT -> (dr x, dg x, db x) = (dr y, dg y, db y)).
Proof.
  intros (H1 & H2 & H3 & H4 & H5 & H6 & H7 & H8 & H9 & H10).
  split; [|exact H10].
  destruct x, y. unfold CurrentColor in H7. cbn in *.
  injection H7 as -> -> ->. injection H8 as -> -> ->.
  injection H9 as -> -> ->. subst. reflexivity.
Qed.

Lemma set_deltas_same (x : LEDSTRING) :
  set_deltas x (dr x) (dg x) (db x) = x.
Proof. destruct x; reflexivity. Qed.

Ltac same_by_fields :=
  cbv zeta; unfold same_but_idle_deltas, CurrentColor; step_fields;
  repeat split; try reflexivity;
  try (let Hc := fresh "Hc" in
       intros Hc; try reflexivity;
       unfold MODE_GAP, MODE_SIMPLE, MODE_GRADIENT, MODE_END in Hc;
       discriminate Hc).

(** A step preserves agreement up to idle deltas. *)
Lemma Advance_same (x y : LEDSTRING) :
  0 <= iCount x ->
  same_but_idle_deltas x y ->
  same_but_idle_deltas (Advance rle pal sk x) (Advance rle pal sk y).
Proof.
  intros Hc H. destruct (same_as_set_deltas x y H) as [Ey Hd].
  rewrite Ey. generalize (dr y) (dg y) (db y) Hd. clear Ey Hd H y.
  intros a b0 c Hd.
  destruct (Z.eq_dec (iCount x) 0) as [H0|Hpos].
  - (* decoding: the deltas are not read *)
    pose proof (mode_bits_cases
                  (u8 (rle (opcode_addr rle x (pRLE x)))) (u8_range _)) as Hm.
    assert (H0' : iCount (set_deltas x a b0 c) = 0) by exact H0.
    destruct Hm as [Hm|[Hm|[Hm|Hm]]].
    + rewrite (Advance_mode0 rle pal sk x H0 Hm).
      rewrite (Advance_mode0 rle pal sk (set_deltas x a b0 c) H0' Hm).
      destruct sk; same_by_fields.
    + rewrite (Advance_simple rle pal sk x H0 Hm).
      rewrite (Advance_simple rle pal sk (set_deltas x a b0 c) H0' Hm).
      same_by_fields.
    + rewrite (Advance_gradient rle pal sk x H0 Hm).
      rewrite (Advance_gradient rle pal sk (set_deltas x a b0 c) H0' Hm).
      same_by_fields.
    + rewrite (Advance_mode3 rle pal sk x H0 Hm).
      rewrite (Advance_mode3 rle pal sk (set_deltas x a b0 c) H0' Hm).
      same_by_fields.
  - (* continuation: the deltas are read in a gradient only *)
    assert (Hgt : 0 < iCount x) by lia.
    destruct (Z.eq_dec (lastOP x) MODE_GRADIENT) as [Hg|Hg].
    + specialize (Hd Hg). injection Hd as <- <- <-.
      rewrite set_deltas_same. apply same_refl.
    + rewrite (Advance_continue rle pal sk x Hgt).
      rewrite (Advance_continue rle pal sk (set_deltas x a b0 c) Hgt).
      step_fields.
      destruct (lastOP x =? MODE_GRADIENT) eqn:E.
      * apply Z.eqb_eq in E. contradiction.
      * unfold same_but_idle_deltas, CurrentColor. step_fields.
        repeat split; try reflexivity. intros Hc'. contradiction.
Qed.

Lemma load_same (o : opcode) (x y : LEDSTRING) (next : Z) :
  plain_run sk o = true ->
  frame x = frame y ->
  same_but_idle_deltas (load pal o x next) (load pal o y next).
Proof.
  intros Hp Hf. unfold frame in Hf.
  injection Hf as F1 F2 F3 F4 F5 F6 F7 F8 F9.
  destruct o; cbn [plain_run] in Hp; try discriminate Hp;
    unfold load, same_but_idle_deltas, CurrentColor; step_fields;
    repeat split; try congruence;
    intros Hc; unfold MODE_GAP, MODE_SIMPLE, MODE_GRADIENT in Hc;
    discriminate Hc.
Qed.

Lemma within_run_fields (st : LEDSTRING) (n : nat) :
  iCount (within_run st n) = iCount st - Z.of_nat n
  /\ pRLE (within_run st n) = pRLE st.
Proof.
  unfold within_run.
  destruct (lastOP st =? MODE_GRADIENT); split; reflexivity.
Qed.

End Agreement.

Section Period.

Variables (rle pal : Z -> Z) (sk : sketch).
Variables (start : Z) (ops : list opcode).

Hypothesis ops_nonempty : ops <> [].
Hypothesis ops_plain : forallb (plain_run sk) ops = true.
Hypothesis ops_stored : stored_at rle start (assemble ops).

(** From an opcode boundary with count zero, the runs of the remaining
    opcodes take the sum of their lengths and end on the END byte. *)
Lemma run_suffix (rest : list opcode) :
  forall (pre : list opcode) (st : LEDSTRING),
    ops = pre ++ rest ->
    iCount st = 0 ->
    pRLE st = start + Z.of_nat (length (code_bytes pre)) ->
    iCount (Nat.iter (period rest) (Advance rle pal sk) st) = 0
    /\ pRLE (Nat.iter (period rest) (Advance rle pal sk) st)
       = start + Z.of_nat (length (code_bytes ops)).
Proof.
  induction rest as [|o rest IH]; intros pre st E H0 Hp.
  - rewrite app_nil_r in E. subst pre. split; [exact H0|exact Hp].
  - destruct (opcode_stored rle sk start ops ops_plain ops_stored pre rest o E)
      as (So & Po & _).
    rewrite <- Hp in So.
    destruct (plain_run_at rle sk o (pRLE st) Po So) as (HE & Hl & _ & _).
    pose proof (opcode_addr_here rle st HE) as Ha.
    rewrite <- Ha in So.
    pose proof (decode_plain_run rle pal sk o st H0 So Po) as Hd.
    rewrite Ha in Hd.
    destruct (load_fields pal sk o st
                (pRLE st + Z.of_nat (length (encode o))) Po)
      as (L1 & L2 & _).
    cbn [period fold_right]. fold (period rest).
    rewrite Nat.add_comm, Nat.iter_add. unfold run_length.
    rewrite Nat.iter_succ_r, Hd.
    rewrite (iter_within_run rle pal sk (Z.to_nat (op_len o))
               (load pal o st (pRLE st + Z.of_nat (length (encode o)))))
      by (rewrite L1; lia).
    destruct (within_run_fields
                (load pal o st (pRLE st + Z.of_nat (length (encode o))))
                (Z.to_nat (op_len o))) as [W1 W2].
    apply (IH (pre ++ [o])).
    + rewrite <- app_assoc. exact E.
    + rewrite W1, L1. lia.
    + rewrite W2, L2, Hp, code_bytes_app, length_app.
      cbn [code_bytes map concat]. rewrite app_nil_r. lia.
Qed.

(** After one period the state agrees with the state after [LEDInit], up to
    idle deltas. *)
Lemma period_returns (nleds : Z) :
  same_but_idle_deltas
    (reached rle pal sk start nleds (Z.of_nat (period ops)))
    (reached rle pal sk start nleds 0).
Proof.
  destruct (LEDInit_of_program rle pal sk start ops
              ops_nonempty ops_plain ops_stored nleds) as [Hv _].
  unfold reached. rewrite !LEDStep_iter, Hv, Nat2Z.id.
  change (Z.to_nat 0) with 0%nat.
  change (Nat.iter 0 (Advance rle pal sk)
            (Advance rle pal sk (pre_init start nleds)))
    with (Advance rle pal sk (pre_init start nleds)).
  rewrite <- Nat.iter_succ_r, Nat.iter_succ.
  set (stE := Nat.iter (period ops) (Advance rle pal sk)
                (pre_init start nleds)).
  destruct (run_suffix ops [] (pre_init start nleds) eq_refl eq_refl)
    as [E0 Ep].
  { cbn. rewrite Z.add_0_r. reflexivity. }
  fold stE in E0, Ep.
  pose proof (iter_Advance_frame rle pal sk (period ops)
                (pre_init start nleds)) as Hf.
  fold stE in Hf.
  assert (Hs : pRLEStart stE = start).
  { unfold frame in Hf. injection Hf as _ F _ _ _ _ _ _. exact F. }
  pose proof (end_stored rle start ops ops_stored) as HE.
  rewrite <- Ep in HE.
  pose proof (opcode_addr_at_END rle stE HE) as Ha.
  destruct (nonempty_cons ops ops_nonempty) as (o0 & rest & Eo).
  destruct (opcode_stored rle sk start ops ops_plain ops_stored
              [] rest o0 Eo) as (So & Po & _).
  cbn [code_bytes map concat length Z.of_nat] in So.
  rewrite Z.add_0_r in So.
  destruct (plain_run_at rle sk o0 start Po So) as (HE0 & _ & _ & _).
  (* the step from the END byte decodes the first opcode *)
  assert (SoE : stored_at rle (opcode_addr rle stE (pRLE stE)) (encode o0))
    by (rewrite Ha, Hs; exact So).
  rewrite (decode_plain_run rle pal sk o0 stE E0 SoE Po), Ha, Hs.
  (* so does the first step of all *)
  assert (Ha0 : opcode_addr rle (pre_init start nleds)
                  (pRLE (pre_init start nleds)) = start).
  { apply (opcode_addr_here rle (pre_init start nleds)). exact HE0. }
  assert (So0 : stored_at rle
                  (opcode_addr rle (pre_init start nleds)
                     (pRLE (pre_init start nleds))) (encode o0))
    by (rewrite Ha0; exact So).
  rewrite (decode_plain_run rle pal sk o0 (pre_init start nleds)
             eq_refl So0 Po), Ha0.
  apply (load_same pal sk); assumption.
Qed.

Lemma reached_shift (nleds : Z) (n m : nat) :
  reached rle pal sk start nleds (Z.of_nat (n + m)) =
  Nat.iter n (Advance rle pal sk)
    (reached rle pal sk start nleds (Z.of_nat m)).
Proof.
  unfold reached. rewrite !LEDStep_iter, !Nat2Z.id.
  apply Nat.iter_add.
Qed.

Lemma iter_same (n : nat) (x y : LEDSTRING) :
  0 <= iCount x <= 63 ->
  same_but_idle_deltas x y ->
  same_but_idle_deltas (Nat.iter n (Advance rle pal sk) x)
                       (Nat.iter n (Advance rle pal sk) y)
  /\ 0 <= iCount (Nat.iter n (Advance rle pal sk) x) <= 63.
Proof.
  intros Hc H. induction n as [|n [IH1 IH2]].
  - split; assumption.
  - rewrite !Nat.iter_succ. split.
    + apply Advance_same; [lia|exact IH1].
    + rewrite Advance_count by exact IH2.
      destruct (0 <? iCount _) eqn:E.
      * apply Z.ltb_lt in E. lia.
      * apply length_bits_range.
Qed.

Lemma period_shift (nleds : Z) (n : nat) :
  same_but_idle_deltas
    (reached rle pal sk start nleds (Z.of_nat n + Z.of_nat (period ops)))
    (reached rle pal sk start nleds (Z.of_nat n)).
Proof.
  pose proof (reached_shift nleds n 0) as E.
  rewrite Nat.add_0_r in E. rewrite E. clear E.
  rewrite <- Nat2Z.inj_add, reached_shift.
  change (Z.of_nat 0) with 0.
  apply iter_same.
  - apply reached_count_range.
  - apply period_returns.
Qed.

End Period.

(** C4, as the code has it. For a program of GAP, SIMPLE or GRADIENT
    opcodes followed by the END byte, the state a number of steps equal to the
    sum of the run lengths after any reached state agrees with that state in
    the cursor, the count, the mode, the colour and every other field, except
    possibly in the stored deltas while the mode is not GRADIENT (they are
    read in a gradient only); so the colours shown are periodic, with the sum
    of the run lengths as period.  With [n = 0] this compares the state after
    one period with the state after [LEDInit]. *)
Theorem advance_is_periodic :
  forall (rle pal : Z -> Z) (sk : sketch) (start nleds : Z)
         (ops : list opcode) (n : Z),
    forallb (plain_run sk) ops = true ->
    stored_at rle start (assemble ops) ->
    0 <= n ->
    same_but_idle_deltas
      (reached rle pal sk start nleds (n + Z.of_nat (period ops)))
      (reached rle pal sk start nleds n)
    /\ CurrentColor (reached rle pal sk start nleds (n + Z.of_nat (period ops)))
       = CurrentColor (reached rle pal sk start nleds n).
Proof.
  intros rle pal sk start nleds ops n Hpl Hst Hn.
  assert (H : same_but_idle_deltas
                (reached rle pal sk start nleds (n + Z.of_nat (period ops)))
                (reached rle pal sk start nleds n)).
  { destruct ops as [|o rest].
    - cbn [period fold_right Z.of_nat]. rewrite Z.add_0_r. apply same_refl.
    - rewrite <- (Z2Nat.id n) by exact Hn.
      apply (period_shift rle pal sk start (o :: rest));
        [discriminate|exact Hpl|exact Hst]. }
  split; [exact H|].
  destruct H as (_ & _ & _ & _ & _ & _ & Hcol & _). exact Hcol.
Qed.

(** [pDemo] of the sketch with [MODE_GAP]: eight gradients of four pixels;
    the state 37 steps after [LEDInit] agrees with the state after 5. *)
Lemma advance_is_periodic_witness :
  period pDemo_ops = 32%nat
  /\ same_but_idle_deltas
       (reached (flash_of (assemble pDemo_ops)) flash_gap_palette GapSketch
          0 60 (5 + Z.of_nat (period pDemo_ops)))
       (reached (flash_of (assemble pDemo_ops)) flash_gap_palette GapSketch
          0 60 5)
  /\ CurrentColor
       (reached (flash_of (assemble pDemo_ops)) flash_gap_palette GapSketch
          0 60 (5 + Z.of_nat (period pDemo_ops)))
     = CurrentColor
         (reached (flash_of (assemble pDemo_ops)) flash_gap_palette GapSketch
            0 60 5).
Proof.
  split; [reflexivity|].
  apply (advance_is_periodic (flash_of (assemble pDemo_ops))
           flash_gap_palette GapSketch 0 60 pDemo_ops 5).
  - reflexivity.
  - apply image_stored_at.
  - lia.
Defined.

(** C4 as stated fails: in [SIMPLE|0 idx 0, GRADIENT|0 idx 1 (8,0,0), END]
    the sum of the run lengths is 2; [LEDInit] leaves the stored red delta 0,
    and two steps later the structure is back on the first opcode but still
    holds the delta 8 of the gradient. *)
Lemma stale_deltas_after_period :
  forallb (plain_run GapSketch) stale_ops = true
  /\ period stale_ops = 2%nat
  /\ dr (reached (flash_of (assemble stale_ops)) flash_gap_palette GapSketch
           0 60 0)
     = 0
  /\ dr (reached (flash_of (assemble stale_ops)) flash_gap_palette GapSketch
           0 60 (Z.of_nat (period stale_ops)))
     = 8
  /\ reached (flash_of (assemble stale_ops)) flash_gap_palette GapSketch
       0 60 (Z.of_nat (period stale_ops))
     <> reached (flash_of (assemble stale_ops)) flash_gap_palette GapSketch
          0 60 0.
Proof.
  vm_compute. repeat split; try reflexivity. intros Hc. discriminate Hc.
Qed.

(** ** LEDPulse *)

(** A pulse step writes the colour and the direction only. *)
Lemma LEDPulse_other_fields (st : LEDSTRING) :
  frame (set_iDir (LEDPulse st) (iDir st)) = frame st
  /\ (pRLE (LEDPulse st), iCount (LEDPulse st), lastOP (LEDPulse st))
     = (pRLE st, iCount st, lastOP st)
  /\ (dr (LEDPulse st), dg (LEDPulse st), db (LEDPulse st))
     = (dr st, dg st, db st).
Proof.
  unfold LEDPulse.
  repeat match goal with
         | |- context [if ?c then _ else _] => destruct c
         end;
    repeat split; reflexivity.
Qed.

(** X1. When a pulse step flips the direction, the colour it stores is the bound
    just reached: the end colour when it was going forward, the start colour
    otherwise. *)
Lemma LEDPulse_reversal_clamps (st : LEDSTRING) :
  iDir (LEDPulse st) <> iDir st ->
  if iDir st =? 0
  then CurrentColor (LEDPulse st) = (u8 (er st), u8 (eg st), u8 (eb st))
       /\ iDir (LEDPulse st) = 1
  else CurrentColor (LEDPulse st) = (u8 (sr st), u8 (sg st), u8 (sb st))
       /\ iDir (LEDPulse st) = 0.
Proof.
  unfold LEDPulse.
  destruct (iDir st =? 0) eqn:Ed;
    repeat match goal with
           | |- context [if ?c then _ else _] => destruct c
           end;
    cbn [negb iDir set_rgb set_iDir]; intros H;
    try (exfalso; apply H; reflexivity);
    split; reflexivity.
Qed.

Lemma LEDPulse_reversal_clamps_witness :
  if iDir (pulse_state pBlueUp 1) =? 0
  then CurrentColor (LEDPulse (pulse_state pBlueUp 1))
       = (u8 (er (pulse_state pBlueUp 1)), u8 (eg (pulse_state pBlueUp 1)),
          u8 (eb (pulse_state pBlueUp 1)))
       /\ iDir (LEDPulse (pulse_state pBlueUp 1)) = 1
  else CurrentColor (LEDPulse (pulse_state pBlueUp 1))
       = (u8 (sr (pulse_state pBlueUp 1)), u8 (sg (pulse_state pBlueUp 1)),
          u8 (sb (pulse_state pBlueUp 1)))
       /\ iDir (LEDPulse (pulse_state pBlueUp 1)) = 0.
Proof.
  apply (LEDPulse_reversal_clamps (pulse_state pBlueUp 1)).
  vm_compute. discriminate.
Defined.


(** C2 on the code. After [LEDInit] on [pBlueUp] (blue from 0 to 16 by 1)
    the first pulse step moves blue to 1; at the second the candidate blue is
    2 and no channel's candidate has passed its bound, yet the blue test
    [b > (eb || b < sb)] compares with 1: the direction flips and the colour
    jumps to the end bound. *)
Lemma LEDPulse_blue_test_reverses_early :
  CurrentColor (pulse_state pBlueUp 0) = (0, 0, 0)
  /\ (sb (pulse_state pBlueUp 0), eb (pulse_state pBlueUp 0),
      db (pulse_state pBlueUp 0)) = (0, 16, 1)
  /\ CurrentColor (pulse_state pBlueUp 1) = (0, 0, 1)
  /\ iDir (pulse_state pBlueUp 1) = 0
  /\ passes_bound (sr (pulse_state pBlueUp 1)) (er (pulse_state pBlueUp 1))
       (r (pulse_state pBlueUp 1) + dr (pulse_state pBlueUp 1)) = false
  /\ passes_bound (sg (pulse_state pBlueUp 1)) (eg (pulse_state pBlueUp 1))
       (g (pulse_state pBlueUp 1) + dg (pulse_state pBlueUp 1)) = false
  /\ passes_bound (sb (pulse_state pBlueUp 1)) (eb (pulse_state pBlueUp 1))
       (b (pulse_state pBlueUp 1) + db (pulse_state pBlueUp 1)) = false
  /\ CurrentColor (pulse_state pBlueUp 2) = (0, 0, 16)
  /\ iDir (pulse_state pBlueUp 2) = 1.
Proof. vm_compute. repeat split; reflexivity. Qed.

(** ** PULSE opcodes and LEDStep *)

(** C6 on the code. [LEDInit] decodes the PULSE opcode of [pPulse10]: start
    colour, deltas, end colour, direction, cursor past the nine parameter
    bytes.  After one pulse step and 59 steps of [LEDStep] the count is 0 and
    the next step decodes the same opcode again (through the END byte): it
    loads the count 59 and the mode only, leaves the colour at (1, 63, 64)
    instead of the start bound (0, 64, 64), and leaves the cursor on the first
    parameter byte.  Later steps take the parameter bytes for opcodes, and
    the 191st step after [LEDInit] fetches address 11, past the 11 bytes of
    the program. *)
Lemma LEDStep_does_not_decode_pulse :
  assemble [pPulse10_op] = pPulse10
  /\ init_state PulseSketch flash_pulse_palette pPulse10
     = load flash_pulse_palette pPulse10_op (pre_init 0 60) 10
  /\ iCount pPulse10_run_out = 0
  /\ opcode_addr (flash_of pPulse10) pPulse10_run_out (pRLE pPulse10_run_out)
     = 0
  /\ Z.land (u8 (flash_of pPulse10 0)) MODE_MASK = MODE_PULSE
  /\ (sr pPulse10_run_out, sg pPulse10_run_out, sb pPulse10_run_out)
     = (0, 64, 64)
  /\ CurrentColor pPulse10_run_out = (1, 63, 64)
  /\ CurrentColor
       (Advance (flash_of pPulse10) flash_pulse_palette PulseSketch
          pPulse10_run_out)
     = (1, 63, 64)
  /\ pRLE (Advance (flash_of pPulse10) flash_pulse_palette PulseSketch
             pPulse10_run_out)
     = 1
  /\ iCount (Advance (flash_of pPulse10) flash_pulse_palette PulseSketch
               pPulse10_run_out)
     = 59
  /\ In 11 (fetched (LEDStep (flash_of pPulse10) flash_pulse_palette
                       PulseSketch
                       (init_state PulseSketch flash_pulse_palette pPulse10)
                       191))
  /\ length pPulse10 = 11%nat.
Proof.
  vm_compute. repeat split; try reflexivity.
  repeat (try (left; reflexivity); right).
Qed.

(** * Further properties of the two sketches *)

(** ** The serializer *)

Lemma beq_bits_eq (l1 l2 : list bool) : beq_bits l1 l2 = true -> l1 = l2.
Proof.
  revert l2. induction l1 as [|x r1 IH]; intros [|y r2] H;
    try discriminate H; [reflexivity|].
  cbn [beq_bits] in H. apply andb_prop in H. destruct H as [H1 H2].
  apply eqb_prop in H1. subst y. f_equal. apply IH. exact H2.
Qed.

Lemma sendByte_loop_length (n : nat) (b : Z) :
  length (sendByte_loop n b) = n.
Proof.
  revert b. induction n as [|n IH]; intros b.
  - reflexivity.
  - cbn [sendByte_loop length]. rewrite IH. reflexivity.
Qed.

Lemma sendByte_loop_patterns (n : nat) (b : Z) :
  Forall (fun x => x = 0xfc \/ x = 0xe0) (sendByte_loop n b).
Proof.
  revert b. induction n as [|n IH]; intros b.
  - constructor.
  - cbn [sendByte_loop]. constructor; [|apply IH].
    destruct (negb _); auto.
Qed.

Lemma sendByte_loop_bits (x : Z) :
  0 <= x < 256 ->
  spi_decode (sendByte_loop 8 x) = x
  /\ map (fun t => t =? 0xfc) (sendByte_loop 8 x) = bits_msb_first x.
Proof.
  intros Hx.
  pose proof (byte_cases
    (fun x => (spi_decode (sendByte_loop 8 x) =? x)
              && beq_bits (map (fun t => t =? 0xfc) (sendByte_loop 8 x))
                   (bits_msb_first x))
    ltac:(vm_compute; reflexivity) x Hx) as H.
  cbv beta in H. apply andb_prop in H. destruct H as [H1 H2].
  split; [apply Z.eqb_eq; exact H1|apply beq_bits_eq; exact H2].
Qed.

(** X2. The SPI version of [sendByte] transfers eight bytes, each [0xfc] or
    [0xe0], one for each bit of the byte from bit 7 down to bit 0, [0xfc]
    standing for a 1; reading the bits back gives the byte. *)
Theorem sendByte_round_trip :
  forall b : Z,
    length (sendByte b) = 8%nat
    /\ Forall (fun x => x = 0xfc \/ x = 0xe0) (sendByte b)
    /\ map (fun x => x =? 0xfc) (sendByte b) = bits_msb_first (u8 b)
    /\ spi_decode (sendByte b) = u8 b.
Proof.
  intros b. unfold sendByte.
  destruct (sendByte_loop_bits (u8 b) (u8_range b)) as [H1 H2].
  split; [apply sendByte_loop_length|].
  split; [apply sendByte_loop_patterns|].
  split; assumption.
Qed.

Lemma firstn_app_len {A : Type} (n : nat) (l1 l2 : list A) :
  length l1 = n -> firstn n (l1 ++ l2) = l1.
Proof.
  intros <-. induction l1 as [|x l1 IH]; [destruct l2; reflexivity|].
  cbn [length app firstn]. rewrite IH. reflexivity.
Qed.

Lemma skipn_app_len {A : Type} (n : nat) (l1 l2 : list A) :
  length l1 = n -> skipn n (l1 ++ l2) = l2.
Proof.
  intros <-. induction l1 as [|x l1 IH]; [reflexivity|]. exact IH.
Qed.

Lemma sendByte_length (b : Z) : length (sendByte b) = 8%nat.
Proof. apply sendByte_loop_length. Qed.

Lemma spi_decode_sendByte (b : Z) : spi_decode (sendByte b) = u8 b.
Proof. apply (sendByte_loop_bits (u8 b) (u8_range b)). Qed.

Lemma LEDSendColor_length (vr vg vb : Z) :
  length (LEDSendColor vr vg vb) = 24%nat.
Proof.
  unfold LEDSendColor. rewrite !length_app, !sendByte_length. reflexivity.
Qed.

Lemma LEDSendColor_parts (vr vg vb : Z) :
  firstn 8 (LEDSendColor vr vg vb) = sendByte vg
  /\ firstn 8 (skipn 8 (LEDSendColor vr vg vb)) = sendByte vr
  /\ skipn 16 (LEDSendColor vr vg vb) = sendByte vb.
Proof.
  unfold LEDSendColor. split; [|split].
  - apply firstn_app_len, sendByte_length.
  - rewrite skipn_app_len by apply sendByte_length.
    apply firstn_app_len, sendByte_length.
  - rewrite app_assoc. apply skipn_app_len.
    rewrite length_app, !sendByte_length. reflexivity.
Qed.

Lemma wire_color_LEDSendColor (vr vg vb : Z) (rest : list Z) :
  wire_color (firstn 24 (LEDSendColor vr vg vb ++ rest))
  = (u8 vr, u8 vg, u8 vb).
Proof.
  rewrite firstn_app_len by apply LEDSendColor_length.
  destruct (LEDSendColor_parts vr vg vb) as (H1 & H2 & H3).
  unfold wire_color. rewrite H1, H2, H3.
  rewrite firstn_all2 by (rewrite sendByte_length; lia).
  rewrite !spi_decode_sendByte. reflexivity.
Qed.

(** X3. [LEDSendColor(r, g, b)] puts 24 bit patterns on the wire: the eight of
    green first, then those of red, then those of blue; decoding them gives
    the three bytes back. *)
Theorem LEDSendColor_wire_order :
  forall vr vg vb : Z,
    length (LEDSendColor vr vg vb) = 24%nat
    /\ firstn 8 (LEDSendColor vr vg vb) = sendByte vg
    /\ firstn 8 (skipn 8 (LEDSendColor vr vg vb)) = sendByte vr
    /\ skipn 16 (LEDSendColor vr vg vb) = sendByte vb
    /\ wire_color (LEDSendColor vr vg vb) = (u8 vr, u8 vg, u8 vb).
Proof.
  intros vr vg vb.
  destruct (LEDSendColor_parts vr vg vb) as (H1 & H2 & H3).
  split; [apply LEDSendColor_length|].
  split; [exact H1|]. split; [exact H2|]. split; [exact H3|].
  pose proof (wire_color_LEDSendColor vr vg vb []) as H.
  rewrite app_nil_r in H.
  rewrite firstn_all2 in H by (rewrite LEDSendColor_length; lia).
  exact H.
Qed.

(** The colours of a frame, as the modules latch them. *)
Lemma wire_colors_flat_map (cs : list color) :
  wire_colors (length cs)
    (flat_map (fun c : color => let '(vr, vg, vb) := c in
                                LEDSendColor vr vg vb) cs)
  = map (fun c : color => let '(vr, vg, vb) := c in (u8 vr, u8 vg, u8 vb)) cs
  /\ length (flat_map (fun c : color => let '(vr, vg, vb) := c in
                                        LEDSendColor vr vg vb) cs)
     = (24 * length cs)%nat.
Proof.
  induction cs as [|[[vr vg] vb] cs [IH1 IH2]]; [split; reflexivity|].
  cbn [flat_map length wire_colors map]. split.
  - rewrite wire_color_LEDSendColor.
    rewrite skipn_app_len by apply LEDSendColor_length.
    rewrite IH1. reflexivity.
  - rewrite length_app, LEDSendColor_length, IH2. lia.
Qed.

Section Wire.
Variables (rle pal : Z -> Z) (sk : sketch).

Lemma emitted_iterates (st : LEDSTRING) :
  emitted rle pal sk st
  = map (fun i => CurrentColor (Nat.iter i (Advance rle pal sk) st))
        (seq 0 (Z.to_nat (iLen st))).
Proof.
  unfold emitted, LEDShow. rewrite val_bind, for_loop_val.
  rewrite LEDShow_loop. reflexivity.
Qed.

Lemma emitted_length (st : LEDSTRING) :
  length (emitted rle pal sk st) = Z.to_nat (iLen st).
Proof. rewrite emitted_iterates, length_map, length_seq. reflexivity. Qed.

End Wire.

(** X4. The wire data of a frame of [LEDShow] is 24 bit patterns for each of the
    [iLen] pixels, and decodes, pixel by pixel, to the colours [LEDShow]
    sent. *)
Theorem frame_wire_carries_frame :
  forall (rle pal : Z -> Z) (sk : sketch) (st : LEDSTRING),
    length (frame_wire rle pal sk st) = (24 * Z.to_nat (iLen st))%nat
    /\ wire_colors (Z.to_nat (iLen st)) (frame_wire rle pal sk st)
       = map (fun c : color =>
                let '(vr, vg, vb) := c in (u8 vr, u8 vg, u8 vb))
             (emitted rle pal sk st).
Proof.
  intros rle pal sk st. unfold frame_wire.
  destruct (wire_colors_flat_map (emitted rle pal sk st)) as [H1 H2].
  rewrite emitted_length in H1, H2. split; assumption.
Qed.


(** ** The bit-banged sendByte *)

Lemma u8_land (x : Z) : u8 x = Z.land x 255.
Proof.
  unfold u8. change 255 with (Z.ones 8). rewrite Z.land_ones by lia.
  reflexivity.
Qed.

Ltac bitwise :=
  apply Z.bits_inj'; intros n Hn;
  repeat first [rewrite Z.land_spec | rewrite Z.lor_spec
                | rewrite Z.lnot_spec by exact Hn];
  repeat match goal with
         | |- context [Z.testbit ?x n] =>
             let t := fresh "t" in
             generalize (Z.testbit x n); intros t
         end;
  repeat match goal with t : bool |- _ => destruct t end;
  reflexivity.

Lemma bitClear_bitSet (p k : Z) : bitClear (bitSet p k) k = bitClear p k.
Proof. unfold bitClear, bitSet. rewrite !u8_land. bitwise. Qed.

Lemma bitSet_bitClear (p k : Z) : bitSet (bitClear p k) k = bitSet p k.
Proof. unfold bitClear, bitSet. rewrite !u8_land. bitwise. Qed.

Lemma bitClear_idem (p k : Z) : bitClear (bitClear p k) k = bitClear p k.
Proof. unfold bitClear. rewrite !u8_land. bitwise. Qed.

Section Attiny.

Variable sk : sketch.

(** The pin goes up and down once per bit; no other bit of the port is
    written differently. *)
Lemma attiny85_loop_port (n : nat) (b port : Z) :
  port_writes (fst (sendByte_attiny85_loop sk n b port))
  = concat (repeat [bitSet port (LED_BIT sk); bitClear port (LED_BIT sk)] n)
  /\ (n <> 0%nat ->
      snd (sendByte_attiny85_loop sk n b port) = bitClear port (LED_BIT sk)).
Proof.
  revert b port. induction n as [|n IH]; intros b port.
  - split; [reflexivity|intros H; contradiction].
  - cbn [sendByte_attiny85_loop fst snd repeat concat].
    destruct (IH (u8 (Z.shiftl b 1))
                (bitClear (bitSet port (LED_BIT sk)) (LED_BIT sk)))
      as [IH1 IH2].
    split.
    + unfold port_writes in *.
      destruct (negb _); cbn [app flat_map]; rewrite IH1;
        rewrite !bitClear_bitSet, !bitSet_bitClear, !bitClear_idem;
        reflexivity.
    + intros _. destruct n as [|n'].
      * cbn. apply bitClear_bitSet.
      * rewrite IH2 by discriminate. rewrite bitClear_idem.
        apply bitClear_bitSet.
Qed.

Lemma attiny85_loop_high_times (n : nat) (b port : Z) :
  high_times (fst (sendByte_attiny85_loop sk n b port))
  = map (fun x => if x =? 0xfc then LONG_DELAY else SHORT_DELAY sk)
        (sendByte_loop n b).
Proof.
  revert b port. induction n as [|n IH]; intros b port.
  - reflexivity.
  - cbn [sendByte_attiny85_loop sendByte_loop fst map].
    destruct (negb (Z.land b 128 =? 0)); cbn [app high_times];
      rewrite IH; reflexivity.
Qed.


End Attiny.

(** X5. The bit-banged [sendByte] raises and lowers the LED pin eight times,
    leaves it low, and changes no other bit of the port. *)
Theorem sendByte_attiny85_pin :
  forall (sk : sketch) (b port : Z),
    port_writes (fst (sendByte_attiny85 sk b port))
    = concat (repeat [bitSet port (LED_BIT sk); bitClear port (LED_BIT sk)] 8)
    /\ snd (sendByte_attiny85 sk b port) = bitClear port (LED_BIT sk)
    /\ Forall (fun v => bitClear v (LED_BIT sk) = bitClear port (LED_BIT sk))
         (port_writes (fst (sendByte_attiny85 sk b port))).
Proof.
  intros sk b port. unfold sendByte_attiny85.
  destruct (attiny85_loop_port sk 8 (u8 b) port) as [H1 H2].
  split; [exact H1|]. split; [apply H2; discriminate|].
  rewrite H1. cbn [repeat concat app].
  repeat constructor;
    first [apply bitClear_bitSet | apply bitClear_idem].
Qed.

(** X6. The bit-banged [sendByte] holds the pin high for [LONG_DELAY] for a 1
    bit and for [SHORT_DELAY] for a 0 bit, bit 7 first: it sends the bits
    the SPI version sends. *)
Theorem sendByte_attiny85_same_bits :
  forall (sk : sketch) (b port : Z),
    high_times (fst (sendByte_attiny85 sk b port))
    = map (fun bit : bool => if bit then LONG_DELAY else SHORT_DELAY sk)
        (bits_msb_first (u8 b))
    /\ map (fun d => d =? LONG_DELAY)
         (high_times (fst (sendByte_attiny85 sk b port)))
       = bits_msb_first (u8 b)
    /\ map (fun d => d =? LONG_DELAY)
         (high_times (fst (sendByte_attiny85 sk b port)))
       = map (fun x => x =? 0xfc) (sendByte b).
Proof.
  intros sk b port.
  destruct (sendByte_loop_bits (u8 b) (u8_range b)) as [_ Hb].
  assert (H : high_times (fst (sendByte_attiny85 sk b port))
              = map (fun bit : bool =>
                       if bit then LONG_DELAY else SHORT_DELAY sk)
                  (bits_msb_first (u8 b))).
  { unfold sendByte_attiny85.
    rewrite attiny85_loop_high_times, <- Hb, map_map. reflexivity. }
  assert (E : map (fun d => d =? LONG_DELAY)
                (high_times (fst (sendByte_attiny85 sk b port)))
              = bits_msb_first (u8 b)).
  { rewrite H, map_map. rewrite <- (map_id (bits_msb_first (u8 b))) at 2.
    apply map_ext. intros [|]; destruct sk; reflexivity. }
  split; [exact H|]. split; [exact E|].
  rewrite E. unfold sendByte. symmetry. exact Hb.
Qed.



(** ** LEDStream *)

(** The addresses [a, a + 1, ..] of [n] consecutive bytes. *)
Lemma seq_addresses (a : Z) (n : nat) :
  map (fun i => a + Z.of_nat i) (seq 0 (S n))
  = a :: map (fun i => a + 1 + Z.of_nat i) (seq 0 n).
Proof.
  cbn [seq map]. rewrite Z.add_0_r. f_equal.
  rewrite <- seq_shift, map_map. apply map_ext. intros i. lia.
Qed.

(** X8. A stream of bytes with a non-zero low nibble, closed by one with a zero
    low nibble and stored at [s]: [LEDStream] reads exactly these bytes, sends
    for each its black pixels and then its coloured pixels, and ends on the
    closing byte, not before. *)
Theorem LEDStream_reads_to_terminator :
  forall (rle : Z -> Z) (vr vg vb s t : Z) (l : list Z) (fuel : nat),
    stored_at rle s (l ++ [t]) ->
    Forall (fun x => is_byte x = true /\ Z.land x 0xf <> 0) l ->
    is_byte t = true ->
    Z.land t 0xf = 0 ->
    LEDStream fuel rle s vr vg vb =
    if (length l <? fuel)%nat
    then Some (flat_map (stream_pixels (u8 vr, u8 vg, u8 vb)) (l ++ [t]),
               map (fun i => s + Z.of_nat i) (seq 0 (S (length l))))
    else None.
Proof.
  intros rle vr vg vb s t l. revert s t.
  induction l as [|x l IH]; intros s t fuel Hs Hl Ht Ht0.
  - cbn [app length] in *. destruct fuel as [|fuel]; [reflexivity|].
    change (0 <? S fuel)%nat with true. cbv iota.
    cbn [LEDStream]. rewrite (stored_at_0 _ _ _ _ Hs), (is_byte_u8 t Ht).
    rewrite Ht0. change (0 =? 0) with true. cbv iota.
    cbn [flat_map seq map]. rewrite Z.add_0_r.
    unfold stream_pixels. rewrite Ht0.
    change (Z.to_nat 0) with 0%nat. cbn [repeat]. rewrite !app_nil_r.
    reflexivity.
  - cbn [app length] in *. inversion Hl as [|y l' [Hx Hx0] Hl']; subst.
    destruct fuel as [|fuel]; [reflexivity|].
    change (S (length l) <? S fuel)%nat with (length l <? fuel)%nat.
    cbn [LEDStream]. rewrite (stored_at_0 _ _ _ _ Hs), (is_byte_u8 x Hx).
    destruct (Z.land x 15 =? 0) eqn:E;
      [apply Z.eqb_eq in E; contradiction|].
    rewrite (IH (s + 1) t fuel (stored_at_tail _ _ _ _ Hs) Hl' Ht Ht0).
    destruct (length l <? fuel)%nat; [|reflexivity].
    rewrite (seq_addresses s (S (length l))).
    cbn [flat_map]. unfold stream_pixels at 2. reflexivity.
Qed.

Lemma LEDStream_reads_to_terminator_witness :
  LEDStream 5 flash_stream_example 4 0x10 0 0 =
  Some ([(0, 0, 0); (0x10, 0, 0); (0x10, 0, 0);
         (0x10, 0, 0); (0x10, 0, 0); (0x10, 0, 0);
         (0, 0, 0); (0, 0, 0)],
        [4; 5; 6]).
Proof.
  apply (LEDStream_reads_to_terminator flash_stream_example 0x10 0 0 4 0x20
           [0x12; 0x03] 5).
  - apply image_stored_at.
  - repeat constructor; discriminate.
  - reflexivity.
  - reflexivity.
Defined.

(** X9. Whenever [LEDStream] returns, every pixel it sent is black or of the
    colour it was passed, the bytes it read are consecutive from [pStream]
    on, and the last of them has a zero low nibble. *)
Theorem LEDStream_when_it_returns :
  forall (rle : Z -> Z) (vr vg vb s : Z) (fuel : nat)
         (out : list color) (reads : list Z),
    LEDStream fuel rle s vr vg vb = Some (out, reads) ->
    Forall (fun c => c = (0, 0, 0) \/ c = (u8 vr, u8 vg, u8 vb)) out
    /\ reads = map (fun i => s + Z.of_nat i) (seq 0 (length reads))
    /\ Z.land (u8 (rle (s + Z.of_nat (length reads) - 1))) 0xf = 0.
Proof.
  intros rle vr vg vb s fuel. revert s.
  induction fuel as [|fuel IH]; intros s out reads H; [discriminate H|].
  cbn [LEDStream] in H.
  assert (Hp : Forall (fun c => c = (0, 0, 0) \/ c = (u8 vr, u8 vg, u8 vb))
                 (repeat (0, 0, 0) (Z.to_nat (Z.shiftr (u8 (rle s)) 4))
                  ++ repeat (u8 vr, u8 vg, u8 vb)
                       (Z.to_nat (Z.land (u8 (rle s)) 15)))).
  { apply Forall_app. split; apply Forall_forall; intros c Hc;
      apply repeat_spec in Hc; auto. }
  destruct (Z.land (u8 (rle s)) 15 =? 0) eqn:E.
  - injection H as <- <-. split; [exact Hp|]. split.
    + cbn. rewrite Z.add_0_r. reflexivity.
    + change (Z.of_nat (length [s])) with 1.
      replace (s + 1 - 1) with s by lia.
      apply Z.eqb_eq. exact E.
  - destruct (LEDStream fuel rle (s + 1) vr vg vb) as [[o l]|] eqn:E1;
      [|discriminate H].
    injection H as <- <-.
    destruct (IH (s + 1) o l E1) as (H1 & H2 & H3).
    split; [apply Forall_app; split; assumption|]. split.
    + cbn [length]. rewrite seq_addresses. f_equal. exact H2.
    + cbn [length]. rewrite Nat2Z.inj_succ.
      replace (s + Z.succ (Z.of_nat (length l)) - 1)
        with (s + 1 + Z.of_nat (length l) - 1) by lia.
      exact H3.
Qed.

Lemma LEDStream_when_it_returns_witness :
  Forall (fun c => c = (0, 0, 0) \/ c = (u8 0x10, u8 0, u8 0))
    [(0, 0, 0); (0x10, 0, 0); (0x10, 0, 0);
     (0x10, 0, 0); (0x10, 0, 0); (0x10, 0, 0);
     (0, 0, 0); (0, 0, 0)]
  /\ [4; 5; 6] = map (fun i => 4 + Z.of_nat i) (seq 0 (length [4; 5; 6]))
  /\ Z.land (u8 (flash_stream_example
                   (4 + Z.of_nat (length [4; 5; 6]) - 1))) 0xf = 0.
Proof.
  apply (LEDStream_when_it_returns flash_stream_example 0x10 0 0 4 5).
  reflexivity.
Defined.

(** ** LEDStreamList *)

(** X10. [LEDStreamList] plays the streams of the pointer array in order, up to
    the first null pointer; what follows the null pointer is not used. *)
Theorem LEDStreamList_stops_at_null :
  forall (rle : Z -> Z) (vr vg vb : Z) (fuel : nat)
         (ps junk : list Z) (outs : list (list color)),
    Forall2 (fun p o => p <> 0
                        /\ exists l, LEDStream fuel rle p vr vg vb
                                     = Some (o, l)) ps outs ->
    LEDStreamList fuel rle (ps ++ 0 :: junk) vr vg vb = Some (concat outs).
Proof.
  intros rle vr vg vb fuel ps junk outs H.
  induction H as [|p o ps outs [Hp [l Hl]] _ IH].
  - reflexivity.
  - cbn [app LEDStreamList concat].
    destruct (p =? 0) eqn:E; [apply Z.eqb_eq in E; contradiction|].
    rewrite Hl, IH. reflexivity.
Qed.

Lemma LEDStreamList_stops_at_null_witness :
  LEDStreamList 5 flash_stream_example ([4; 5] ++ 0 :: [6]) 0x10 0 0
  = Some (concat [[(0, 0, 0); (0x10, 0, 0); (0x10, 0, 0);
                   (0x10, 0, 0); (0x10, 0, 0); (0x10, 0, 0);
                   (0, 0, 0); (0, 0, 0)];
                  [(0x10, 0, 0); (0x10, 0, 0); (0x10, 0, 0);
                   (0, 0, 0); (0, 0, 0)]]).
Proof.
  apply (LEDStreamList_stops_at_null flash_stream_example 0x10 0 0 5).
  repeat constructor.
  - discriminate.
  - exists [4; 5; 6]. reflexivity.
  - discriminate.
  - exists [5; 6]. reflexivity.
Defined.

(** ** GetButtons *)

Lemma GetButtons_bits (old reads : Z * Z) :
  Z.testbit (fst (GetButtons old reads)) 0
  = ((u8 (fst reads) =? LOW) && (fst old =? HIGH))
  /\ Z.testbit (fst (GetButtons old reads)) 1
     = ((u8 (snd reads) =? LOW) && (snd old =? HIGH))
  /\ 0 <= fst (GetButtons old reads) <= 3
  /\ snd (GetButtons old reads) = (u8 (fst reads), u8 (snd reads)).
Proof.
  destruct old as [o0 o1]. unfold GetButtons. cbn [fst snd].
  destruct ((u8 (fst reads) =? LOW) && (o0 =? HIGH));
    destruct ((u8 (snd reads) =? LOW) && (o1 =? HIGH));
    cbn; repeat split; try reflexivity; lia.
Qed.

Lemma poll_bits (reads : list (Z * Z)) :
  forall old : Z * Z,
    map (fun x => Z.testbit x 0) (poll old reads)
    = falling_edges (fst old) (map (fun x => u8 (fst x)) reads)
    /\ map (fun x => Z.testbit x 1) (poll old reads)
       = falling_edges (snd old) (map (fun x => u8 (snd x)) reads)
    /\ Forall (fun x => 0 <= x <= 3) (poll old reads).
Proof.
  induction reads as [|x reads IH]; intros old.
  - repeat split; constructor.
  - cbn [poll map falling_edges].
    destruct (GetButtons_bits old x) as (B0 & B1 & B2 & B3).
    destruct (IH (snd (GetButtons old x))) as (I0 & I1 & I2).
    split; [|split].
    + rewrite B0, I0, B3. reflexivity.
    + rewrite B1, I1, B3. reflexivity.
    + constructor; assumption.
Qed.

(** X11. Over any sequence of pin readings, [GetButtons] sets bit 0 (bit 1) of
    its result exactly at the readings where button 0 (button 1) is [LOW]
    and was [HIGH] at the call before; no other bit is ever set. *)
Theorem poll_reports_falling_edges :
  forall (reads : list (Z * Z)) (old : Z * Z),
    map (fun x => Z.testbit x 0) (poll old reads)
    = falling_edges (fst old) (map (fun x => u8 (fst x)) reads)
    /\ map (fun x => Z.testbit x 1) (poll old reads)
       = falling_edges (snd old) (map (fun x => u8 (snd x)) reads)
    /\ Forall (fun x => 0 <= x <= 3) (poll old reads).
Proof. intros reads old. apply poll_bits. Qed.

Lemma falling_edges_no_repeat (levels : list Z) (prev : Z) :
  no_repeat (falling_edges prev levels) = true.
Proof.
  revert prev. induction levels as [|x levels IH]; intros prev.
  - reflexivity.
  - cbn [falling_edges]. destruct levels as [|y levels]; [reflexivity|].
    specialize (IH x). cbn [falling_edges] in *.
    cbn [no_repeat] in *. rewrite IH.
    destruct (x =? LOW) eqn:E.
    + apply Z.eqb_eq in E. subst x.
      change (LOW =? HIGH) with false. rewrite !andb_false_r.
      reflexivity.
    + reflexivity.
Qed.

(** X12. A button held down is reported by one call only: no two consecutive
    calls of [GetButtons] report the same button. *)
Theorem held_button_is_reported_once :
  forall (reads : list (Z * Z)) (old : Z * Z),
    no_repeat (map (fun x => Z.testbit x 0) (poll old reads)) = true
    /\ no_repeat (map (fun x => Z.testbit x 1) (poll old reads)) = true.
Proof.
  intros reads old.
  destruct (poll_bits reads old) as (H0 & H1 & _).
  rewrite H0, H1. split; apply falling_edges_no_repeat.
Qed.

(** ** The program selection of loop() *)

Lemma loop_buttons_range (sel : Z * Z) (bb : Z) :
  0 <= fst sel < 3 /\ 0 <= snd sel < 14 ->
  0 <= fst (fst (loop_buttons sel bb)) < 3
  /\ 0 <= snd (fst (loop_buttons sel bb)) < 14.
Proof.
  destruct sel as [p t]. cbn [fst snd]. intros [Hp Ht].
  unfold loop_buttons.
  destruct (negb (Z.land bb 1 =? 0)); destruct (negb (Z.land bb 2 =? 0));
    cbn [fst snd];
    repeat match goal with
           | |- context [?a >=? ?b] =>
               let E := fresh "E" in
               destruct (Z.geb_spec a b) as [E|E]
           end; lia.
Qed.

Lemma selection_range (bs : list Z) (sel : Z * Z) :
  0 <= fst sel < 3 /\ 0 <= snd sel < 14 ->
  0 <= fst (fold_left (fun s bb => fst (loop_buttons s bb)) bs sel) < 3
  /\ 0 <= snd (fold_left (fun s bb => fst (loop_buttons s bb)) bs sel) < 14.
Proof.
  revert sel. induction bs as [|bb bs IH]; intros sel H.
  - exact H.
  - cbn [fold_left]. apply IH. apply loop_buttons_range. exact H.
Qed.


(** ** How calls of LEDStep compose *)

Section Composition.

Variables (rle pal : Z -> Z) (sk : sketch).

Lemma for_loop_add {S : Type} (n m : nat) (body : S -> Rd S) (x : S) :
  for_loop (n + m) body x
  = (y <- for_loop n body x ;; for_loop m body y).
Proof.
  revert x. induction n as [|n IH]; intros x.
  - cbn [Nat.add for_loop]. unfold bind, ret. cbn [fst snd app].
    destruct (for_loop m body x). reflexivity.
  - cbn [Nat.add for_loop]. unfold bind in *. cbn [fst snd].
    rewrite IH. cbn [fst snd]. rewrite app_assoc. reflexivity.
Qed.

(** The loop of [LEDStep] does not depend on the field [pRLE]. *)
Lemma for_loop_pRLE (m : nat) (st : LEDSTRING) (s p : Z) :
  for_loop m (LEDStep_body rle pal sk) (set_pRLE st p, s)
  = (set_pRLE (fst (val (for_loop m (LEDStep_body rle pal sk) (st, s)))) p,
     snd (val (for_loop m (LEDStep_body rle pal sk) (st, s))),
     fetched (for_loop m (LEDStep_body rle pal sk) (st, s))).
Proof.
  revert st s. induction m as [|m IH]; intros st s.
  - reflexivity.
  - cbn [for_loop]. unfold bind. rewrite LEDStep_body_pRLE.
    unfold val, fetched in *.
    destruct (LEDStep_body rle pal sk (st, s)) as [[st1 s1] l1].
    cbn [fst snd]. rewrite IH. reflexivity.
Qed.

Lemma LEDStep_sum (st : LEDSTRING) (n m : nat) :
  LEDStep rle pal sk st (Z.of_nat (n + m))
  = (st1 <- LEDStep rle pal sk st (Z.of_nat n) ;;
     LEDStep rle pal sk st1 (Z.of_nat m)).
Proof.
  unfold LEDStep. rewrite !Nat2Z.id, for_loop_add.
  unfold bind, ret. cbn [fst snd].
  destruct (for_loop n (LEDStep_body rle pal sk) (st, pRLE st))
    as [[st1 s1] l1].
  cbn [fst snd]. change (pRLE (set_pRLE st1 s1)) with s1.
  rewrite for_loop_pRLE. unfold val, fetched. cbn [fst snd].
  destruct (for_loop m (LEDStep_body rle pal sk) (st1, s1))
    as [[st2 s2] l2].
  cbn [fst snd]. rewrite !app_nil_r. reflexivity.
Qed.

End Composition.

(** X13. [LEDStep] with a step count that is not positive does nothing: the
    structure is unchanged and no program byte is fetched. *)
Theorem LEDStep_nonpositive_is_noop :
  forall (rle pal : Z -> Z) (sk : sketch) (st : LEDSTRING) (n : Z),
    n <= 0 ->
    LEDStep rle pal sk st n = (st, []).
Proof.
  intros rle pal sk st n Hn. unfold LEDStep.
  replace (Z.to_nat n) with 0%nat by lia.
  cbn [for_loop]. unfold bind, ret. cbn [fst snd app].
  rewrite set_pRLE_same. reflexivity.
Qed.

(** X14. [LEDStep(st, n + m)] is [LEDStep(st, n)] followed by [LEDStep(.., m)]:
    the same structure, and the same fetches in the same order. *)
Theorem LEDStep_add :
  forall (rle pal : Z -> Z) (sk : sketch) (st : LEDSTRING) (n m : Z),
    0 <= n -> 0 <= m ->
    LEDStep rle pal sk st (n + m)
    = (st1 <- LEDStep rle pal sk st n ;; LEDStep rle pal sk st1 m).
Proof.
  intros rle pal sk st n m Hn Hm.
  pose proof (LEDStep_sum rle pal sk st (Z.to_nat n) (Z.to_nat m)) as H.
  rewrite Nat2Z.inj_add, !Z2Nat.id in H by assumption. exact H.
Qed.

Lemma LEDStep_add_witness :
  LEDStep (flash_of pDemo) flash_gap_palette GapSketch
    (init_state GapSketch flash_gap_palette pDemo) (3 + 4)
  = (st1 <- LEDStep (flash_of pDemo) flash_gap_palette GapSketch
              (init_state GapSketch flash_gap_palette pDemo) 3 ;;
     LEDStep (flash_of pDemo) flash_gap_palette GapSketch st1 4).
Proof.
  apply (LEDStep_add (flash_of pDemo) flash_gap_palette GapSketch
           (init_state GapSketch flash_gap_palette pDemo) 3 4); lia.
Defined.

Lemma LEDStep_nonpositive_is_noop_witness :
  LEDStep (flash_of pDemo) flash_gap_palette GapSketch
    (init_state GapSketch flash_gap_palette pDemo) (-2)
  = (init_state GapSketch flash_gap_palette pDemo, []).
Proof.
  apply (LEDStep_nonpositive_is_noop (flash_of pDemo) flash_gap_palette
           GapSketch (init_state GapSketch flash_gap_palette pDemo) (-2)).
  lia.
Defined.


(** ** Solid runs *)

(** X15. A SIMPLE opcode shows the colour of its palette entry on the step that
    decodes it and on each of the [len] steps after it. *)
Theorem solid_run_colors :
  forall (rle pal : Z -> Z) (sk : sketch) (st : LEDSTRING) (a k : Z),
    iCount st = 0 ->
    a = opcode_addr rle st (pRLE st) ->
    Z.land (u8 (rle a)) MODE_MASK = MODE_SIMPLE ->
    0 <= k <= Z.land (u8 (rle a)) LENGTH_MASK ->
    CurrentColor (val (LEDStep rle pal sk st (1 + k))) =
      (pal_read_byte pal (u8 (rle (a + 1)) * 3),
       pal_read_byte pal (u8 (rle (a + 1)) * 3 + 1),
       pal_read_byte pal (u8 (rle (a + 1)) * 3 + 2)).
Proof.
  intros rle pal sk st a k H0 Ea Hm Hk. subst a.
  rewrite LEDStep_succ by lia.
  rewrite (Advance_simple rle pal sk st H0 Hm).
  pose proof (length_bits_range
                (u8 (rle (opcode_addr rle st (pRLE st))))) as HL.
  rewrite iter_within_run
    by (cbn [iCount set_pRLE set_rgb set_lastOP set_iCount]; lia).
  rewrite within_run_color_flat; [reflexivity|].
  cbn [lastOP set_pRLE set_rgb set_lastOP set_iCount]. discriminate.
Qed.

Lemma solid_run_colors_witness :
  CurrentColor
    (val (LEDStep (flash_of pSolidTwo) flash_gap_palette GapSketch
            (reached (flash_of pSolidTwo) flash_gap_palette GapSketch
               0 60 1) (1 + 1)))
  = (0, 0, 0).
Proof.
  apply (solid_run_colors (flash_of pSolidTwo) flash_gap_palette GapSketch
           (reached (flash_of pSolidTwo) flash_gap_palette GapSketch 0 60 1)
           0 1).
  - reflexivity.
  - reflexivity.
  - reflexivity.
  - vm_compute. split; intros Hc; discriminate Hc.
Defined.

(** ** Frames *)

Section Frames.

Variables (rle pal : Z -> Z) (sk : sketch).

Lemma Advance_iLen (st : LEDSTRING) : iLen (Advance rle pal sk st) = iLen st.
Proof.
  pose proof (Advance_frame rle pal sk st) as F. unfold frame in F.
  injection F as F _ _ _ _ _ _ _. exact F.
Qed.

(** The frames of two structures that agree up to idle deltas. *)
Lemma emitted_same (x y : LEDSTRING) :
  0 <= iCount x <= 63 ->
  same_but_idle_deltas x y ->
  emitted rle pal sk x = emitted rle pal sk y.
Proof.
  intros Hc H. rewrite !emitted_iterates.
  assert (El : iLen x = iLen y) by (destruct H as (E & _); exact E).
  rewrite El. apply map_ext. intros i.
  destruct (iter_same rle pal sk i x y Hc H) as [Hs _].
  destruct Hs as (_ & _ & _ & _ & _ & _ & Hcol & _). exact Hcol.
Qed.

(** What [LEDShow] fetches is fetched by single steps. *)
Lemma LEDShow_loop_fetched (P : Z -> Prop) (n : nat) (f : ShowFrame) :
  (forall i : nat, (i < n)%nat ->
     Forall P (step_reads rle pal sk
                 (Nat.iter i (Advance rle pal sk)
                    (pack (string f, s_ptr f))))) ->
  Forall P (fetched (for_loop n (LEDShow_body rle pal sk) f)).
Proof.
  revert f. induction n as [|n IH]; intros f H.
  - constructor.
  - cbn [for_loop]. rewrite fetched_bind. apply Forall_app. split.
    + rewrite LEDShow_body_LEDStep_body. unfold fetched at 1. cbn [snd].
      rewrite step_reads_pack. apply (H 0%nat). lia.
    + apply IH. intros i Hi.
      specialize (H (S i) ltac:(lia)).
      rewrite Nat.iter_succ_r in H.
      change (pack (string f, s_ptr f))
        with (set_pRLE (string f) (s_ptr f)) in H.
      rewrite Advance_pack in H.
      rewrite LEDShow_body_LEDStep_body. unfold val in *.
      destruct (LEDStep_body rle pal sk (string f, s_ptr f))
        as [[st1 s1] l1].
      cbn [fst snd string s_ptr] in *. exact H.
Qed.

Lemma LEDShow_fetched (P : Z -> Prop) (st : LEDSTRING) :
  (forall i : nat, (i < Z.to_nat (iLen st))%nat ->
     Forall P (step_reads rle pal sk (Nat.iter i (Advance rle pal sk) st))) ->
  Forall P (fetched (LEDShow rle pal sk st)).
Proof.
  intros H. unfold LEDShow. rewrite fetched_bind. apply Forall_app. split.
  - apply LEDShow_loop_fetched. intros i Hi.
    cbn [string s_ptr]. unfold pack. cbn [fst snd].
    rewrite set_pRLE_same. apply H. exact Hi.
  - constructor.
Qed.

End Frames.

(** X16. Advancing by one step scrolls the frame by one pixel: the frame after
    the step is the frame before it without its first pixel, followed by the
    colour the next pixel of the pattern has. *)
Theorem frame_scrolls_by_one :
  forall (rle pal : Z -> Z) (sk : sketch) (st : LEDSTRING),
    CurrentColor st :: emitted rle pal sk (Advance rle pal sk st)
    = emitted rle pal sk st
      ++ [CurrentColor
            (Nat.iter (Z.to_nat (iLen st)) (Advance rle pal sk) st)].
Proof.
  intros rle pal sk st.
  rewrite !emitted_iterates, Advance_iLen.
  set (n := Z.to_nat (iLen st)).
  change [CurrentColor (Nat.iter n (Advance rle pal sk) st)]
    with (map (fun i => CurrentColor (Nat.iter i (Advance rle pal sk) st))
              [n]).
  rewrite <- map_app.
  change [n] with (seq (0 + n) 1). rewrite <- seq_app.
  rewrite Nat.add_1_r. cbn [seq map]. f_equal.
  rewrite <- seq_shift, map_map. apply map_ext. intros i.
  rewrite Nat.iter_succ_r. reflexivity.
Qed.

(** X17. For a program of GAP, SIMPLE and GRADIENT opcodes closed by END, the
    frame shown after [n + period] steps is the frame shown after [n]. *)
Theorem frames_repeat :
  forall (rle pal : Z -> Z) (sk : sketch) (start nleds : Z)
         (ops : list opcode) (n : Z),
    forallb (plain_run sk) ops = true ->
    stored_at rle start (assemble ops) ->
    0 <= n ->
    emitted rle pal sk
      (reached rle pal sk start nleds (n + Z.of_nat (period ops)))
    = emitted rle pal sk (reached rle pal sk start nleds n).
Proof.
  intros rle pal sk start nleds ops n Hpl Hst Hn.
  destruct ops as [|o rest].
  - cbn [period fold_right Z.of_nat]. rewrite Z.add_0_r. reflexivity.
  - apply emitted_same.
    + apply reached_count_range.
    + rewrite <- (Z2Nat.id n) by exact Hn.
      apply (period_shift rle pal sk start (o :: rest));
        [discriminate|exact Hpl|exact Hst].
Qed.

Lemma frames_repeat_witness :
  emitted (flash_of (assemble pDemo_ops)) flash_gap_palette GapSketch
    (reached (flash_of (assemble pDemo_ops)) flash_gap_palette GapSketch
       0 60 (7 + Z.of_nat (period pDemo_ops)))
  = emitted (flash_of (assemble pDemo_ops)) flash_gap_palette GapSketch
      (reached (flash_of (assemble pDemo_ops)) flash_gap_palette GapSketch
         0 60 7).
Proof.
  apply (frames_repeat (flash_of (assemble pDemo_ops)) flash_gap_palette
           GapSketch 0 60 pDemo_ops 7).
  - reflexivity.
  - apply image_stored_at.
  - lia.
Defined.

(** X18. For a program of at least one GAP, SIMPLE or GRADIENT opcode closed by
    END, [LEDShow] on any state reached by [LEDInit] and steps of [LEDStep]
    fetches program bytes inside the program buffer only. *)
Theorem LEDShow_reads_stay_in_program :
  forall (rle pal : Z -> Z) (sk : sketch) (start nleds : Z)
         (ops : list opcode) (n : Z),
    ops <> [] ->
    forallb (plain_run sk) ops = true ->
    stored_at rle start (assemble ops) ->
    Forall (in_buffer start (length (assemble ops)))
      (fetched (LEDShow rle pal sk (reached rle pal sk start nleds n))).
Proof.
  intros rle pal sk start nleds ops n Hne Hpl Hst.
  destruct (LEDInit_of_program rle pal sk start ops Hne Hpl Hst nleds)
    as [Hv _].
  apply LEDShow_fetched. intros i _.
  unfold reached. rewrite LEDStep_iter, Hv.
  rewrite <- Nat.iter_succ_r, <- Nat.iter_add.
  apply (at_boundary_step rle pal sk start ops Hne Hpl Hst).
  apply (at_boundary_iter rle pal sk start ops Hne Hpl Hst).
  apply pre_init_at_boundary.
Qed.

Lemma LEDShow_reads_stay_in_program_witness :
  Forall (in_buffer 0 (length (assemble pDemo_ops)))
    (fetched
       (LEDShow (flash_of (assemble pDemo_ops)) flash_gap_palette GapSketch
          (reached (flash_of (assemble pDemo_ops)) flash_gap_palette
             GapSketch 0 60 17))).
Proof.
  apply (LEDShow_reads_stay_in_program (flash_of (assemble pDemo_ops))
           flash_gap_palette GapSketch 0 60 pDemo_ops 17).
  - discriminate.
  - reflexivity.
  - apply image_stored_at.
Defined.


(** ** A frame that ends inside the current run *)

Lemma map_seq_const {A : Type} (f : nat -> A) (c : A) (n : nat) :
  (forall i : nat, (i < n)%nat -> f i = c) ->
  map f (seq 0 n) = repeat c n.
Proof.
  intros H. induction n as [|n IH].
  - reflexivity.
  - rewrite seq_S, map_app, IH by (intros i Hi; apply H; lia).
    cbn [map Nat.add]. rewrite H by lia.
    symmetry. apply repeat_cons.
Qed.

Lemma Forall_False_nil {A : Type} (l : list A) :
  Forall (fun _ => False) l -> l = [].
Proof. intros H. destruct l; [reflexivity|]. inversion H; contradiction. Qed.

Section InsideRun.

Variables (rle pal : Z -> Z) (sk : sketch).

Lemma emitted_inside_run (st : LEDSTRING) :
  0 <= iCount st < 256 ->
  iLen st <= iCount st + 1 ->
  lastOP st <> MODE_GRADIENT ->
  emitted rle pal sk st = repeat (CurrentColor st) (Z.to_nat (iLen st)).
Proof.
  intros Hc Hl Hg. rewrite emitted_iterates. apply map_seq_const.
  intros i Hi. rewrite iter_within_run by lia.
  apply within_run_color_flat. exact Hg.
Qed.

End InsideRun.

(** X19. When the strip is not longer than the remaining count of the current
    run, [LEDShow] fetches no program byte at all. *)
Theorem LEDShow_inside_run_fetches_nothing :
  forall (rle pal : Z -> Z) (sk : sketch) (st : LEDSTRING),
    0 <= iCount st < 256 ->
    iLen st <= iCount st ->
    fetched (LEDShow rle pal sk st) = [].
Proof.
  intros rle pal sk st Hc Hl. apply Forall_False_nil. apply LEDShow_fetched.
  intros i Hi. rewrite iter_within_run by lia.
  rewrite step_reads_continue; [constructor|].
  destruct (within_run_fields st i) as [W _]. rewrite W. lia.
Qed.

Lemma LEDShow_inside_run_fetches_nothing_witness :
  fetched (LEDShow (flash_of pPulse10) flash_pulse_palette PulseSketch
             pPulse10_short_strip) = [].
Proof.
  apply (LEDShow_inside_run_fetches_nothing (flash_of pPulse10)
           flash_pulse_palette PulseSketch pPulse10_short_strip).
  - vm_compute. split; [discriminate|reflexivity].
  - vm_compute. discriminate.
Defined.

(** ** LEDPulse between frames *)

Lemma iter_LEDPulse_fields (k : nat) (st : LEDSTRING) :
  (iLen (Nat.iter k LEDPulse st), iCount (Nat.iter k LEDPulse st),
   lastOP (Nat.iter k LEDPulse st), pRLE (Nat.iter k LEDPulse st))
  = (iLen st, iCount st, lastOP st, pRLE st).
Proof.
  induction k as [|k IH].
  - reflexivity.
  - rewrite Nat.iter_succ.
    destruct (LEDPulse_other_fields (Nat.iter k LEDPulse st))
      as (F & E & _).
    unfold frame in F. injection F as F _ _ _ _ _ _ _.
    injection E as E1 E2 E3. injection IH as I1 I2 I3 I4.
    cbn [iLen set_iDir] in F.
    assert (F' : iLen (LEDPulse (Nat.iter k LEDPulse st))
                 = iLen (Nat.iter k LEDPulse st)).
    { rewrite <- F. destruct (LEDPulse (Nat.iter k LEDPulse st)).
      reflexivity. }
    congruence.
Qed.

(** X20. A strip driven as [loop()] drives the pulse programs (a run that is not a
    gradient and covers the strip, [LEDPulse] between frames) shows one colour
    on all pixels in every frame: the colour [LEDPulse] has reached. *)
Theorem pulse_frames_are_uniform :
  forall (rle pal : Z -> Z) (sk : sketch) (st : LEDSTRING) (k : nat),
    0 <= iCount st < 256 ->
    iLen st <= iCount st + 1 ->
    lastOP st <> MODE_GRADIENT ->
    emitted rle pal sk (Nat.iter k LEDPulse st)
    = repeat (CurrentColor (Nat.iter k LEDPulse st)) (Z.to_nat (iLen st)).
Proof.
  intros rle pal sk st k Hc Hl Hg.
  pose proof (iter_LEDPulse_fields k st) as E.
  injection E as E1 E2 E3 _.
  rewrite <- E1. apply emitted_inside_run; congruence.
Qed.

Lemma pulse_frames_are_uniform_witness :
  emitted (flash_of pPulse10) flash_pulse_palette PulseSketch
    (Nat.iter 5 LEDPulse (init_state PulseSketch flash_pulse_palette pPulse10))
  = repeat
      (CurrentColor
         (Nat.iter 5 LEDPulse
            (init_state PulseSketch flash_pulse_palette pPulse10)))
      (Z.to_nat (iLen (init_state PulseSketch flash_pulse_palette pPulse10))).
Proof.
  apply (pulse_frames_are_uniform (flash_of pPulse10) flash_pulse_palette
           PulseSketch (init_state PulseSketch flash_pulse_palette pPulse10)
           5).
  - vm_compute. split; [discriminate|reflexivity].
  - vm_compute. discriminate.
  - vm_compute. discriminate.
Defined.

(** ** The bounds of the red and green channels *)

Ltac bool_facts :=
  repeat match goal with
         | H : (_ && _) = true |- _ => apply andb_prop in H; destruct H
         | H : (_ && _) = false |- _ =>
             apply andb_false_iff in H; destruct H
         | H : (_ || _) = true |- _ => apply orb_prop in H; destruct H
         | H : (_ || _) = false |- _ =>
             apply orb_false_iff in H; destruct H
         | H : (_ <? _) = true |- _ => apply Z.ltb_lt in H
         | H : (_ <? _) = false |- _ => apply Z.ltb_ge in H
         | H : (_ >? _) = true |- _ => rewrite Z.gtb_ltb in H
         | H : (_ >? _) = false |- _ => rewrite Z.gtb_ltb in H
         | H : is_byte _ = true |- _ => unfold is_byte in H
         | H : (_ <=? _) = true |- _ => apply Z.leb_le in H
         end.

(** X21. After [LEDPulse] the red channel lies between the start and the end
    value of red, whenever the two differ, and the green channel between
    those of green. *)
Theorem LEDPulse_keeps_red_green_in_bounds :
  forall st : LEDSTRING,
    is_byte (sr st) = true -> is_byte (er st) = true ->
    is_byte (sg st) = true -> is_byte (eg st) = true ->
    (sr st <> er st ->
     Z.min (sr st) (er st) <= r (LEDPulse st) <= Z.max (sr st) (er st))
    /\ (sg st <> eg st ->
        Z.min (sg st) (eg st) <= g (LEDPulse st) <= Z.max (sg st) (eg st)).
Proof.
  intros st B1 B2 B3 B4. unfold LEDPulse.
  destruct (iDir st =? 0);
    repeat (change (negb (1 =? 0)) with true;
            change (negb (0 =? 0)) with false; cbv iota;
            match goal with
            | |- context [if ?a && ?c then _ else _] =>
                destruct (a && c) eqn:?
            end);
    change (negb (1 =? 0)) with true;
    change (negb (0 =? 0)) with false; cbv iota;
    cbn [r g set_rgb set_iDir negb];
    bool_facts;
    (split; intros Hne;
     try (rewrite u8_small by lia); lia).
Qed.

Lemma LEDPulse_keeps_red_green_in_bounds_witness :
  (sr (pulse_state pPulse10 5) <> er (pulse_state pPulse10 5) ->
   Z.min (sr (pulse_state pPulse10 5)) (er (pulse_state pPulse10 5))
   <= r (LEDPulse (pulse_state pPulse10 5))
   <= Z.max (sr (pulse_state pPulse10 5)) (er (pulse_state pPulse10 5)))
  /\ (sg (pulse_state pPulse10 5) <> eg (pulse_state pPulse10 5) ->
      Z.min (sg (pulse_state pPulse10 5)) (eg (pulse_state pPulse10 5))
      <= g (LEDPulse (pulse_state pPulse10 5))
      <= Z.max (sg (pulse_state pPulse10 5)) (eg (pulse_state pPulse10 5))).
Proof.
  apply (LEDPulse_keeps_red_green_in_bounds (pulse_state pPulse10 5));
    reflexivity.
Defined.


(** ** Channels stay 8-bit values *)

Ltac channels :=
  unfold channels_ok in *; step_fields; unfold pal_read_byte;
  repeat match goal with
         | H : _ /\ _ |- _ => destruct H
         | H : Forall _ (_ :: _) |- _ => inversion H; clear H; subst
         end;
  split; repeat constructor;
  first [apply u8_range | apply s8_range | lia | assumption].

Lemma LEDInit_channels_ok (rle pal : Z -> Z) (sk : sketch) (start nleds : Z) :
  channels_ok (val (LEDInit rle pal sk start nleds)).
Proof.
  unfold LEDInit, bind, ret, pgm_read_byte, val, zeroed.
  split_ifs; channels.
Qed.

Lemma Advance_channels_ok (rle pal : Z -> Z) (sk : sketch) (st : LEDSTRING) :
  channels_ok st -> channels_ok (Advance rle pal sk st).
Proof.
  intros H. rewrite <- (set_pRLE_same st) at 1. rewrite Advance_pack.
  unfold LEDStep_body, bind, ret, pgm_read_byte, val, fetched, pack.
  split_ifs; channels.
Qed.

Lemma LEDPulse_channels_ok (st : LEDSTRING) :
  channels_ok st -> channels_ok (LEDPulse st).
Proof.
  intros H. unfold LEDPulse.
  repeat match goal with
         | |- context [if ?c then _ else _] => destruct c
         end;
    channels.
Qed.

(** X22. In every state reached by [LEDInit], steps of [LEDStep] and then calls
    of [LEDPulse], the three colour channels are values of [unsigned char]
    and the three deltas values of [signed char]. *)
Theorem channels_stay_8_bit :
  forall (rle pal : Z -> Z) (sk : sketch) (start nleds n : Z) (k : nat),
    channels_ok (Nat.iter k LEDPulse (reached rle pal sk start nleds n)).
Proof.
  intros rle pal sk start nleds n k.
  induction k as [|k IH].
  - unfold reached. rewrite LEDStep_iter.
    induction (Z.to_nat n) as [|m IHm].
    + apply LEDInit_channels_ok.
    + rewrite Nat.iter_succ. apply Advance_channels_ok. exact IHm.
  - rewrite Nat.iter_succ. apply LEDPulse_channels_ok. exact IH.
Qed.

(** ** LEDInit *)

Lemma LEDInit_pulse_fetched (rle pal : Z -> Z)
  (start nleds len : Z) :
  is_len len = true ->
  rle start = Z.lor MODE_PULSE len ->
  fetched (LEDInit rle pal PulseSketch start nleds)
  = [start; start + 1; start + 2; start + 3; start + 4; start + 5;
     start + 6; start + 7; start + 8; start + 9].
Proof.
  intros Hl B.
  destruct (control_byte 0 len (or_introl eq_refl) Hl) as (C1 & C2 & C3 & _).
  unfold MODE_PULSE in *.
  unfold LEDInit, bind, ret, pgm_read_byte, val, fetched.
  cbn [fst snd]. rewrite B, C1, C2.
  change (0 =? MODE_SIMPLE) with false. change (0 =? MODE_GRADIENT) with false.
  change (0 =? 0) with true. cbv iota. cbn [fst snd app].
  repeat rewrite <- Z.add_assoc. reflexivity.
Qed.

(** X23. [LEDInit] of neopixel.ino on a PULSE opcode: the start colour becomes the
    current colour, deltas and end colour are loaded, the direction is
    forward, the count is the length field, and the cursor is left after the
    nine parameter bytes; exactly the ten bytes of the opcode are fetched. *)
Theorem LEDInit_decodes_pulse :
  forall (rle pal : Z -> Z)
         (start nleds len s1 s2 s3 d1 d2 d3 e1 e2 e3 : Z),
    is_len len = true ->
    forallb is_byte [s1; s2; s3; d1; d2; d3; e1; e2; e3] = true ->
    stored_at rle start (encode (Pulse len s1 s2 s3 d1 d2 d3 e1 e2 e3)) ->
    val (LEDInit rle pal PulseSketch start nleds)
    = load pal (Pulse len s1 s2 s3 d1 d2 d3 e1 e2 e3) (pre_init start nleds)
        (start + 10)
    /\ fetched (LEDInit rle pal PulseSketch start nleds)
       = [start; start + 1; start + 2; start + 3; start + 4; start + 5;
          start + 6; start + 7; start + 8; start + 9].
Proof.
  intros rle pal start nleds len s1 s2 s3 d1 d2 d3 e1 e2 e3 Hl Hb Hs.
  split.
  - apply LEDInit_loads_pulse; assumption.
  - apply (LEDInit_pulse_fetched rle pal start nleds len Hl).
    cbn [encode] in Hs. apply (stored_at_0 _ _ _ _ Hs).
Qed.

Lemma LEDInit_decodes_pulse_witness :
  val (LEDInit (flash_of pPulse10) flash_pulse_palette PulseSketch 0 60)
  = load flash_pulse_palette (Pulse 0x3b 0 0x40 0x40 1 0xff 0 0x40 0 0x40)
      (pre_init 0 60) (0 + 10)
  /\ fetched (LEDInit (flash_of pPulse10) flash_pulse_palette PulseSketch
                0 60)
     = [0; 0 + 1; 0 + 2; 0 + 3; 0 + 4; 0 + 5; 0 + 6; 0 + 7; 0 + 8; 0 + 9].
Proof.
  apply (LEDInit_decodes_pulse (flash_of pPulse10) flash_pulse_palette 0 60
           0x3b 0 0x40 0x40 1 0xff 0 0x40 0 0x40).
  - reflexivity.
  - reflexivity.
  - intros i Hi. cbn [encode length] in Hi.
    do 10 (destruct i as [|i]; [reflexivity|]). lia.
Defined.

(** X24. Unless the first opcode is a PULSE of neopixel.ino, [LEDInit] leaves the
    structure that one step of [LEDStep] leaves when taken from the cleared
    structure with both pointers at the program start. *)
Theorem LEDInit_is_first_decoding_step :
  forall (rle pal : Z -> Z) (sk : sketch) (start nleds : Z),
    (sk = PulseSketch -> Z.land (u8 (rle start)) MODE_MASK <> 0) ->
    val (LEDInit rle pal sk start nleds)
    = val (LEDStep rle pal sk (pre_init start nleds) 1).
Proof.
  intros rle pal sk start nleds H.
  apply (LEDInit_first_step rle pal sk start nleds H).
Qed.

Lemma LEDInit_is_first_decoding_step_witness :
  val (LEDInit (flash_of pDemo) flash_gap_palette GapSketch 0 60)
  = val (LEDStep (flash_of pDemo) flash_gap_palette GapSketch
           (pre_init 0 60) 1).
Proof.
  apply (LEDInit_is_first_decoding_step (flash_of pDemo) flash_gap_palette
           GapSketch 0 60).
  intros Hc. discriminate Hc.
Defined.

(** ** The control byte *)

(** X25. Every byte is the [|] of its mode bits and its length bits, and a control
    byte written [MODE | len], as the program tables write it, gives back
    [MODE] and [len] under the two masks. *)
Theorem control_byte_round_trip :
  forall b m len : Z,
    In m [MODE_GAP; MODE_SIMPLE; MODE_GRADIENT; MODE_END] ->
    is_len len = true ->
    Z.lor (Z.land (u8 b) MODE_MASK) (Z.land (u8 b) LENGTH_MASK) = u8 b
    /\ Z.land (Z.lor m len) MODE_MASK = m
    /\ Z.land (Z.lor m len) LENGTH_MASK = len.
Proof.
  intros b m len Hm Hl.
  assert (Hb : 0 <= len < 256).
  { unfold is_len in Hl. apply andb_prop in Hl. destruct Hl as [H1 H2].
    apply Z.leb_le in H1, H2. lia. }
  split.
  - pose proof (byte_cases
      (fun x => Z.lor (Z.land x MODE_MASK) (Z.land x LENGTH_MASK) =? x)
      ltac:(vm_compute; reflexivity) (u8 b) (u8_range b)) as H.
    apply Z.eqb_eq in H. exact H.
  - pose proof (byte_cases
      (fun l =>
         negb (is_len l)
         || forallb (fun m =>
                       (Z.land (Z.lor m l) MODE_MASK =? m)
                       && (Z.land (Z.lor m l) LENGTH_MASK =? l))
              [MODE_GAP; MODE_SIMPLE; MODE_GRADIENT; MODE_END])
      ltac:(vm_compute; reflexivity) len Hb) as H.
    cbv beta in H. rewrite Hl in H. cbn [negb orb] in H.
    rewrite forallb_forall in H. specialize (H m Hm).
    apply andb_prop in H. destruct H as [H1 H2].
    apply Z.eqb_eq in H1, H2. split; assumption.
Qed.

Lemma control_byte_round_trip_witness :
  Z.lor (Z.land (u8 0x83) MODE_MASK) (Z.land (u8 0x83) LENGTH_MASK) = u8 0x83
  /\ Z.land (Z.lor MODE_GRADIENT 3) MODE_MASK = MODE_GRADIENT
  /\ Z.land (Z.lor MODE_GRADIENT 3) LENGTH_MASK = 3.
Proof.
  apply (control_byte_round_trip 0x83 MODE_GRADIENT 3).
  - right. right. left. reflexivity.
  - reflexivity.
Defined.

(** ** The program selection of loop() *)

(** X26. Whatever [GetButtons] returns, call after call, [iProgram] stays in
    0..2 and [iType] in 0..13, so the index [iProgram * 14 + iType] stays
    inside the 42 entries of [programs]. *)
Theorem program_index_stays_in_table :
  forall bs : list Z,
    0 <= fst (fold_left (fun s bb => fst (loop_buttons s bb)) bs (0, 0)) < 3
    /\ 0 <= snd (fold_left (fun s bb => fst (loop_buttons s bb)) bs (0, 0))
       < 14
    /\ 0 <= program_index
              (fold_left (fun s bb => fst (loop_buttons s bb)) bs (0, 0))
       < 42.
Proof.
  intros bs.
  destruct (selection_range bs (0, 0)) as [H1 H2].
  { cbn [fst snd]. lia. }
  split; [exact H1|]. split; [exact H2|].
  unfold program_index. lia.
Qed.

Lemma LEDShow_caller (rle pal : Z -> Z) (sk : sketch) (st : LEDSTRING) :
  fst (val (LEDShow rle pal sk st)) = st.
Proof.
  unfold LEDShow. rewrite val_bind, for_loop_val, LEDShow_loop. reflexivity.
Qed.

Lemma loop_buttons_no_change (sel : Z * Z) (bb : Z) :
  snd (loop_buttons sel bb) = 0 -> fst (loop_buttons sel bb) = sel.
Proof.
  destruct sel as [p t]. unfold loop_buttons.
  destruct (negb (Z.land bb 1 =? 0)); destruct (negb (Z.land bb 2 =? 0));
    cbn [fst snd]; intros H; try discriminate H; reflexivity.
Qed.

Section LoopWhile.

Variables (rle pal : Z -> Z).
Variables (P : Z -> Prop) (Q : list color -> Prop) (I : LEDSTRING -> Prop).
Variable p0 : Z.

Hypothesis Hshow : forall st, I st ->
  Forall P (fetched (LEDShow rle pal PulseSketch st))
  /\ Q (emitted rle pal PulseSketch st).
Hypothesis Hstep : forall st, I st ->
  Forall P (fetched (LEDStep rle pal PulseSketch st 1)).
Hypothesis Hkeep : forall st, I st ->
  I (if p0 =? 0 then LEDPulse st else Advance rle pal PulseSketch st).

Lemma loop_pass_inv (t : Z) (old : Z * Z) (st : LEDSTRING) (rd : Z * Z) :
  I st ->
  Forall P (fetched (loop_pass rle pal ((p0, t), old, st) rd))
  /\ Q (snd (fst (val (loop_pass rle pal ((p0, t), old, st) rd))))
  /\ (snd (val (loop_pass rle pal ((p0, t), old, st) rd)) = 0 ->
      exists old' st',
        fst (fst (val (loop_pass rle pal ((p0, t), old, st) rd)))
        = ((p0, t), old', st') /\ I st').
Proof.
  intros HI. destruct (Hshow st HI) as [H1 H2].
  unfold loop_pass. cbv zeta.
  rewrite !fetched_bind, !val_bind. cbn [ret fetched val fst snd].
  rewrite LEDShow_caller, app_nil_r.
  split; [|split].
  - apply Forall_app. split; [exact H1|].
    destruct (fst (fst (loop_buttons (p0, t) (fst (GetButtons old rd)))) =? 0).
    + constructor.
    + apply Hstep. exact HI.
  - exact H2.
  - intros H0. apply loop_buttons_no_change in H0. rewrite H0.
    cbn [fst]. eexists _, _. split; [reflexivity|].
    specialize (Hkeep st HI).
    destruct (p0 =? 0); exact Hkeep.
Qed.

Lemma loop_while_inv (reads : list (Z * Z)) :
  forall (t : Z) (old : Z * Z) (st : LEDSTRING),
    I st ->
    Forall P (fetched (loop_while rle pal ((p0, t), old, st) reads))
    /\ Forall Q
         (snd (fst (val (loop_while rle pal ((p0, t), old, st) reads)))).
Proof.
  induction reads as [|rd rest IH]; intros t old st HI.
  - split; constructor.
  - destruct (loop_pass_inv t old st rd HI) as (F1 & F2 & F3).
    cbn [loop_while]. rewrite fetched_bind, val_bind.
    destruct (snd (val (loop_pass rle pal (p0, t, old, st) rd)) =? 0) eqn:E.
    + apply Z.eqb_eq in E. destruct (F3 E) as (old' & st' & E1 & HI').
      rewrite E1. destruct (IH t old' st' HI') as [G1 G2].
      rewrite fetched_bind, val_bind. cbn [ret fetched val fst snd].
      rewrite app_nil_r. split.
      * apply Forall_app. split; assumption.
      * constructor; assumption.
    + cbn [ret fetched val fst snd]. rewrite app_nil_r. split.
      * exact F1.
      * constructor; [exact F2|constructor].
Qed.

End LoopWhile.

Lemma loop_pass_sel (rle pal : Z -> Z) (sel old : Z * Z) (st : LEDSTRING)
  (rd : Z * Z) :
  fst (fst (fst (fst (val (loop_pass rle pal (sel, old, st) rd)))))
  = fst (loop_buttons sel (fst (GetButtons old rd))).
Proof. reflexivity. Qed.

Lemma loop_while_selection (rle pal : Z -> Z) (reads : list (Z * Z)) :
  forall (sel old : Z * Z) (st : LEDSTRING),
    0 <= fst sel < 3 /\ 0 <= snd sel < 14 ->
    0 <= fst (fst (fst (fst (fst
           (val (loop_while rle pal (sel, old, st) reads)))))) < 3
    /\ 0 <= snd (fst (fst (fst (fst
           (val (loop_while rle pal (sel, old, st) reads)))))) < 14.
Proof.
  induction reads as [|rd rest IH]; intros sel old st H.
  - exact H.
  - cbn [loop_while]. rewrite val_bind.
    pose proof (loop_buttons_range sel (fst (GetButtons old rd)) H) as R.
    rewrite <- loop_pass_sel with (rle := rle) (pal := pal) (st := st) in R.
    destruct (val (loop_pass rle pal (sel, old, st) rd))
      as [[[[sel' old'] st'] fr] bc].
    cbn [fst snd] in *.
    destruct (bc =? 0).
    + rewrite val_bind. cbn [ret val fst snd]. apply IH. exact R.
    + exact R.
Qed.

(** ** A pulse program driven by LEDShow and LEDPulse *)

Section PulseDriven.

Variables (rle pal : Z -> Z) (start nleds : Z).
Variables (len s1 s2 s3 d1 d2 d3 e1 e2 e3 : Z).

Hypothesis Hlen : is_len len = true.
Hypothesis Hbytes :
  forallb is_byte [s1; s2; s3; d1; d2; d3; e1; e2; e3] = true.
Hypothesis Hstored :
  stored_at rle start (assemble [Pulse len s1 s2 s3 d1 d2 d3 e1 e2 e3]).
Hypothesis Hcovers : nleds <= len + 1.

Lemma pulse_program_bytes :
  rle start = Z.lor MODE_PULSE len /\ rle (start + 10) = MODE_END.
Proof.
  split.
  - pose proof (Hstored 0%nat) as H. cbn in H.
    rewrite Z.add_0_r in H. apply H. lia.
  - pose proof (Hstored 10%nat) as H. cbn in H. apply H. lia.
Qed.

Lemma pulse_step_reads (st : LEDSTRING) :
  pRLEStart st = start -> pRLE st = start + 10 -> 0 <= iCount st ->
  Forall (in_buffer start 11) (step_reads rle pal PulseSketch st).
Proof.
  intros Hs Hp Hc.
  destruct (Z.eq_dec (iCount st) 0) as [H0|H0].
  - destruct pulse_program_bytes as [B0 B10].
    destruct (control_byte 0 len (or_introl eq_refl) Hlen)
      as (C1 & C2 & _ & _).
    unfold MODE_PULSE in B0.
    rewrite step_reads_decode by exact H0.
    assert (E : u8 (rle (pRLE st)) = MODE_END).
    { rewrite Hp, B10. reflexivity. }
    rewrite (opcode_addr_at_END rle st E), E, Hs, B0, C1, C2, Hp.
    cbn. repeat constructor; unfold in_buffer; lia.
  - rewrite step_reads_continue by lia. constructor.
Qed.

Lemma pulse_driven_steps (st : LEDSTRING) (i : nat) :
  pulse_driven start nleds st -> (Z.of_nat i < nleds) ->
  Forall (in_buffer start 11)
    (step_reads rle pal PulseSketch
       (Nat.iter i (Advance rle pal PulseSketch) st)).
Proof.
  intros (Hs & Hp & Hn & Hc & Hcov) Hi.
  rewrite iter_within_run by lia.
  destruct (within_run_fields st i) as [W1 W2].
  apply pulse_step_reads.
  - unfold within_run. destruct (lastOP st =? MODE_GRADIENT); exact Hs.
  - rewrite W2. exact Hp.
  - rewrite W1. lia.
Qed.

Lemma pulse_driven_show (st : LEDSTRING) :
  pulse_driven start nleds st ->
  Forall (in_buffer start 11) (fetched (LEDShow rle pal PulseSketch st)).
Proof.
  intros H. apply LEDShow_fetched. intros i Hi.
  apply pulse_driven_steps; [exact H|].
  destruct H as (_ & _ & Hn & _). lia.
Qed.

Lemma pulse_driven_step (st : LEDSTRING) :
  pulse_driven start nleds st ->
  Forall (in_buffer start 11) (fetched (LEDStep rle pal PulseSketch st 1)).
Proof.
  intros (Hs & Hp & Hn & Hc & Hcov).
  unfold LEDStep. rewrite fetched_bind. change (Z.to_nat 1) with 1%nat.
  cbn [for_loop]. rewrite fetched_bind. cbn [ret fetched snd].
  rewrite !app_nil_r. rewrite step_reads_pack.
  unfold pack. cbn [fst snd]. rewrite set_pRLE_same.
  apply Forall_app. split.
  - apply pulse_step_reads; [exact Hs|exact Hp|lia].
  - destruct (val _) as [st1 x1]. constructor.
Qed.

Lemma pulse_driven_LEDPulse (st : LEDSTRING) :
  pulse_driven start nleds st -> pulse_driven start nleds (LEDPulse st).
Proof.
  intros (Hs & Hp & Hn & Hc & Hcov).
  destruct (LEDPulse_other_fields st) as (F & G & _).
  unfold frame in F. injection F as F1 F2 _ _ _ _ _ _.
  injection G as G1 G2 _.
  change (iLen (set_iDir (LEDPulse st) (iDir st))) with (iLen (LEDPulse st))
    in F1.
  change (pRLEStart (set_iDir (LEDPulse st) (iDir st)))
    with (pRLEStart (LEDPulse st)) in F2.
  unfold pulse_driven. rewrite F1, F2, G1, G2. repeat split; lia.
Qed.

Lemma LEDInit_pulse_driven :
  pulse_driven start nleds (val (LEDInit rle pal PulseSketch start nleds))
  /\ Forall (in_buffer start 11)
       (fetched (LEDInit rle pal PulseSketch start nleds)).
Proof.
  assert (Hl : 0 <= len <= 63).
  { pose proof Hlen as H. unfold is_len in H. apply andb_prop in H.
    destruct H as [H1 H2]. apply Z.leb_le in H1, H2. lia. }
  split.
  - rewrite (LEDInit_loads_pulse rle pal start nleds len s1 s2 s3 d1 d2 d3
               e1 e2 e3 Hlen Hbytes).
    + unfold pulse_driven, load, pre_init. cbn. repeat split; lia.
    + apply (stored_at_app_l rle start _ [MODE_END]). exact Hstored.
  - destruct pulse_program_bytes as [B0 _].
    rewrite (LEDInit_pulse_fetched rle pal start nleds len Hlen B0).
    repeat constructor; unfold in_buffer; lia.
Qed.

End PulseDriven.

(** ** loop() of neopixel.ino on a program of its table *)

Section LoopProgram.

Variables (rle pal : Z -> Z) (programs_at : Z -> Z).
Variables (sel old : Z * Z) (reads : list (Z * Z)) (ops : list opcode).

Hypothesis Hstored :
  stored_at rle (programs_at (program_index sel)) (assemble ops).
Hypothesis Hfits : fits_row (fst sel) ops = true.

Lemma loop_on_program :
  Forall (in_buffer (programs_at (program_index sel)) (length (assemble ops)))
    (fetched (loop rle pal programs_at sel old reads))
  /\ Forall (fun f : list color => length f = 60%nat)
       (snd (fst (val (loop rle pal programs_at sel old reads)))).
Proof.
  set (a := programs_at (program_index sel)) in *.
  unfold loop. fold a. rewrite fetched_bind, val_bind.
  destruct sel as [p t]. unfold fits_row in Hfits. cbn [fst] in Hfits.
  destruct (p =? 0) eqn:Ep.
  - (* a pulse program *)
    unfold pulse_covers in Hfits.
    destruct ops as [|o rest]; [discriminate Hfits|].
    destruct o as [| | |len s1 s2 s3 d1 d2 d3 e1 e2 e3];
      try discriminate Hfits.
    destruct rest as [|o' rest']; [|discriminate Hfits].
    apply andb_prop in Hfits. destruct Hfits as [H12 H3].
    apply andb_prop in H12. destruct H12 as [H1 H2].
    apply Z.leb_le in H3.
    change (length (assemble [Pulse len s1 s2 s3 d1 d2 d3 e1 e2 e3]))
      with 11%nat.
    destruct (LEDInit_pulse_driven rle pal a 60 len s1 s2 s3 d1 d2 d3
                e1 e2 e3 H1 H2 Hstored H3) as [D F].
    destruct (loop_while_inv rle pal (in_buffer a 11)
                (fun f : list color => length f = 60%nat)
                (pulse_driven a 60) p) with (reads := reads) (t := t)
                (old := old)
                (st := val (LEDInit rle pal PulseSketch a 60)) as [G1 G2].
    + intros st Hst. split.
      * apply (pulse_driven_show rle pal a 60 len s1 s2 s3 d1 d2 d3
                 e1 e2 e3 H1 Hstored). exact Hst.
      * rewrite emitted_length. destruct Hst as (_ & _ & Hn & _).
        rewrite Hn. reflexivity.
    + intros st Hst.
      apply (pulse_driven_step rle pal a 60 len s1 s2 s3 d1 d2 d3
               e1 e2 e3 H1 Hstored). exact Hst.
    + intros st Hst. rewrite Ep. apply pulse_driven_LEDPulse. exact Hst.
    + exact D.
    + split; [|exact G2]. apply Forall_app. split; assumption.
  - (* a program for LEDStep *)
    apply andb_prop in Hfits. destruct Hfits as [Hn Hpl].
    assert (Hne : ops <> []).
    { intros E. rewrite E in Hn. discriminate Hn. }
    destruct (LEDInit_of_program rle pal PulseSketch a ops Hne Hpl Hstored 60)
      as [Hv Hf].
    pose proof (pre_init_at_boundary a ops 60) as B0.
    destruct (at_boundary_step rle pal PulseSketch a ops Hne Hpl Hstored
                _ B0) as [B1 R0].
    destruct (loop_while_inv rle pal
                (in_buffer a (length (assemble ops)))
                (fun f : list color => length f = 60%nat)
                (fun st => at_boundary a ops st /\ iLen st = 60) p)
      with (reads := reads) (t := t) (old := old)
           (st := val (LEDInit rle pal PulseSketch a 60)) as [G1 G2].
    + intros st [Hb Hl]. split.
      * apply LEDShow_fetched. intros i _.
        apply (at_boundary_step rle pal PulseSketch a ops Hne Hpl Hstored).
        apply (at_boundary_iter rle pal PulseSketch a ops Hne Hpl Hstored).
        exact Hb.
      * rewrite emitted_length, Hl. reflexivity.
    + intros st [Hb Hl]. apply LEDStep_fetched. intros i.
      apply (at_boundary_step rle pal PulseSketch a ops Hne Hpl Hstored).
      apply (at_boundary_iter rle pal PulseSketch a ops Hne Hpl Hstored).
      exact Hb.
    + intros st [Hb Hl]. rewrite Ep. split.
      * apply (at_boundary_step rle pal PulseSketch a ops Hne Hpl Hstored).
        exact Hb.
      * rewrite Advance_iLen. exact Hl.
    + rewrite Hv. split; [exact B1|]. rewrite Advance_iLen. reflexivity.
    + split; [|exact G2]. apply Forall_app. split; [|exact G1].
      rewrite Hf. exact R0.
Qed.

End LoopProgram.

Lemma programs_row (p t : Z) :
  0 <= p < 3 -> 0 <= t < 14 ->
  nth (Z.to_nat (program_index (p, t))) programs []
  = assemble (nth (Z.to_nat (program_index (p, t))) programs_ops [])
  /\ fits_row p (nth (Z.to_nat (program_index (p, t))) programs_ops [])
     = true.
Proof.
  intros Hp Ht.
  assert (Ep : p = 0 \/ p = 1 \/ p = 2) by lia.
  assert (Et : t = 0 \/ t = 1 \/ t = 2 \/ t = 3 \/ t = 4 \/ t = 5 \/ t = 6
               \/ t = 7 \/ t = 8 \/ t = 9 \/ t = 10 \/ t = 11 \/ t = 12
               \/ t = 13) by lia.
  repeat (destruct Ep as [Ep|Ep]); subst p;
    repeat (destruct Et as [Et|Et]); subst t;
    split; vm_compute; reflexivity.
Qed.

(** X27. Whatever the buttons do during a call of [loop()], every program byte it
    fetches lies in the table selected on entry, every frame it sends has 60
    colours, and the selection it leaves is again inside [programs]. *)
Theorem loop_reads_selected_program :
  forall (rle pal : Z -> Z) (programs_at : Z -> Z) (sel old : Z * Z)
         (reads : list (Z * Z)),
    0 <= fst sel < 3 -> 0 <= snd sel < 14 ->
    stored_at rle (programs_at (program_index sel))
      (nth (Z.to_nat (program_index sel)) programs []) ->
    Forall (in_buffer (programs_at (program_index sel))
              (length (nth (Z.to_nat (program_index sel)) programs [])))
      (fetched (loop rle pal programs_at sel old reads))
    /\ Forall (fun f : list color => length f = 60%nat)
         (snd (fst (val (loop rle pal programs_at sel old reads))))
    /\ 0 <= program_index
              (fst (fst (fst (fst
                 (val (loop rle pal programs_at sel old reads)))))) < 42.
Proof.
  intros rle pal programs_at sel old reads Hp Ht Hst.
  destruct sel as [p t]. cbn [fst snd] in Hp, Ht.
  destruct (programs_row p t Hp Ht) as [E F].
  rewrite E in Hst |- *.
  destruct (loop_on_program rle pal programs_at (p, t) old reads _ Hst F)
    as [G1 G2].
  split; [exact G1|]. split; [exact G2|].
  unfold loop. rewrite val_bind.
  destruct (loop_while_selection rle pal reads (p, t) old
              (val (LEDInit rle pal PulseSketch
                      (programs_at (program_index (p, t))) 60)))
    as [S1 S2].
  { cbn [fst snd]. split; assumption. }
  unfold program_index.
  destruct (fst (fst (fst (fst (val (loop_while rle pal _ reads))))))
    as [p' t'].
  cbn [fst snd] in *. lia.
Qed.

Lemma loop_reads_selected_program_witness :
  Forall (in_buffer 0 (length (nth (Z.to_nat (program_index (0, 0)))
                                 programs [])))
    (fetched (loop (flash_of pPulse1) flash_pulse_palette (fun _ => 0)
                (0, 0) (1, 1) loop_example_reads))
  /\ Forall (fun f : list color => length f = 60%nat)
       (snd (fst (val (loop (flash_of pPulse1) flash_pulse_palette
                         (fun _ => 0) (0, 0) (1, 1) loop_example_reads))))
  /\ 0 <= program_index
            (fst (fst (fst (fst
               (val (loop (flash_of pPulse1) flash_pulse_palette (fun _ => 0)
                       (0, 0) (1, 1) loop_example_reads)))))) < 42.
Proof.
  apply (loop_reads_selected_program (flash_of pPulse1) flash_pulse_palette
           (fun _ => 0) (0, 0) (1, 1) loop_example_reads).
  - cbn. lia.
  - cbn. lia.
  - apply image_stored_at.
Defined.

(** ** loop() of the sketch with MODE_GAP *)

Section ShowAndStep.

Variables (rle pal : Z -> Z) (sk : sketch).

Lemma show_and_step_val (st : LEDSTRING) (frames : list (list color)) :
  val (show_and_step rle pal sk (st, frames))
  = (Advance rle pal sk st, frames ++ [emitted rle pal sk st]).
Proof.
  unfold show_and_step. rewrite !val_bind. cbn [ret val fst].
  rewrite LEDShow_caller. reflexivity.
Qed.

Lemma show_and_step_iter (n : nat) (st : LEDSTRING)
  (frames : list (list color)) :
  Nat.iter n (fun y => val (show_and_step rle pal sk y)) (st, frames)
  = (Nat.iter n (Advance rle pal sk) st,
     frames ++ map (fun k => emitted rle pal sk
                               (Nat.iter k (Advance rle pal sk) st))
                 (seq 0 n)).
Proof.
  induction n as [|n IH].
  - cbn. rewrite app_nil_r. reflexivity.
  - rewrite !Nat.iter_succ, IH, show_and_step_val.
    rewrite seq_S, map_app, app_assoc. reflexivity.
Qed.

Lemma show_and_step_fetched (P : Z -> Prop) (I : LEDSTRING -> Prop) :
  (forall st, I st ->
     I (Advance rle pal sk st)
     /\ Forall P (fetched (LEDShow rle pal sk st))
     /\ Forall P (fetched (LEDStep rle pal sk st 1))) ->
  forall (n : nat) (st : LEDSTRING) (frames : list (list color)),
    I st ->
    Forall P (fetched (for_loop n (show_and_step rle pal sk) (st, frames))).
Proof.
  intros H n. induction n as [|n IH]; intros st frames HI.
  - constructor.
  - destruct (H st HI) as (H1 & H2 & H3).
    cbn [for_loop]. rewrite fetched_bind, show_and_step_val.
    apply Forall_app. split.
    + unfold show_and_step. rewrite !fetched_bind. cbn [ret fetched snd].
      rewrite app_nil_r, LEDShow_caller.
      apply Forall_app. split; assumption.
    + apply IH. exact H1.
Qed.

End ShowAndStep.

(** X28. [loop()] of the sketch with [MODE_GAP], for any program of GAP, SIMPLE
    and GRADIENT opcodes in place of [pDemo] and any number of rounds: the
    frames sent are, in order, the frames of the states [LEDInit] and 0, 1,
    2, ... steps reach, the structure ends in the state after as many steps
    as rounds, and no program byte outside the program is fetched. *)
Theorem loop_show_step_frames :
  forall (rle pal : Z -> Z) (start : Z) (ops : list opcode) (iters : nat),
    ops <> [] ->
    forallb (plain_run GapSketch) ops = true ->
    stored_at rle start (assemble ops) ->
    snd (val (loop_show_step rle pal start iters))
    = map (fun k => emitted rle pal GapSketch
                      (reached rle pal GapSketch start 60 (Z.of_nat k)))
        (seq 0 iters)
    /\ fst (val (loop_show_step rle pal start iters))
       = reached rle pal GapSketch start 60 (Z.of_nat iters)
    /\ Forall (in_buffer start (length (assemble ops)))
         (fetched (loop_show_step rle pal start iters)).
Proof.
  intros rle pal start ops iters Hne Hpl Hst.
  unfold loop_show_step. rewrite val_bind, fetched_bind, for_loop_val.
  rewrite show_and_step_iter. cbn [fst snd app].
  unfold reached. split; [|split].
  - apply map_ext. intros k. rewrite LEDStep_iter, Nat2Z.id. reflexivity.
  - rewrite LEDStep_iter, Nat2Z.id. reflexivity.
  - destruct (LEDInit_of_program rle pal GapSketch start ops Hne Hpl Hst 60)
      as [Hv Hf].
    pose proof (pre_init_at_boundary start ops 60) as B0.
    destruct (at_boundary_step rle pal GapSketch start ops Hne Hpl Hst
                _ B0) as [B1 R0].
    apply Forall_app. split.
    + rewrite Hf. exact R0.
    + apply (show_and_step_fetched rle pal GapSketch _
               (at_boundary start ops)).
      * intros st Hb. split; [|split].
        -- apply (at_boundary_step rle pal GapSketch start ops Hne Hpl Hst).
           exact Hb.
        -- apply LEDShow_fetched. intros i _.
           apply (at_boundary_step rle pal GapSketch start ops Hne Hpl Hst).
           apply (at_boundary_iter rle pal GapSketch start ops Hne Hpl Hst).
           exact Hb.
        -- apply LEDStep_fetched. intros i.
           apply (at_boundary_step rle pal GapSketch start ops Hne Hpl Hst).
           apply (at_boundary_iter rle pal GapSketch start ops Hne Hpl Hst).
           exact Hb.
      * rewrite Hv. exact B1.
Qed.

Lemma loop_show_step_frames_witness :
  snd (val (loop_show_step (flash_of pDemo) flash_gap_palette 0 1000))
  = map (fun k => emitted (flash_of pDemo) flash_gap_palette GapSketch
                    (reached (flash_of pDemo) flash_gap_palette GapSketch
                       0 60 (Z.of_nat k)))
      (seq 0 1000)
  /\ fst (val (loop_show_step (flash_of pDemo) flash_gap_palette 0 1000))
     = reached (flash_of pDemo) flash_gap_palette GapSketch 0 60
         (Z.of_nat 1000)
  /\ Forall (in_buffer 0 (length (assemble pDemo_ops)))
       (fetched (loop_show_step (flash_of pDemo) flash_gap_palette 0 1000)).
Proof.
  apply (loop_show_step_frames (flash_of pDemo) flash_gap_palette 0
           pDemo_ops 1000).
  - discriminate.
  - reflexivity.
  - apply image_stored_at.
Defined.
